(** * FreeCAD-Render: mesh autosmoothing and OBJ export

    A shallow embedding of [Render/rendermesh.py] (class [RenderMesh]) and of
    [Render/rendermesh_mp/autosmooth.py] (the multiprocessing worker script),
    with the properties of the adjacency builders, the connected-components
    partitioner, the vertex splitter, the vertex-normal weighter, the UV
    transformation and the OBJ/MTL writer.

    Conventions of the embedding:
    - a Python list is a Rocq [list], indexed with stdpp's [!!]; an index out
      of range raises [IndexError] (indices are naturals: Python's negative
      indexing is not used by the code on the values it builds);
    - a Python [set] of integers is the duplicate-free list of its elements
      in insertion order; the order in which CPython iterates over (or pops
      from) a set is not specified by the language, so it is a parameter
      [set_iter] of the model, only known to enumerate the elements;
    - a ctypes [RawArray("l", _)] is a [list Z];
    - floating-point scalars are an abstract type [F] for the mesh code, which
      only compares dot products of normals; the UV transformation, which is
      arithmetic, is written over a type of scalars with the operations the
      code uses, and read with the real numbers (exact arithmetic) and with
      the binary64 floats of the kernel (the arithmetic of the code). *)

From Stdlib Require Import Floats ZArith Lia Reals Lra Ascii String.
From stdpp Require Import base list sorting gmap strings.

Local Open Scope nat_scope.

(** ** Exceptions *)

Inductive exn : Set :=
| IndexError
| KeyError
| ValueError
| TypeError
| StructError
| FuelExhausted.

Inductive result (A : Type) : Type :=
| Ok (a : A)
| Raise (e : exn).
Arguments Ok {A} a.
Arguments Raise {A} e.

#[global] Instance result_ret : MRet result := λ A a, Ok a.
#[global] Instance result_bind : MBind result :=
  λ A B k m, match m with Ok a => k a | Raise e => Raise e end.

(** [l[i]] *)
Definition at_ {A} (l : list A) (i : nat) : result A :=
  match l !! i with
  | Some x => Ok x
  | None => Raise IndexError
  end.

(** [functools.reduce] with a reducer that may raise. *)
Fixpoint foldlM {A B} (f : A → B → result A) (a : A) (l : list B) : result A :=
  match l with
  | [] => Ok a
  | x :: l => a' ← f a x; foldlM f a' l
  end.

(** [l[start:stop]] *)
Definition slice {A} (start stop : nat) (l : list A) : list A :=
  take (stop - start) (drop start l).

(** [buf[off : off + len(vals)] = vals] on a fixed-size array. *)
Definition write_slice {A} (off : nat) (vals : list A) (buf : list A) : list A :=
  take off buf ++ vals ++ drop (off + length vals) buf.

(** ** Mesh data *)

(** A facet is a triple of point indices. *)
Definition facet : Type := nat * nat * nat.

Definition facet_points (f : facet) : list nat :=
  let '(a, b, c) := f in [a; b; c].

(** [s.add(x)] *)
Definition set_add (x : nat) (s : list nat) : list nat :=
  if decide (x ∈ s) then s else s ++ [x].

(** [s1 & s2] *)
Definition set_inter (s1 s2 : list nat) : list nat :=
  filter (λ p, p ∈ s2) s1.

(** Ascending order, the order in which CPython iterates over a set of
    small non-negative integers (the hash of an integer is the integer and
    the table is scanned slot by slot). *)
Definition ascending (l : list nat) : list nat := merge_sort le l.

(** [((facet_index, point_index) for facet_index, facet in enumerate(facets)
      for point_index in facet)] *)
Definition facet_corners (facets : list facet) : list (nat * nat) :=
  mjoin (imap (λ facet_index f, pair facet_index <$> facet_points f) facets).

(** [fpp_reducer]: [facets_per_point[point_index].append(facet_index)] *)
Definition fpp_reducer (facets_per_point : list (list nat)) (new : nat * nat)
  : result (list (list nat)) :=
  let '(facet_index, point_index) := new in
  l ← at_ facets_per_point point_index;
  Ok (<[point_index := l ++ [facet_index]]> facets_per_point).

(** For each point, the facets that contain this point as a vertex. *)
Definition facets_per_point (count_points : nat) (facets : list facet)
  : result (list (list nat)) :=
  foldlM fpp_reducer (replicate count_points []) (facet_corners facets).

(** [reduce_adj]: [adjacents[facet_index].add(other_index)] *)
Definition reduce_adj (adjacents : list (list nat)) (new : nat * nat)
  : result (list (list nat)) :=
  let '(facet_index, other_index) := new in
  s ← at_ adjacents facet_index;
  Ok (<[facet_index := set_add other_index s]> adjacents).

(** ** Depth-first traversal

    [RenderMesh.connected_facets] and [autosmooth._connected_facets] are the
    same loop; the first one also fetches the normal of the current facet
    and tests the angle with the successor. The loop is written once, with
    [enter] for the normal of the current facet, [test] for the test of the
    successor ([None]: [continue]) and [pop] for [adjacents[current].pop()].

    The Python stack is a list whose top is its last element; here the top
    is the head of the list. *)

Record dfs_state : Type := DfsState {
  st_stack : list nat;
  st_adjacents : list (list nat);
  st_tags : list (option nat);
}.

(** Number of entries left in the adjacency lists. *)
Definition entries (adjacents : list (list nat)) : nat :=
  sum_list (length <$> adjacents).

Section Traversal.
Context {N : Type}.
Variable pop : list nat → option (nat * list nat).
Variable enter : nat → result N.
Variable test : N → nat → option N.
Variable new_tag : nat.

(** The inner loop, [while adjacents[current_index]: ...]. *)
Fixpoint forward (fuel : nat) (current_index : nat) (current_normal : N)
    (st : dfs_state) : result dfs_state :=
  match fuel with
  | 0 => Raise FuelExhausted
  | S fuel =>
    row ← at_ (st_adjacents st) current_index;
    match pop row with
    | None => Ok st
    | Some (successor_index, row') =>
      let adjacents' := <[current_index := row']> (st_adjacents st) in
      match test current_normal successor_index with
      | None =>
        forward fuel current_index current_normal
          (DfsState (st_stack st) adjacents' (st_tags st))
      | Some successor_normal =>
        t ← at_ (st_tags st) successor_index;
        match t with
        | None =>
          forward fuel successor_index successor_normal
            (DfsState (successor_index :: st_stack st) adjacents'
               (<[successor_index := Some new_tag]> (st_tags st)))
        | Some _ =>
          forward fuel current_index current_normal
            (DfsState (st_stack st) adjacents' (st_tags st))
        end
      end
    end
  end.

(** The outer loop, [while stack: ...]. Each round runs the inner loop
    from the top of the stack, then pops the stack. *)
Fixpoint backward (fuel : nat) (st : dfs_state) : result dfs_state :=
  match fuel with
  | 0 => Raise FuelExhausted
  | S fuel =>
    match st_stack st with
    | [] => Ok st
    | current_index :: _ =>
      current_normal ← enter current_index;
      st' ← forward (S (entries (st_adjacents st))) current_index current_normal st;
      backward fuel (DfsState (tail (st_stack st')) (st_adjacents st') (st_tags st'))
    end
  end.

(** The body of [connected_facets]: the tags and what is left of the
    adjacency lists (they are consumed in place). *)
Definition traverse (starting_facet_index : nat)
    (adjacents : list (list nat)) (tags : list (option nat))
  : result (list (list nat) * list (option nat)) :=
  if decide (starting_facet_index < length tags) then
    st ← backward (2 + entries adjacents)
           (DfsState [starting_facet_index] adjacents
              (<[starting_facet_index := Some new_tag]> tags));
    Ok (st_adjacents st, st_tags st)
  else Raise IndexError.
End Traversal.

Section Components.
Context {N : Type}.
Variable pop : list nat → option (nat * list nat).
Variable enter : nat → result N.
Variable test : N → nat → option N.

(** One round of the loop of [connected_components] over the generator
    [(x for x, y in enumerate(tags) if y is None)]: the generator reads the
    list that the traversal updates in place, so the entry of [x] is tested
    when [x] is reached. [tag] is the next tag to give. *)
Definition components_step
    (acc : nat * list (list nat) * list (option nat)) (x : nat)
  : result (nat * list (list nat) * list (option nat)) :=
  let '(tag, adjacents, tags) := acc in
  y ← at_ tags x;
  match y with
  | None =>
    '(adjacents', tags') ← traverse pop enter test tag x adjacents tags;
    Ok (S tag, adjacents', tags')
  | Some _ => Ok acc
  end.

Definition components_loop (count : nat) (adjacents : list (list nat)) (tag : nat)
  : result (nat * list (list nat) * list (option nat)) :=
  foldlM components_step (tag, adjacents, replicate count None) (seq 0 count).
End Components.

(** [l.pop()] on a list: the last element. *)
Definition list_pop (l : list nat) : option (nat * list nat) :=
  match reverse l with
  | [] => None
  | x :: r => Some (x, reverse r)
  end.

(** [autosmooth._connected_facets] *)
Definition _connected_facets (starting_facet_index : nat)
    (adjacents : list (list nat)) (tags : list (option nat)) (new_tag : nat)
  : result (list (list nat) * list (option nat)) :=
  traverse list_pop (λ _, Ok tt) (λ _ _, Some tt) new_tag
    starting_facet_index adjacents tags.

(** [autosmooth.connected_components]; [current_tag] is the shared counter
    [SHARED_CURRENT_TAG], read and incremented under its lock for each new
    component. Returns the counter and the tags. *)
Definition connected_components (adjacents : list (list nat)) (current_tag : nat)
  : result (nat * list (option nat)) :=
  '(current_tag', _, tags) ←
    components_loop list_pop (λ _, Ok tt) (λ _ _, Some tt)
      (length adjacents) adjacents current_tag;
  Ok (current_tag', tags).

Example connected_components_ex :
  connected_components [[1]; [0; 2]; [1]; []; [5]; [4]] 7
  = Ok (10, [Some 7; Some 7; Some 7; Some 8; Some 9; Some 9]).
Proof. reflexivity. Qed.

(** ** The worker script, [rendermesh_mp/autosmooth.py] *)

(** [[f(x) for x in l]] where [f] may raise. *)
Fixpoint mapR {A B} (f : A → result B) (l : list A) : result (list B) :=
  match l with
  | [] => Ok []
  | x :: l => y ← f x; ys ← mapR f l; Ok (y :: ys)
  end.

(** [arr[start:stop] = vals] on a ctypes array: the bounds are clipped to
    the array and the sizes must agree. *)
Definition assign_slice {A} (start stop : nat) (vals : list A) (arr : list A)
  : result (list A) :=
  let start' := start `min` length arr in
  let stop' := start' `max` (stop `min` length arr) in
  if decide (length vals = stop' - start') then
    Ok (take start' arr ++ vals ++ drop stop' arr)
  else Raise ValueError.

(** [len(set(f1) & set(f2)) == 2] *)
Definition share_edge (f1 f2 : facet) : bool :=
  bool_decide (length (set_inter (remove_dups (facet_points f1))
                                 (remove_dups (facet_points f2))) = 2).

(** [l3unpack_from(SHARED_ADJACENCY, ifacet * l3size)] *)
Definition unpack_row (adjacency : list Z) (ifacet : nat) : result (list Z) :=
  if decide (3 * ifacet + 3 ≤ length adjacency) then
    Ok (slice (3 * ifacet) (3 * ifacet + 3) adjacency)
  else Raise StructError.

(** [l2struct.iter_unpack] *)
Fixpoint unpack_pairs (l : list nat) : list (nat * nat) :=
  match l with
  | a :: b :: l => (a, b) :: unpack_pairs l
  | _ => []
  end.

(** [itertools.groupby(pairs, key=itget0)], with the second components. *)
Fixpoint groupby_fst (l : list (nat * nat)) : list (nat * list nat) :=
  match l with
  | [] => []
  | (k, v) :: l =>
    match groupby_fst l with
    | (k', vs) :: gs =>
      if decide (k = k') then (k, v :: vs) :: gs else (k, [v]) :: (k', vs) :: gs
    | [] => [(k, [v])]
    end
  end.

(** [make_chunks(chunk_size, length)] *)
Fixpoint make_chunks_from (fuel i chunk_size length : nat) : list (nat * nat) :=
  match fuel with
  | 0 => []
  | S fuel =>
    if decide (i < length) then
      (i, (i + chunk_size) `min` length)
        :: make_chunks_from fuel (i + chunk_size) chunk_size length
    else []
  end.

Definition make_chunks (chunk_size length : nat) : result (list (nat * nat)) :=
  if decide (chunk_size = 0) then Raise ValueError
  else Ok (make_chunks_from length 0 chunk_size length).

Section Autosmooth.
Context {F : Type}.
(** Iteration order of a set of integers, and of a set of pairs. *)
Variable set_iter : list nat → list nat.
Variable set_iter_pairs : list (nat * nat) → list (nat * nat).
(** [vector3d.dot], [>=] on floats and [math.cos]. *)
Variable dot : F * F * F → F * F * F → F.
Variable fge : F → F → bool.
Variable cos : F → F.

(** The [shared] dictionary of [main], which [init] copies into the globals
    of each worker: the inputs, then the arrays and counters the workers
    write. [sh_facets] is [UNPACKED_FACETS], [sh_normals] the normals three
    by three, [sh_count_points] is [len(SHARED_POINTS) // 3]. *)
Record shared : Type := Shared {
  sh_count_points : nat;
  sh_facets : list facet;
  sh_normals : list (F * F * F);
  sh_split_angle : F;
  sh_adjacency : list Z;
  sh_adjacency2 : list nat;
  sh_tags : list nat;
  sh_current_tag : nat;
  sh_current_adj : nat;
}.

Definition set_adjacency (sh : shared) (adjacency : list Z) : shared :=
  Shared (sh_count_points sh) (sh_facets sh) (sh_normals sh) (sh_split_angle sh)
    adjacency (sh_adjacency2 sh) (sh_tags sh) (sh_current_tag sh) (sh_current_adj sh).

(** What [main] allocates: [RawArray]s filled with zeros, counters at 0. *)
Definition make_shared (count_points : nat) (facets : list facet)
    (normals : list (F * F * F)) (split_angle : F) : shared :=
  let count_facets := length facets in
  Shared count_points facets normals split_angle
    (replicate (count_facets * 3) 0%Z) (replicate (count_facets * 3 * 2) 0)
    (replicate count_facets 0) 0 0.

(** [set(chain(FACETS_PER_POINT[p] for p in facet))], as it is iterated. *)
Definition candidates (fpp : list (list nat)) (f : facet) : result (list nat) :=
  ls ← mapR (at_ fpp) (facet_points f);
  Ok (set_iter (remove_dups (mjoin ls))).

(** The adjacency list of one facet in [compute_adjacents]. [facet_idx] is
    the index of the facet in the mesh ([facet_idx + start] in the code). *)
Definition compute_adjacents_row (sh : shared) (fpp : list (list nat))
    (split_angle_cos : F) (facet_idx : nat) (f : facet) : result (list nat) :=
  others ← candidates fpp f;
  foldlM (λ adj other_idx,
    other ← at_ (sh_facets sh) other_idx;
    if share_edge f other then
      n1 ← at_ (sh_normals sh) facet_idx;
      n2 ← at_ (sh_normals sh) other_idx;
      if fge (dot n1 n2) split_angle_cos then Ok (adj ++ [other_idx]) else Ok adj
    else Ok adj) [] others.

(** The three slots of a facet: [islice(chain(set(adj), (-1, -1, -1)), 0, 3)] *)
Definition adjacency_slots (adj : list nat) : list Z :=
  take 3 ((Z.of_nat <$> set_iter (remove_dups adj)) ++ [-1; -1; -1]%Z).

(** [compute_adjacents(chunk)]; [fpp] is the global [FACETS_PER_POINT]. *)
Definition compute_adjacents (fpp : list (list nat)) (sh : shared)
    (chunk : nat * nat) : result shared :=
  let '(start, stop) := chunk in
  let split_angle_cos := cos (sh_split_angle sh) in
  adjacents ← mapR (λ '(facet_idx, f),
                 compute_adjacents_row sh fpp split_angle_cos (facet_idx + start) f)
               (imap pair (slice start stop (sh_facets sh)));
  adjacency ← assign_slice (start * 3) (stop * 3)
                (adjacents ≫= adjacency_slots) (sh_adjacency sh);
  Ok (set_adjacency sh adjacency).

(** [compute_adjacents_np(chunk)], on the sorted array of pairs of adjacent
    facets: [set_item_adj(k, (vs + [-1, -1, -1])[0:3])] for each group. *)
Definition compute_adjacents_np (pairs : list (nat * nat)) (sh : shared)
    (chunk : nat * nat) : result shared :=
  let '(start, stop) := chunk in
  foldlM (λ sh '(k, vs),
    let row := take 3 ((Z.of_nat <$> vs) ++ [-1; -1; -1]%Z) in
    if decide (3 * k + 3 ≤ length (sh_adjacency sh)) then
      Ok (set_adjacency sh (list_inserts (3 * k) row (sh_adjacency sh)))
    else Raise IndexError)
    sh (groupby_fst (slice start stop pairs)).

(** The adjacency lists of the submesh of a chunk: the neighbours inside
    the chunk, renumbered from [start]. *)
Definition chunk_adjacents (start stop : nat) (rows : list (list Z))
  : list (list nat) :=
  (λ row : list Z, (λ f, Z.to_nat f - start) <$>
          filter (λ f, Z.of_nat start ≤ f < Z.of_nat stop)%Z row) <$> rows.

(** The pairs (tag, facet) of a chunk for the second pass: one for each
    neighbour outside the chunk. *)
Definition chunk_adjacents2 (start stop : nat) (tags : list nat)
    (rows : list (list Z)) : result (list (nat * nat)) :=
  ls ← mapR (λ ir : nat * list Z,
         let '(ifacet, row) := ir in
         tag ← at_ tags ifacet;
         Ok ((λ f, (tag, Z.to_nat f)) <$>
             filter (λ f, (0 ≤ f < Z.of_nat start)%Z ∨ (Z.of_nat stop ≤ f)%Z) row))
       (zip (seq start (stop - start)) rows);
  Ok (mjoin (ls : list (list (nat * nat)))).

(** [connected_components_chunk(chunk)] *)
Definition connected_components_chunk (sh : shared) (chunk : nat * nat)
  : result shared :=
  let '(start, stop) := chunk in
  rows ← mapR (unpack_row (sh_adjacency sh)) (seq start (stop - start));
  '(current_tag, tags) ←
    connected_components (chunk_adjacents start stop rows) (sh_current_tag sh);
  tags ← mapR (λ t, match t with Some t => Ok t | None => Raise TypeError end) tags;
  shared_tags ← assign_slice start stop tags (sh_tags sh);
  pairs ← chunk_adjacents2 start stop shared_tags rows;
  let adjacents2 :=
    set_iter_pairs (remove_dups pairs) ≫= (λ '(tag, f), [tag; f]) in
  let offset := sh_current_adj sh in
  adjacency2 ← assign_slice offset (offset + length adjacents2) adjacents2
                  (sh_adjacency2 sh);
  Ok (Shared (sh_count_points sh) (sh_facets sh) (sh_normals sh) (sh_split_angle sh)
        (sh_adjacency sh) adjacency2 shared_tags current_tag
        (offset + length adjacents2)).

(** The adjacency lists of the second pass: [subadjacency[tag]] holds the
    tags of the facets that a facet tagged [tag] has as neighbours in other
    chunks. An all-zero pair of [adjacency2] is taken as an unused slot. *)
Definition subadjacency_of (maxtag : nat) (tags_pass1 adjacency2 : list nat)
  : result (list (list nat)) :=
  foldlM (λ subadjacency '(tag, ifacet),
    other_tag ← at_ tags_pass1 ifacet;
    if decide (tag ≠ other_tag) then
      row ← at_ subadjacency tag;
      Ok (<[tag := row ++ [other_tag]]> subadjacency)
    else Ok subadjacency)
    (replicate maxtag [])
    (filter (λ p, p ≠ (0, 0)) (unpack_pairs adjacency2)).

(** The connected-components part of [main]. [schedule] is the order in
    which the pool runs [connected_components_chunk] on the chunks
    ([imap_unordered]): a worker takes the lock of the tag counter for each
    component, so the tags of a chunk depend on the order; here each chunk
    runs as a whole. *)
Definition main_connected_components (sh : shared) (schedule : list (nat * nat))
  : result shared :=
  sh ← foldlM connected_components_chunk sh schedule;
  let tags_pass1 := sh_tags sh in
  let maxtag := sh_current_tag sh in
  subadjacency ← subadjacency_of maxtag tags_pass1 (sh_adjacency2 sh);
  '(current_tag, tags_pass2) ← connected_components subadjacency maxtag;
  tags ← mapR (λ tag,
            t ← at_ tags_pass2 tag;
            match t with Some t => Ok t | None => Raise TypeError end)
          tags_pass1;
  Ok (Shared (sh_count_points sh) (sh_facets sh) (sh_normals sh) (sh_split_angle sh)
        (sh_adjacency sh) (sh_adjacency2 sh) tags current_tag (sh_current_adj sh)).

(** The chunks of [main] for the connected components:
    [make_chunks(len_facets // nproc, len_facets // 3)]. *)
Definition main_chunks (sh : shared) (nproc : nat) : result (list (nat * nat)) :=
  let len_facets := 3 * length (sh_facets sh) in
  if decide (nproc = 0) then Raise ValueError
  else make_chunks (len_facets / nproc) (len_facets / 3).

(** The single-process algorithm on the whole adjacency table. *)
Definition single_process_components (sh : shared) : result (list (option nat)) :=
  let count_facets := length (sh_facets sh) in
  rows ← mapR (unpack_row (sh_adjacency sh)) (seq 0 count_facets);
  '(_, tags) ← connected_components (chunk_adjacents 0 count_facets rows) 0;
  Ok tags.

(** The adjacency part of [main] without numpy:
    [run_unordered(pool, compute_adjacents, chunks)], after [init] has built
    [FACETS_PER_POINT]. *)
Definition main_adjacency (sh : shared) (schedule : list (nat * nat))
  : result shared :=
  fpp ← facets_per_point (sh_count_points sh) (sh_facets sh);
  foldlM (compute_adjacents fpp) sh schedule.
End Autosmooth.

(** ** Python dictionaries

    A [dict] keeps its keys in insertion order: it is the list of its items,
    with distinct keys. *)

(** [d[k] = v] *)
Fixpoint dict_set {K V} `{EqDecision K} (k : K) (v : V) (d : list (K * V))
  : list (K * V) :=
  match d with
  | [] => [(k, v)]
  | (k', v') :: d =>
    if decide (k' = k) then (k, v) :: d else (k', v') :: dict_set k v d
  end.

(** [d[k]] *)
Fixpoint dict_get {K V} `{EqDecision K} (k : K) (d : list (K * V)) : result V :=
  match d with
  | [] => Raise KeyError
  | (k', v) :: d => if decide (k' = k) then Ok v else dict_get k d
  end.

(** ** Paths and files *)

Fixpoint takewhile {A} (p : A → bool) (l : list A) : list A :=
  match l with
  | x :: l => if p x then x :: takewhile p l else []
  | [] => []
  end.

Fixpoint dropwhile {A} (p : A → bool) (l : list A) : list A :=
  match l with
  | x :: l' => if p x then dropwhile p l' else l
  | [] => []
  end.

Definition slash : Ascii.ascii := "/"%char.

(** [posixpath.dirname] *)
Definition dirname (p : string) : string :=
  let head_rev := dropwhile (λ c, bool_decide (c ≠ slash)) (reverse (list_ascii_of_string p)) in
  if forallb (λ c, bool_decide (c = slash)) head_rev
  then string_of_list_ascii (reverse head_rev)
  else string_of_list_ascii
         (reverse (dropwhile (λ c, bool_decide (c = slash)) head_rev)).

(** [posixpath.basename] *)
Definition basename (p : string) : string :=
  string_of_list_ascii
    (reverse (takewhile (λ c, bool_decide (c ≠ slash)) (reverse (list_ascii_of_string p)))).

Example dirname_ex :
  dirname "/tmp/a/b.obj" = "/tmp/a"%string ∧ dirname "b.obj" = ""%string ∧
  dirname "/b.obj" = "/"%string ∧ dirname "/a//b" = "/a"%string ∧
  basename "/tmp/a/b.obj" = "b.obj"%string.
Proof. repeat split. Qed.

(** ** The class [RenderMesh], [rendermesh.py] *)

Module RenderMesh.

Section Mesh.
Context {F : Type}.
(** Iteration order of a set of integers. *)
Variable set_iter : list nat → list nat.
(** [vector3d.dot], [<] on floats, [math.cos]. *)
Variable dot : F * F * F → F * F * F → F.
Variable flt : F → F → bool.
Variable cos : F → F.
(** The number 0, the product of two floats, and [vector3d.fmul],
    [vector3d.add], [vector3d.angles], [vector3d.safe_normalize]. *)
Variable zero : F.
Variable mul : F → F → F.
Variable fmul : F * F * F → F → F * F * F.
Variable add : F * F * F → F * F * F → F * F * F.
Variable angles : list (F * F * F) → list F.
Variable safe_normalize : F * F * F → F * F * F.

(** The attributes [__points], [__facets], [__normals], [__areas],
    [__uvmap] and [__vnormals]. *)
Record mesh : Type := Mesh {
  mesh_points : list (F * F * F);
  mesh_facets : list facet;
  mesh_normals : list (F * F * F);
  mesh_areas : list F;
  mesh_uvmap : list (F * F);
  mesh_vnormals : list (F * F * F);
}.

(** *** [adjacent_facets] *)

(** [for other_idx in facets_per_point[point_idx]
       if len(facet & facets[other_idx]) == 2], reduced by [reduce_adj]. *)
Definition adjacent_others (facets : list (list nat)) (facet_idx : nat)
    (facet : list nat) (adjacents : list (list nat)) (others : list nat)
  : result (list (list nat)) :=
  foldlM (λ adjacents other_idx,
    other ← at_ facets other_idx;
    if decide (length (set_inter facet other) = 2)
    then reduce_adj adjacents (facet_idx, other_idx)
    else Ok adjacents) adjacents others.

(** [for point_idx in facet] (a set) *)
Definition adjacent_points (facets_per_point facets : list (list nat))
    (adjacents : list (list nat)) (new : nat * list nat)
  : result (list (list nat)) :=
  let '(facet_idx, facet) := new in
  foldlM (λ adjacents point_idx,
    others ← at_ facets_per_point point_idx;
    adjacent_others facets facet_idx facet adjacents others)
    adjacents (set_iter facet).

(** [adjacent_facets]: the argument [split_angle_cos] and the local
    [normals] are not used by the code. The sets are returned as the lists
    of their elements, in insertion order. *)
Definition adjacent_facets (m : mesh) : result (list (list nat)) :=
  facets_per_point ← facets_per_point (length (mesh_points m)) (mesh_facets m);
  let facets := (λ f, remove_dups (facet_points f)) <$> mesh_facets m in
  foldlM (adjacent_points facets_per_point facets)
    (replicate (length (mesh_facets m)) []) (imap pair facets).

(** *** [connected_facets] and [connected_components] *)

(** [s.pop()] on a set: the first element in iteration order. *)
Definition set_pop (s : list nat) : option (nat * list nat) :=
  match set_iter s with
  | [] => None
  | x :: _ => Some (x, filter (λ y, y ≠ x) s)
  end.

(** [current_normal = normals[current_index]] *)
Definition enter_normal (m : mesh) (current_index : nat) : result (F * F * F) :=
  at_ (mesh_normals m) current_index.

(** The test of the angle: [continue] when the successor has no normal
    ([IndexError]) or when the dot product is below the threshold. *)
Definition test_angle (m : mesh) (split_angle_cos : F)
    (current_normal : F * F * F) (successor_index : nat) : option (F * F * F) :=
  match mesh_normals m !! successor_index with
  | None => None
  | Some successor_normal =>
    if flt (dot current_normal successor_normal) split_angle_cos then None
    else Some successor_normal
  end.

Definition connected_facets (m : mesh) (starting_facet_index : nat)
    (adjacents : list (list nat)) (tags : list (option nat)) (new_tag : nat)
    (split_angle_cos : F) : result (list (list nat) * list (option nat)) :=
  traverse set_pop (enter_normal m) (test_angle m split_angle_cos) new_tag
    starting_facet_index adjacents tags.

(** [connected_components]: the tags, and the last tag given ([None] when
    the mesh has no facet). The tags come from [it.count()]. *)
Definition connected_components (m : mesh) (split_angle : F)
  : result (list (option nat) * option nat) :=
  let split_angle_cos := cos split_angle in
  adjacents ← adjacent_facets m;
  '(next, _, tags) ←
    components_loop set_pop (enter_normal m) (test_angle m split_angle_cos)
      (length (mesh_facets m)) adjacents 0;
  Ok (tags, match next with 0 => None | S tag => Some tag end).

(** *** [separate_connected_components] *)

(** The keys of [newpoints]: [(point_index, tag)] for each corner. *)
Definition newpoints_init (facets : list facet) (tags : list (option nat))
  : list (nat * option nat * option nat) :=
  foldl (λ d ft, let '(facet, tag) := ft in
    foldl (λ d point_index, dict_set (point_index, tag) None d)
      d (facet_points facet)) [] (zip facets tags).

(** [for index, point in enumerate(newpoints): newpoints[point] = index] *)
Definition newpoints_number (newpoints : list (nat * option nat * option nat))
  : list (nat * option nat * option nat) :=
  foldl (λ d ip, let '(index, point) := ip in dict_set point (Some index) d)
    newpoints (imap pair newpoints.*1).

(** [newpoints[point_index, tag]] *)
Definition newpoints_get (newpoints : list (nat * option nat * option nat))
    (point_index : nat) (tag : option nat) : result nat :=
  v ← dict_get (point_index, tag) newpoints;
  match v with
  | Some index => Ok index
  | None => Raise TypeError
  end.

(** [tuple(newpoints[point_index, tag] for point_index in facet)] *)
Definition renumber_facet (newpoints : list (nat * option nat * option nat))
    (ft : facet * option nat) : result facet :=
  let '((a, b, c), tag) := ft in
  a' ← newpoints_get newpoints a tag;
  b' ← newpoints_get newpoints b tag;
  c' ← newpoints_get newpoints c tag;
  Ok (a', b', c').

(** [[l[point_index] for point_index, tag in newpoints]] *)
Definition rebuild {A} (l : list A) (keys : list (nat * option nat))
  : result (list A) :=
  mapR (λ key : nat * option nat, at_ l key.1) keys.

(** The body of [separate_connected_components] after the tags have been
    computed. The UV map is rebuilt [if self.__uvmap], that is if it is not
    empty. *)
Definition split_points (m : mesh) (tags : list (option nat)) : result mesh :=
  let points := mesh_points m in
  let facets := mesh_facets m in
  let newpoints := newpoints_number (newpoints_init facets tags) in
  new_points ← rebuild points newpoints.*1;
  new_uvmap ←
    match mesh_uvmap m with
    | [] => Ok []
    | _ => rebuild (mesh_uvmap m) newpoints.*1
    end;
  new_facets ← mapR (renumber_facet newpoints) (zip facets tags);
  Ok (Mesh new_points new_facets (mesh_normals m) (mesh_areas m) new_uvmap
        (mesh_vnormals m)).

Definition separate_connected_components (m : mesh) (split_angle : F)
  : result mesh :=
  '(tags, _) ← connected_components m split_angle;
  split_points m tags.

(** *** [compute_vnormals] *)

(** [for point_index, angle in zip(facet, angles): ...] *)
Definition add_weighted (normal : F * F * F) (area : F)
    (vnorms : list (F * F * F)) (pa : nat * F) : result (list (F * F * F)) :=
  let '(point_index, angle) := pa in
  let weighted_vnorm := fmul normal (mul angle area) in
  v ← at_ vnorms point_index;
  Ok (<[point_index := add v weighted_vnorm]> vnorms).

(** The body of the loop over the facets. *)
Definition add_facet (m : mesh) (vnorms : list (F * F * F)) (new : nat * facet)
  : result (list (F * F * F)) :=
  let '(index, facet) := new in
  normal ← at_ (mesh_normals m) index;
  area ← at_ (mesh_areas m) index;
  triangle ← mapR (at_ (mesh_points m)) (facet_points facet);
  foldlM (add_weighted normal area) vnorms (zip (facet_points facet) (angles triangle)).

Definition compute_vnormals (m : mesh) : result mesh :=
  vnorms ← foldlM (add_facet m)
              (replicate (length (mesh_points m)) (zero, zero, zero))
              (imap pair (mesh_facets m));
  Ok (Mesh (mesh_points m) (mesh_facets m) (mesh_normals m) (mesh_areas m)
        (mesh_uvmap m) (safe_normalize <$> vnorms)).

(** The autosmooth step of [__init__]. *)
Definition autosmooth (m : mesh) (split_angle : F) : result mesh :=
  m ← separate_connected_components m split_angle;
  compute_vnormals m.
End Mesh.

(** *** [uvtransform]

    The scalars are a type [F] with the operations of the code: [+], [-],
    [*], [!=], [math.cos], [math.sin], [math.radians] and the constants
    [0.0] and [1.0]. [float(scale)] and [float(rotate)] convert numbers to
    floats and are left out. *)

(** [itertools.compress] *)
Fixpoint compress {A} (data : list A) (selectors : list bool) : list A :=
  match data, selectors with
  | d :: data, s :: selectors =>
    if s then d :: compress data selectors else compress data selectors
  | _, _ => []
  end.

Section UVTransform.
Context {F : Type}.
Variable add sub mul : F → F → F.
Variable cos sin radians : F → F.
Variable ne : F → F → bool.
Variable zero one : F.

Definition uvtransform (uvmap : list (F * F)) (translate : F * F)
    (rotate scale : F) : result (list (F * F)) :=
  let '(trans_x, trans_y) := translate in
  let rotate := radians rotate in
  let _000 (_ : unit) := uvmap in
  let _00t (_ : unit) :=
    (λ vec : F * F, (add vec.1 trans_x, add vec.2 trans_y)) <$> uvmap in
  let _0s0 (_ : unit) :=
    (λ vec : F * F, (mul vec.1 scale, mul vec.2 scale)) <$> uvmap in
  let _0st (_ : unit) :=
    (λ vec : F * F,
       (add (mul vec.1 scale) trans_x, add (mul vec.2 scale) trans_y)) <$> uvmap in
  let _r00 (_ : unit) :=
    let cosr := cos rotate in
    let sinr := sin rotate in
    (λ vec : F * F,
       (sub (mul vec.1 cosr) (mul vec.2 sinr),
        add (mul vec.1 sinr) (mul vec.2 cosr))) <$> uvmap in
  let _r0t (_ : unit) :=
    let cosr := cos rotate in
    let sinr := sin rotate in
    (λ vec : F * F,
       (add (sub (mul vec.1 cosr) (mul vec.2 sinr)) trans_x,
        add (add (mul vec.1 sinr) (mul vec.2 cosr)) trans_y)) <$> uvmap in
  let _rs0 (_ : unit) :=
    let cosrs := mul (cos rotate) scale in
    let sinrs := mul (sin rotate) scale in
    (λ vec : F * F,
       (sub (mul vec.1 cosrs) (mul vec.2 sinrs),
        add (mul vec.1 sinrs) (mul vec.2 cosrs))) <$> uvmap in
  let _rst (_ : unit) :=
    let cosrs := mul (cos rotate) scale in
    let sinrs := mul (sin rotate) scale in
    (λ vec : F * F,
       (add (sub (mul vec.1 cosrs) (mul vec.2 sinrs)) trans_x,
        add (add (mul vec.1 sinrs) (mul vec.2 cosrs)) trans_y)) <$> uvmap in
  let index :=
    [ne rotate zero; ne scale one; ne trans_x zero || ne trans_y zero] in
  let index := sum_list (compress [4; 2; 1]%nat index) in
  let functions := [_000; _00t; _0s0; _0st; _r00; _r0t; _rs0; _rst] in
  f ← at_ functions index;
  Ok (f tt).

(** The reference: rotate, then scale, then translate, written as
    [(u*cos r*s - v*sin r*s + tx, u*sin r*s + v*cos r*s + ty)] with the
    operations from left to right. *)
Definition uv_reference (translate : F * F) (r s : F) (vec : F * F) : F * F :=
  (add (sub (mul (mul vec.1 (cos r)) s) (mul (mul vec.2 (sin r)) s)) translate.1,
   add (add (mul (mul vec.1 (sin r)) s) (mul (mul vec.2 (cos r)) s)) translate.2).
End UVTransform.

(** The operations on the real numbers: [math.radians] and [x != y]. *)
Definition radians (x : R) : R := (x * (PI / 180))%R.

Definition Rne (x y : R) : bool := if Req_dec_T x y then false else true.

(** The operations on the binary64 floats: [math.radians], which is
    [x * (pi / 180)], and [x != y]. *)
Definition float_radians (x : float) : float :=
  PrimFloat.mul x (PrimFloat.div 0x1.921fb54442d18p+1%float 180%float).

Definition float_ne (x y : float) : bool := negb (PrimFloat.eqb x y).

(** *** [write_mtl] and [_write_objfile_sp]

    The files are a map from paths to contents; an exception leaves the
    files as they are when it is raised. *)

Section Files.
(** [tempfile.mkstemp(suffix, prefix)]: the path of the file it creates. *)
Variable mkstemp : string → string → gmap string string → string.
(** The text of the OBJ file, given its [mtllib] line if any. *)
Variable obj_text : option string → string.

(** [f"{name}"] *)
Definition str_of_name (name : option string) : string :=
  match name with
  | Some s => s
  | None => "None"
  end.

Definition write_mtl (name : option string) (mtlcontent : string)
    (mtlfile : option string) (files : gmap string string)
  : gmap string string * string :=
  let '(files, mtlfile) :=
    match mtlfile with
    | None =>
      let mtlfile := mkstemp ".mtl" "_" files in
      (<[mtlfile := ""%string]> files, mtlfile)
    | Some mtlfile => (files, mtlfile)
    end in
  (<[mtlfile := ("newmtl " +:+ str_of_name name +:+ "
" +:+ mtlcontent)%string]> files, mtlfile).

Definition _write_objfile_sp (objfile : string) (mtlfile mtlname mtlcontent : option string)
    (files : gmap string string) : gmap string string * result string :=
  match mtlcontent with
  | Some mtlcontent =>
    let '(files, mtlfilename) := write_mtl mtlname mtlcontent mtlfile files in
    if decide (dirname mtlfilename ≠ dirname objfile) then
      (files, Raise ValueError)
    else
      let mtl := ("mtllib " +:+ basename mtlfilename)%string in
      (<[objfile := obj_text (Some mtl)]> files, Ok objfile)
  | None => (<[objfile := obj_text None]> files, Ok objfile)
  end.

(** [write_objfile], single-process mode. *)
Definition write_objfile (objfile mtlfile mtlname mtlcontent : option string)
    (files : gmap string string) : gmap string string * result string :=
  let '(files, objfile) :=
    match objfile with
    | None =>
      let objfile := mkstemp ".obj" "_" files in
      (<[objfile := ""%string]> files, objfile)
    | Some objfile => (files, objfile)
    end in
  _write_objfile_sp objfile mtlfile mtlname mtlcontent files.
End Files.

End RenderMesh.

(** * Facts about the traversal *)

Lemma at_Ok {A} (l : list A) i x : at_ l i = Ok x ↔ l !! i = Some x.
Proof. unfold at_. destruct (l !! i); split; congruence. Qed.

Lemma at_lt {A} (l : list A) i : i < length l → ∃ x, at_ l i = Ok x ∧ l !! i = Some x.
Proof.
  intros Hi. destruct (lookup_lt_is_Some_2 l i Hi) as [x Hx].
  exists x. split; [by apply at_Ok | done].
Qed.

Lemma entries_insert adjacents i row row' :
  adjacents !! i = Some row →
  entries (<[i := row']> adjacents) + length row = entries adjacents + length row'.
Proof.
  unfold entries. revert i. induction adjacents as [|r rs IH]; intros [|i] Hl; simplify_eq/=.
  - lia.
  - specialize (IH _ Hl). lia.
Qed.

Lemma entries_nil adjacents :
  (∀ i row, adjacents !! i = Some row → row = []) → entries adjacents = 0.
Proof.
  unfold entries. induction adjacents as [|r rs IH]; intros H; simpl; [done|].
  rewrite (H 0 r eq_refl). simpl. apply IH. intros i row Hi. by apply (H (S i)).
Qed.

(** Tags are only added, never changed. *)
Definition tags_extend (tags tags' : list (option nat)) : Prop :=
  length tags' = length tags ∧
  ∀ a t, tags !! a = Some (Some t) → tags' !! a = Some (Some t).

Lemma tags_extend_refl tags : tags_extend tags tags.
Proof. by split. Qed.

Lemma tags_extend_trans t1 t2 t3 :
  tags_extend t1 t2 → tags_extend t2 t3 → tags_extend t1 t3.
Proof. intros [? H1] [? H2]. split; [congruence | eauto]. Qed.

Lemma tags_extend_insert tags a t :
  tags !! a = Some None → tags_extend tags (<[a := Some t]> tags).
Proof.
  intros Ha. split; [by rewrite length_insert|].
  intros b t' Hb. destruct (decide (a = b)) as [->|]; [congruence|].
  by rewrite list_lookup_insert_ne.
Qed.

Section TraversalFacts.
Context {N : Type}.
Variable pop : list nat → option (nat * list nat).
Variable enter : nat → result N.
Variable test : N → nat → option N.

Hypothesis pop_None : ∀ l, pop l = None → l = [].
Hypothesis pop_Some : ∀ l x l', pop l = Some (x, l') →
  (∀ y, y ∈ l ↔ y = x ∨ y ∈ l') ∧ length l' < length l.
Hypothesis test_enter : ∀ cn s sn, test cn s = Some sn → enter s = Ok sn.

(** The graph that is traversed: the entries of the adjacency lists, as they
    are before any traversal, that pass the test. *)
Variable adj0 : list (list nat).

Definition passes (a b : nat) : Prop :=
  ∃ cn sn, enter a = Ok cn ∧ test cn b = Some sn.

Definition edge (a b : nat) : Prop :=
  ∃ row, adj0 !! a = Some row ∧ b ∈ row ∧ passes a b.

Hypothesis edge_sym : ∀ a b, edge a b → edge b a.
Hypothesis enter_ok : ∀ a, a < length adj0 → ∃ cn, enter a = Ok cn.

(** Tags already given are at least [lo]. *)
Variable lo : nat.

(** The invariant of the two loops, while the component tagged [t] is
    being traversed. *)
Record dfs_inv (t : nat) (st : dfs_state) : Prop := DfsInv {
  inv_len_adj : length (st_adjacents st) = length adj0;
  inv_len_tags : length (st_tags st) = length adj0;
  inv_sub : ∀ a row b, st_adjacents st !! a = Some row → b ∈ row →
    ∃ row0, adj0 !! a = Some row0 ∧ b ∈ row0;
  inv_untouched : ∀ a, st_tags st !! a = Some None →
    st_adjacents st !! a = adj0 !! a;
  inv_closed : ∀ a t', st_tags st !! a = Some (Some t') → t' ≠ t →
    st_adjacents st !! a = Some [];
  inv_open : ∀ a, st_tags st !! a = Some (Some t) →
    a ∈ st_stack st ∨ st_adjacents st !! a = Some [];
  inv_stack : ∀ a, a ∈ st_stack st → st_tags st !! a = Some (Some t);
  inv_done : ∀ a b, edge a b →
    (∃ row, st_adjacents st !! a = Some row ∧ b ∈ row) ∨
    (∃ t', st_tags st !! a = Some (Some t') ∧ st_tags st !! b = Some (Some t'));
  inv_sound : ∀ a b t', st_tags st !! a = Some (Some t') →
    st_tags st !! b = Some (Some t') → rtsc edge a b;
  inv_range : ∀ a t', st_tags st !! a = Some (Some t') → lo ≤ t' ≤ t;
}.

Lemma edge_lt_l a b : edge a b → a < length adj0.
Proof. intros (row & Hrow & _). by eapply lookup_lt_Some. Qed.

Lemma edge_lt_r a b : edge a b → b < length adj0.
Proof. intros H. eapply edge_lt_l, edge_sym, H. Qed.

(** An entry is consumed and nothing is tagged: either the entry did not
    pass the test, or both ends already have the same tag. *)
Lemma dfs_inv_skip t st cur rest row succ row' :
  dfs_inv t st →
  st_stack st = cur :: rest →
  st_adjacents st !! cur = Some row →
  pop row = Some (succ, row') →
  (edge cur succ → ∃ t', st_tags st !! cur = Some (Some t') ∧
                         st_tags st !! succ = Some (Some t')) →
  dfs_inv t (DfsState (st_stack st) (<[cur := row']> (st_adjacents st)) (st_tags st)).
Proof.
  intros [] Hstack Hrow Hpop Hsame.
  destruct (pop_Some _ _ _ Hpop) as [Hmem _].
  assert (Hcur : cur < length (st_adjacents st)) by by eapply lookup_lt_Some.
  split; simpl; auto.
  - by rewrite length_insert.
  - intros a r b Ha Hb. destruct (decide (cur = a)) as [->|Hne].
    + rewrite list_lookup_insert_eq in Ha by done. simplify_eq.
      eapply inv_sub0; [done|]. apply Hmem. by right.
    + rewrite list_lookup_insert_ne in Ha by done. eauto.
  - intros a Ha. destruct (decide (cur = a)) as [->|Hne].
    + assert (st_tags st !! a = Some (Some t)) by (apply inv_stack0; rewrite Hstack; left).
      congruence.
    + rewrite list_lookup_insert_ne by done. auto.
  - intros a t' Ha Hne. destruct (decide (cur = a)) as [->|Hne'].
    + assert (st_tags st !! a = Some (Some t)) by (apply inv_stack0; rewrite Hstack; left).
      congruence.
    + rewrite list_lookup_insert_ne by done. eauto.
  - intros a Ha. destruct (decide (cur = a)) as [->|Hne'].
    + left. rewrite Hstack. left.
    + rewrite list_lookup_insert_ne by done. auto.
  - intros a b Hab. destruct (decide (cur = a)) as [->|Hne'].
    + rewrite list_lookup_insert_eq by done.
      destruct (inv_done0 _ _ Hab) as [(r & Hr & Hb)|?]; [|by right].
      simplify_eq. apply Hmem in Hb as [->|Hb].
      * right. by apply Hsame.
      * left. eauto.
    + rewrite list_lookup_insert_ne by done. auto.
Qed.

(** An entry is consumed and its untagged target is tagged and pushed. *)
Lemma dfs_inv_push t st cur rest row succ row' :
  dfs_inv t st →
  st_stack st = cur :: rest →
  st_adjacents st !! cur = Some row →
  pop row = Some (succ, row') →
  passes cur succ →
  st_tags st !! succ = Some None →
  dfs_inv t (DfsState (succ :: st_stack st) (<[cur := row']> (st_adjacents st))
               (<[succ := Some t]> (st_tags st))).
Proof.
  intros [] Hstack Hrow Hpop Hpass Hsucc.
  destruct (pop_Some _ _ _ Hpop) as [Hmem _].
  assert (Hcur : cur < length (st_adjacents st)) by by eapply lookup_lt_Some.
  assert (Hsl : succ < length (st_tags st)) by by eapply lookup_lt_Some.
  assert (Hct : st_tags st !! cur = Some (Some t))
    by (apply inv_stack0; rewrite Hstack; left).
  assert (Hne : cur ≠ succ) by congruence.
  assert (Hedge : edge cur succ).
  { destruct (inv_sub0 cur row succ Hrow) as (row0 & ? & ?); [apply Hmem; by left|].
    by exists row0. }
  split; simpl.
  - by rewrite length_insert.
  - by rewrite length_insert.
  - intros a r b Ha Hb. destruct (decide (cur = a)) as [->|Hne'].
    + rewrite list_lookup_insert_eq in Ha by done. simplify_eq.
      eapply inv_sub0; [done|]. apply Hmem. by right.
    + rewrite list_lookup_insert_ne in Ha by done. eauto.
  - intros a Ha. destruct (decide (succ = a)) as [->|Hne'].
    { rewrite list_lookup_insert_eq in Ha by done. congruence. }
    rewrite list_lookup_insert_ne in Ha by done.
    destruct (decide (cur = a)) as [->|Hne'']; [congruence|].
    rewrite list_lookup_insert_ne by done. auto.
  - intros a t' Ha Hnet. destruct (decide (succ = a)) as [->|Hne'].
    { rewrite list_lookup_insert_eq in Ha by done. congruence. }
    rewrite list_lookup_insert_ne in Ha by done.
    destruct (decide (cur = a)) as [->|Hne'']; [congruence|].
    rewrite list_lookup_insert_ne by done. eauto.
  - intros a Ha. destruct (decide (succ = a)) as [->|Hne']; [left; left|].
    rewrite list_lookup_insert_ne in Ha by done.
    destruct (decide (cur = a)) as [->|Hne''].
    + left. right. rewrite Hstack. left.
    + rewrite list_lookup_insert_ne by done.
      destruct (inv_open0 _ Ha); [left; by right | by right].
  - intros a Ha. apply elem_of_cons in Ha as [->|Ha].
    + by rewrite list_lookup_insert_eq.
    + destruct (decide (succ = a)) as [->|Hne'].
      * by rewrite list_lookup_insert_eq.
      * rewrite list_lookup_insert_ne by done. auto.
  - intros a b Hab.
    assert (Hkeep : ∀ x t', st_tags st !! x = Some (Some t') →
                            <[succ := Some t]> (st_tags st) !! x = Some (Some t')).
    { intros x t' Hx. destruct (decide (succ = x)) as [->|]; [congruence|].
      by rewrite list_lookup_insert_ne. }
    destruct (decide (cur = a)) as [->|Hne'].
    + rewrite list_lookup_insert_eq by done.
      destruct (inv_done0 _ _ Hab) as [(r & Hr & Hb)|(t' & ? & ?)].
      * simplify_eq. apply Hmem in Hb as [->|Hb].
        -- right. exists t. split; [by apply Hkeep | by rewrite list_lookup_insert_eq].
        -- left. eauto.
      * right. exists t'. split; by apply Hkeep.
    + rewrite list_lookup_insert_ne by done.
      destruct (inv_done0 _ _ Hab) as [?|(t' & ? & ?)]; [by left|].
      right. exists t'. split; by apply Hkeep.
  - intros a b t' Ha Hb.
    assert (Hto : ∀ x, st_tags st !! x = Some (Some t) → rtsc edge x succ).
    { intros x Hx. transitivity cur; [by eapply inv_sound0 | by apply rtsc_lr]. }
    destruct (decide (succ = a)) as [Hna|Hna]; destruct (decide (succ = b)) as [Hnb|Hnb].
    + by subst.
    + subst a. rewrite list_lookup_insert_eq in Ha by done.
      rewrite list_lookup_insert_ne in Hb by done. simplify_eq.
      symmetry. by apply Hto.
    + subst b. rewrite list_lookup_insert_eq in Hb by done.
      rewrite list_lookup_insert_ne in Ha by done. simplify_eq.
      by apply Hto.
    + rewrite list_lookup_insert_ne in Ha by done.
      rewrite list_lookup_insert_ne in Hb by done. eauto.
  - intros a t' Ha. destruct (decide (succ = a)) as [->|Hna].
    + rewrite list_lookup_insert_eq in Ha by done. simplify_eq.
      specialize (inv_range0 _ _ Hct). lia.
    + rewrite list_lookup_insert_ne in Ha by done. eauto.
Qed.

Lemma dfs_inv_cur_lt t st cur rest :
  dfs_inv t st → st_stack st = cur :: rest →
  cur < length (st_adjacents st) ∧ st_tags st !! cur = Some (Some t).
Proof.
  intros [] Hstack.
  assert (Hct : st_tags st !! cur = Some (Some t))
    by (apply inv_stack0; rewrite Hstack; left).
  split; [|done]. apply lookup_lt_Some in Hct. congruence.
Qed.

(** The inner loop ends, keeps the invariant, and leaves the top of the
    stack with an empty adjacency list. *)
Lemma forward_spec t fuel : ∀ cur cn st rest,
  dfs_inv t st → st_stack st = cur :: rest → enter cur = Ok cn →
  entries (st_adjacents st) < fuel →
  ∃ st', forward pop test t fuel cur cn st = Ok st' ∧ dfs_inv t st' ∧
    (∃ cur' rest', st_stack st' = cur' :: rest' ∧
                   st_adjacents st' !! cur' = Some []) ∧
    entries (st_adjacents st') + length (st_stack st')
      ≤ entries (st_adjacents st) + length (st_stack st) ∧
    tags_extend (st_tags st) (st_tags st').
Proof.
  induction fuel as [|fuel IH]; intros cur cn st rest Hinv Hstack Hcn Hfuel; [lia|].
  destruct (dfs_inv_cur_lt _ _ _ _ Hinv Hstack) as [Hlt Hct].
  destruct (at_lt _ _ Hlt) as (row & Hat & Hrow).
  simpl. rewrite Hat. simpl.
  destruct (pop row) as [[succ row']|] eqn:Hpop.
  2:{ apply pop_None in Hpop as ->. exists st. split_and!; [done|done| |lia|apply tags_extend_refl].
      by exists cur, rest. }
  destruct (pop_Some _ _ _ Hpop) as [Hmem Hlen].
  pose proof (entries_insert _ _ _ row' Hrow) as Hent.
  destruct (test cn succ) as [sn|] eqn:Htest.
  - assert (Hpass : passes cur succ) by by exists cn, sn.
    assert (Hedge : edge cur succ).
    { destruct (inv_sub _ _ Hinv cur row succ Hrow) as (row0 & ? & ?); [apply Hmem; by left|].
      by exists row0. }
    assert (Hsl : succ < length (st_tags st)).
    { rewrite (inv_len_tags _ _ Hinv). by eapply edge_lt_r. }
    destruct (at_lt _ _ Hsl) as (ty & Hat' & Hty). rewrite Hat'. simpl.
    destruct ty as [t''|].
    + edestruct (IH cur cn (DfsState (st_stack st) (<[cur := row']> (st_adjacents st)) (st_tags st)))
        as (st' & Hrun & Hinv' & Htop & Hmeas & Hext); simpl; [| done | done | lia |].
      { eapply dfs_inv_skip; eauto. intros _.
        destruct (decide (t'' = t)) as [->|Hne]; [by exists t|].
        pose proof (inv_closed _ _ Hinv _ _ Hty Hne) as Hnil.
        destruct (inv_done _ _ Hinv _ _ (edge_sym _ _ Hedge)) as [(r & Hr & Hin)|(t' & ? & ?)].
        - simplify_eq. by apply elem_of_nil in Hin.
        - exists t'. split; congruence. }
      exists st'. split_and!; [done|done|done|simpl in *; lia|done].
    + edestruct (IH succ sn (DfsState (succ :: st_stack st) (<[cur := row']> (st_adjacents st))
                                (<[succ := Some t]> (st_tags st))))
        as (st' & Hrun & Hinv' & Htop & Hmeas & Hext); simpl; [| done | by eapply test_enter | lia |].
      { eapply dfs_inv_push; eauto. }
      exists st'. split_and!; [done|done|done|simpl in *; lia|].
      eapply tags_extend_trans; [|done]. by apply tags_extend_insert.
  - edestruct (IH cur cn (DfsState (st_stack st) (<[cur := row']> (st_adjacents st)) (st_tags st)))
      as (st' & Hrun & Hinv' & Htop & Hmeas & Hext); simpl; [| done | done | lia |].
    { eapply dfs_inv_skip; eauto. intros (_ & _ & _ & cn' & sn & Hcn' & Hsn).
      congruence. }
    exists st'. split_and!; [done|done|done|simpl in *; lia|done].
Qed.

(** The state between two traversals: every tagged facet has an empty
    adjacency list. *)
Record rest_inv (next : nat) (adjacents : list (list nat))
    (tags : list (option nat)) : Prop := RestInv {
  rest_len_adj : length adjacents = length adj0;
  rest_len_tags : length tags = length adj0;
  rest_sub : ∀ a row b, adjacents !! a = Some row → b ∈ row →
    ∃ row0, adj0 !! a = Some row0 ∧ b ∈ row0;
  rest_untouched : ∀ a, tags !! a = Some None → adjacents !! a = adj0 !! a;
  rest_closed : ∀ a t', tags !! a = Some (Some t') → adjacents !! a = Some [];
  rest_done : ∀ a b, edge a b →
    (∃ row, adjacents !! a = Some row ∧ b ∈ row) ∨
    (∃ t', tags !! a = Some (Some t') ∧ tags !! b = Some (Some t'));
  rest_sound : ∀ a b t', tags !! a = Some (Some t') →
    tags !! b = Some (Some t') → rtsc edge a b;
  rest_range : ∀ a t', tags !! a = Some (Some t') → lo ≤ t' < next;
}.

#[local] Arguments forward : simpl never.

(** The outer loop ends with an empty stack. *)
Lemma backward_spec t fuel : ∀ st,
  dfs_inv t st →
  length (st_stack st) + entries (st_adjacents st) < fuel →
  ∃ st', backward pop enter test t fuel st = Ok st' ∧ dfs_inv t st' ∧
    st_stack st' = [] ∧ tags_extend (st_tags st) (st_tags st').
Proof.
  induction fuel as [|fuel IH]; intros st Hinv Hfuel; [lia|].
  simpl. destruct (st_stack st) as [|cur rest] eqn:Hstack.
  { exists st. split_and!; [done|done|done|apply tags_extend_refl]. }
  destruct (dfs_inv_cur_lt _ _ _ _ Hinv Hstack) as [Hlt Hct].
  destruct (enter_ok cur) as [cn Hcn]; [by rewrite <-(inv_len_adj _ _ Hinv)|].
  rewrite Hcn. simpl.
  destruct (forward_spec t (S (entries (st_adjacents st))) cur cn st rest)
    as (st1 & Hrun & Hinv1 & (cur' & rest' & Hstack1 & Hnil) & Hmeas & Hext); [done|done|done|lia|].
  rewrite Hrun. simpl.
  edestruct (IH (DfsState (tail (st_stack st1)) (st_adjacents st1) (st_tags st1)))
    as (st' & Hrun' & Hinv' & Hstack' & Hext'); simpl; [| |].
  - destruct Hinv1. rewrite Hstack1 in *. simpl. split; simpl; auto.
    + intros a Ha. destruct (inv_open0 _ Ha) as [Hin|?]; [|by right].
      apply elem_of_cons in Hin as [->|Hin]; [by right | by left].
    + intros a Ha. apply inv_stack0. by right.
  - rewrite Hstack1, Hstack in *. simpl in *. lia.
  - exists st'. split_and!; [done|done|done|]. eapply tags_extend_trans; done.
Qed.

(** One traversal from an untagged facet: it returns, and the state is
    again a state between two traversals. *)
Lemma traverse_spec next start adjacents tags :
  rest_inv next adjacents tags → lo ≤ next → tags !! start = Some None →
  ∃ adjacents' tags',
    traverse pop enter test next start adjacents tags = Ok (adjacents', tags') ∧
    rest_inv (S next) adjacents' tags' ∧ tags_extend tags tags' ∧
    tags' !! start = Some (Some next).
Proof.
  intros Hrest Hlo Hstart. unfold traverse.
  assert (Hsl : start < length tags) by by eapply lookup_lt_Some.
  rewrite decide_True by done.
  assert (Hkeep : ∀ x t', tags !! x = Some (Some t') →
                          <[start := Some next]> tags !! x = Some (Some t')).
  { intros x t' Hx. destruct (decide (start = x)) as [->|]; [congruence|].
    by rewrite list_lookup_insert_ne. }
  assert (Hback : ∀ x t', <[start := Some next]> tags !! x = Some (Some t') →
                          (x = start ∧ t' = next) ∨ (x ≠ start ∧ tags !! x = Some (Some t'))).
  { intros x t' Hx. destruct (decide (start = x)) as [->|].
    - rewrite list_lookup_insert_eq in Hx by done. left. by simplify_eq.
    - rewrite list_lookup_insert_ne in Hx by done. by right. }
  destruct (backward_spec next (2 + entries adjacents)
    (DfsState [start] adjacents (<[start := Some next]> tags)))
    as (st' & Hrun & Hinv' & Hstack' & Hext'); [|simpl; lia|].
  { destruct Hrest. split; simpl; auto.
    - by rewrite length_insert.
    - intros a Ha. destruct (decide (start = a)) as [->|].
      + rewrite list_lookup_insert_eq in Ha by done. congruence.
      + rewrite list_lookup_insert_ne in Ha by done. auto.
    - intros a t' Ha Hne. destruct (Hback _ _ Ha) as [[-> ->]|[_ Ha']]; [done|eauto].
    - intros a Ha. destruct (Hback _ _ Ha) as [[-> _]|[_ Ha']].
      + left. left.
      + apply rest_range0 in Ha'. lia.
    - intros a Ha. apply list_elem_of_singleton in Ha as ->.
      by rewrite list_lookup_insert_eq.
    - intros a b Hab. destruct (rest_done0 _ _ Hab) as [?|(t' & ? & ?)]; [by left|].
      right. exists t'. split; by apply Hkeep.
    - intros a b t' Ha Hb.
      destruct (Hback _ _ Ha) as [[-> ->]|[_ Ha']];
        destruct (Hback _ _ Hb) as [[-> Hb1]|[_ Hb']].
      + done.
      + apply rest_range0 in Hb'. lia.
      + subst t'. apply rest_range0 in Ha'. lia.
      + eauto.
    - intros a t' Ha. destruct (Hback _ _ Ha) as [[-> ->]|[_ Ha']]; [lia|].
      apply rest_range0 in Ha'. lia. }
  rewrite Hrun. simpl. exists (st_adjacents st'), (st_tags st'). split; [done|].
  destruct Hinv'. rewrite Hstack' in *. split_and!.
  - split; auto.
    + intros a t' Ha. destruct (decide (t' = next)) as [->|Hne]; [|eauto].
      destruct (inv_open0 _ Ha) as [Hin|?]; [|done]. by apply elem_of_nil in Hin.
    + intros a t' Ha. apply inv_range0 in Ha. lia.
  - eapply tags_extend_trans; [|done]. by apply tags_extend_insert.
  - apply Hext'. simpl. by rewrite list_lookup_insert_eq.
Qed.

(** The loop over the facets: every facet that is reached gets a tag. *)
Lemma components_steps_spec xs : ∀ next adjacents tags,
  rest_inv next adjacents tags → lo ≤ next →
  (∀ x, x ∈ xs → x < length adj0) →
  ∃ next' adjacents' tags',
    foldlM (components_step pop enter test) (next, adjacents, tags) xs
      = Ok (next', adjacents', tags') ∧
    rest_inv next' adjacents' tags' ∧ next ≤ next' ∧ tags_extend tags tags' ∧
    ∀ x, x ∈ xs → ∃ t, tags' !! x = Some (Some t).
Proof.
  induction xs as [|x xs IH]; intros next adjacents tags Hrest Hlo Hxs.
  { exists next, adjacents, tags. split_and!; [done|done|done|apply tags_extend_refl|].
    intros x Hx. by apply elem_of_nil in Hx. }
  simpl.
  assert (Hx : x < length tags).
  { rewrite (rest_len_tags _ _ _ Hrest). apply Hxs. left. }
  destruct (at_lt _ _ Hx) as (y & Hat & Hy). rewrite Hat. simpl.
  destruct y as [t|].
  - destruct (IH next adjacents tags) as (next' & adjacents' & tags' & Hrun & ? & ? & Hext & Hall);
      [done|done|intros; apply Hxs; by right|].
    exists next', adjacents', tags'. split_and!; try done.
    intros z Hz. apply elem_of_cons in Hz as [->|Hz]; [|by apply Hall].
    exists t. by apply Hext.
  - destruct (traverse_spec next x adjacents tags) as (adj1 & tags1 & Hrun1 & Hrest1 & Hext1 & Hx1);
      [done|done|done|].
    rewrite Hrun1. simpl.
    destruct (IH (S next) adj1 tags1) as (next' & adjacents' & tags' & Hrun & ? & ? & Hext & Hall);
      [done|lia|intros; apply Hxs; by right|].
    exists next', adjacents', tags'. split_and!; [done|done|lia| |].
    + eapply tags_extend_trans; done.
    + intros z Hz. apply elem_of_cons in Hz as [->|Hz]; [|by apply Hall].
      exists next. by apply Hext.
Qed.

Lemma rest_inv_init : rest_inv lo adj0 (replicate (length adj0) None).
Proof.
  split; auto.
  - by rewrite length_replicate.
  - eauto.
  - intros a t' Ha. apply lookup_replicate in Ha as [? _]. done.
  - intros a b (row & ? & ? & ?). left. eauto.
  - intros a b t' Ha. apply lookup_replicate in Ha as [? _]. done.
  - intros a t' Ha. apply lookup_replicate in Ha as [? _]. done.
Qed.

(** Two tagged facets of a final state have the same tag exactly when a
    path of edges joins them. *)
Lemma rest_inv_complete next adjacents tags :
  rest_inv next adjacents tags →
  (∀ a, a < length adj0 → ∃ t, tags !! a = Some (Some t)) →
  ∀ a b ta, tags !! a = Some (Some ta) → rtsc edge a b → tags !! b = Some (Some ta).
Proof.
  intros Hrest Hall a b ta Ha Hab. revert ta Ha.
  induction Hab as [a|a b c Hstep _ IH]; intros ta Ha; [done|].
  apply IH.
  assert (Hsame : ∀ x y, edge x y → ∃ t, tags !! x = Some (Some t) ∧ tags !! y = Some (Some t)).
  { intros x y Hxy. destruct (rest_done _ _ _ Hrest _ _ Hxy) as [(row & Hrow & Hin)|?]; [|done].
    destruct (Hall x (edge_lt_l _ _ Hxy)) as [t Ht].
    rewrite (rest_closed _ _ _ Hrest _ _ Ht) in Hrow. simplify_eq.
    by apply elem_of_nil in Hin. }
  destruct Hstep as [Hstep|Hstep]; apply Hsame in Hstep as (t & ? & ?); congruence.
Qed.

(** Correctness of the loop of [connected_components]. *)
Lemma components_loop_spec :
  ∃ next adjacents tags,
    components_loop pop enter test (length adj0) adj0 lo = Ok (next, adjacents, tags) ∧
    length tags = length adj0 ∧
    (∀ a, a < length adj0 → ∃ t, tags !! a = Some (Some t) ∧ lo ≤ t < next) ∧
    (∀ a b ta tb, tags !! a = Some (Some ta) → tags !! b = Some (Some tb) →
       (ta = tb ↔ rtsc edge a b)).
Proof.
  destruct (components_steps_spec (seq 0 (length adj0)) lo adj0 (replicate (length adj0) None))
    as (next & adjacents & tags & Hrun & Hrest & Hle & Hext & Hall).
  { apply rest_inv_init. } { done. }
  { intros x Hx. apply elem_of_seq in Hx. lia. }
  exists next, adjacents, tags. split; [done|].
  assert (Hall' : ∀ a, a < length adj0 → ∃ t, tags !! a = Some (Some t)).
  { intros a Ha. apply Hall. apply elem_of_seq. lia. }
  split_and!.
  - apply Hrest.
  - intros a Ha. destruct (Hall' a Ha) as [t Ht]. exists t. split; [done|].
    by eapply rest_range.
  - intros a b ta tb Ha Hb. split.
    + intros ->. by eapply rest_sound.
    + intros Hab. pose proof (rest_inv_complete _ _ _ Hrest Hall' _ _ _ Ha Hab). congruence.
Qed.
End TraversalFacts.

(** * Properties *)

(** ** The UV transformation *)

Lemma uv_map_eq {A} (f g : A → A) (uvmap : list A) :
  (∀ vec, f vec = g vec) → f <$> uvmap = g <$> uvmap.
Proof. intros H. apply list_fmap_ext. intros _ vec _. apply H. Qed.

Lemma uv_map_id {A} (g : A → A) (uvmap : list A) :
  (∀ vec, vec = g vec) → uvmap = g <$> uvmap.
Proof.
  intros H. rewrite <-(list_fmap_id uvmap) at 1. apply uv_map_eq. exact H.
Qed.

Section UVTransformFacts.
Context {F : Type}.
Variable add sub mul : F → F → F.
Variable cos sin radians : F → F.
Variable ne : F → F → bool.
Variable zero one : F.

(** The laws of exact arithmetic that the paths of [uvtransform] rely on:
    [!=] decides equality, the product is associative, [1] and [0] are
    neutral or absorbing as usual, and [cos 0 = 1], [sin 0 = 0]. *)
Hypothesis ne_false : ∀ x y, ne x y = false → x = y.
Hypothesis mul_assoc : ∀ x y z, mul x (mul y z) = mul (mul x y) z.
Hypothesis mul_one_r : ∀ x, mul x one = x.
Hypothesis mul_zero_r : ∀ x, mul x zero = zero.
Hypothesis mul_zero_l : ∀ x, mul zero x = zero.
Hypothesis add_zero_r : ∀ x, add x zero = x.
Hypothesis add_zero_l : ∀ x, add zero x = x.
Hypothesis sub_zero_r : ∀ x, sub x zero = x.
Hypothesis cos_zero : cos zero = one.
Hypothesis sin_zero : sin zero = zero.


End UVTransformFacts.


(** *** In binary64

    [math.cos] and [math.sin] are functions of the C library. The example
    needs their values at one argument, [radians(30.0)], which is
    [0x1.0c152382d7365p-1]: [cos] gives [0x1.bb67ae8584cabp-1]
    (0.8660254037844387) and [sin] gives [0x1.fffffffffffffp-2]
    (0.49999999999999994), the floats nearest to the cosine and to the sine
    of that argument. At any other argument the samples give [nan]. *)
Definition cos_sample (x : float) : float :=
  if PrimFloat.eqb x 0x1.0c152382d7365p-1%float then 0x1.bb67ae8584cabp-1%float
  else PrimFloat.nan.

Definition sin_sample (x : float) : float :=
  if PrimFloat.eqb x 0x1.0c152382d7365p-1%float then 0x1.fffffffffffffp-2%float
  else PrimFloat.nan.


(** ** The OBJ and MTL files *)

Lemma dirname_ne_path (p q : string) : dirname p ≠ dirname q → p ≠ q.
Proof. intros H ->. by apply H. Qed.

(** C8, as the code has it. When the OBJ file and the MTL file are
    requested in different directories and a material content is given,
    [write_objfile] raises [ValueError] and the OBJ file is not written; the
    MTL file has been written by [write_mtl] when the error is raised. *)
Theorem write_objfile_directory_mismatch
    (mkstemp : string → string → gmap string string → string)
    (obj_text : option string → string)
    (objfile mtlfile : string) (mtlname : option string) (mtlcontent : string)
    (files : gmap string string) :
  dirname mtlfile ≠ dirname objfile →
  ∃ files',
    RenderMesh.write_objfile mkstemp obj_text (Some objfile) (Some mtlfile)
      mtlname (Some mtlcontent) files = (files', Raise ValueError) ∧
    files' !! objfile = files !! objfile ∧
    files' = <[mtlfile := ("newmtl " +:+ RenderMesh.str_of_name mtlname +:+ "
" +:+ mtlcontent)%string]> files.
Proof.
  intros Hdir. eexists. unfold RenderMesh.write_objfile, RenderMesh._write_objfile_sp,
    RenderMesh.write_mtl.
  rewrite decide_True by done. split; [reflexivity|]. split; [|reflexivity].
  apply lookup_insert_ne. by apply dirname_ne_path.
Qed.

Lemma write_objfile_directory_mismatch_witness :
  ∃ files',
    RenderMesh.write_objfile (λ _ _ _, "/tmp/_0"%string) (λ _, ""%string)
      (Some "/a/mesh.obj"%string) (Some "/b/mesh.mtl"%string)
      (Some "mat"%string) (Some "Kd 1 1 1"%string) ∅ = (files', Raise ValueError) ∧
    files' !! "/a/mesh.obj"%string = (∅ : gmap string string) !! "/a/mesh.obj"%string ∧
    files' = <["/b/mesh.mtl"%string := ("newmtl " +:+ RenderMesh.str_of_name (Some "mat"%string) +:+ "
" +:+ "Kd 1 1 1")%string]> ∅.
Proof.
  apply (write_objfile_directory_mismatch (λ _ _ _, "/tmp/_0"%string) (λ _, ""%string)
           "/a/mesh.obj" "/b/mesh.mtl" (Some "mat"%string) "Kd 1 1 1" ∅).
  vm_compute. discriminate.
Defined.

(** C8 does not hold as it is stated: with the OBJ file in [/a] and the MTL
    file in [/b], the call raises [ValueError], but the files are not what
    they were before the call: [/b/mesh.mtl] has been written. *)
Lemma write_objfile_mismatch_after_writing :
  RenderMesh.write_objfile (λ _ _ _, "/tmp/_0"%string) (λ _, ""%string)
    (Some "/a/mesh.obj"%string) (Some "/b/mesh.mtl"%string)
    (Some "mat"%string) (Some "Kd 1 1 1"%string) ∅
  ≠ (∅, Raise ValueError) ∧
  (RenderMesh.write_objfile (λ _ _ _, "/tmp/_0"%string) (λ _, ""%string)
    (Some "/a/mesh.obj"%string) (Some "/b/mesh.mtl"%string)
    (Some "mat"%string) (Some "Kd 1 1 1"%string) ∅).1 !! "/b/mesh.mtl"%string
  = Some ("newmtl mat
Kd 1 1 1")%string.
Proof.
  split; [|reflexivity].
  intros H. apply (f_equal (λ r, r.1 !! "/b/mesh.mtl"%string)) in H.
  vm_compute in H. discriminate.
Qed.

(** ** Dictionaries *)

Section Dict.
Context {K V : Type} `{EqDecision K}.
Implicit Types (d : list (K * V)) (k : K) (v : V).

Lemma dict_set_keys k v d :
  (dict_set k v d).*1 = if decide (k ∈ d.*1) then d.*1 else d.*1 ++ [k].
Proof.
  induction d as [|[k' v'] d IH]; csimpl.
  - done.
  - destruct (decide (k' = k)) as [->|Hne]; csimpl.
    + rewrite decide_True by left. done.
    + rewrite IH. destruct (decide (k ∈ d.*1)) as [Hin|Hin].
      * rewrite decide_True by (by right). done.
      * rewrite decide_False; [done|]. intros Hin'.
        apply elem_of_cons in Hin' as [->|?]; done.
Qed.

Lemma dict_get_set k' k v d :
  dict_get k' (dict_set k v d) = if decide (k' = k) then Ok v else dict_get k' d.
Proof.
  induction d as [|[k1 v1] d IH]; simpl.
  - destruct (decide (k = k')) as [->|]; [by rewrite decide_True|].
    by rewrite decide_False.
  - destruct (decide (k1 = k)) as [->|Hne]; simpl.
    + destruct (decide (k = k')) as [->|]; [by rewrite decide_True|].
      by rewrite decide_False.
    + destruct (decide (k1 = k')) as [->|]; [by rewrite decide_False|done].
Qed.

Lemma dict_get_None k d : k ∉ d.*1 → dict_get k d = Raise KeyError.
Proof.
  induction d as [|[k1 v1] d IH]; simpl; [done|]. intros Hin.
  rewrite decide_False.
  - apply IH. intros ?. apply Hin. by right.
  - intros ->. apply Hin. left.
Qed.
End Dict.

(** The elements of a list, each once, in the order of their first
    occurrence. *)
Definition first_occurrences {A} `{EqDecision A} (l : list A) : list A :=
  foldl (λ acc x, if decide (x ∈ acc) then acc else acc ++ [x]) [] l.

Section FirstOccurrences.
Context {A : Type} `{EqDecision A}.
Implicit Types (l acc : list A).

Let step := λ acc (x : A), if decide (x ∈ acc) then acc else acc ++ [x].

Lemma first_occ_elem_of l : ∀ acc x, x ∈ foldl step acc l ↔ x ∈ acc ∨ x ∈ l.
Proof.
  induction l as [|y l IH]; intros acc x; simpl.
  - rewrite elem_of_nil. tauto.
  - rewrite IH. unfold step. destruct (decide (y ∈ acc)).
    + rewrite elem_of_cons. split; [tauto|]. intros [?|[->|?]]; tauto.
    + rewrite elem_of_app, list_elem_of_singleton, elem_of_cons. tauto.
Qed.

Lemma first_occ_NoDup l : ∀ acc, NoDup acc → NoDup (foldl step acc l).
Proof.
  induction l as [|y l IH]; intros acc Hnd; simpl; [done|].
  apply IH. unfold step. destruct (decide (y ∈ acc)); [done|].
  apply NoDup_app. split_and!; [done| |apply NoDup_singleton].
  intros x Hx Hx'. apply list_elem_of_singleton in Hx'. by subst.
Qed.

Lemma first_occ_prefix l : ∀ acc, ∃ k, foldl step acc l = acc ++ k.
Proof.
  induction l as [|y l IH]; intros acc; simpl.
  - exists []. by rewrite app_nil_r.
  - unfold step at 2. destruct (decide (y ∈ acc)); [apply IH|].
    destruct (IH (acc ++ [y])) as [k Hk]. exists (y :: k).
    by rewrite Hk, <-app_assoc.
Qed.

Lemma elem_of_first_occurrences l x : x ∈ first_occurrences l ↔ x ∈ l.
Proof.
  unfold first_occurrences. fold step. rewrite first_occ_elem_of, elem_of_nil. tauto.
Qed.

Lemma NoDup_first_occurrences l : NoDup (first_occurrences l).
Proof. apply first_occ_NoDup. constructor. Qed.

(** A list that is already without repetition is unchanged. *)
Lemma first_occ_NoDup_id l : ∀ acc, NoDup (acc ++ l) → foldl step acc l = acc ++ l.
Proof.
  induction l as [|y l IH]; intros acc Hnd; simpl; [by rewrite app_nil_r|].
  unfold step at 2. rewrite decide_False.
  - rewrite IH; rewrite <-app_assoc; done.
  - apply NoDup_app in Hnd as (_ & Hnd & _). intros Hy. apply (Hnd y Hy). left.
Qed.

Lemma first_occurrences_NoDup_id l : NoDup l → first_occurrences l = l.
Proof. intros Hnd. unfold first_occurrences. fold step. by rewrite first_occ_NoDup_id. Qed.
End FirstOccurrences.

(** ** [mapR] and [foldlM] *)

Lemma mapR_Ok {A B} (f : A → result B) l l' :
  mapR f l = Ok l' ↔ Forall2 (λ x y, f x = Ok y) l l'.
Proof.
  revert l'. induction l as [|x l IH]; intros l'; simpl.
  - split; [intros [= <-]; constructor | by inversion 1].
  - destruct (f x) as [y|e] eqn:Hfx; simpl.
    + destruct (mapR f l) as [ys|e] eqn:Hm; simpl.
      * split.
        -- intros [= <-]. constructor; [done|]. by apply IH.
        -- inversion 1 as [|? y' ? ys' Hy Hys]; subst. apply IH in Hys. congruence.
      * split; [done|]. inversion 1 as [|? y' ? ys' Hy Hys]; subst.
        apply IH in Hys. done.
    + split; [done|]. inversion 1; congruence.
Qed.

Lemma mapR_fmap {A B} (f : A → result B) (g : A → B) l :
  (∀ x, x ∈ l → f x = Ok (g x)) → mapR f l = Ok (g <$> l).
Proof.
  intros H. apply mapR_Ok. induction l as [|x l IH]; csimpl; constructor.
  - apply H. left.
  - apply IH. intros y Hy. apply H. by right.
Qed.

Lemma mapR_total {A B} (f : A → result B) l :
  (∀ x, x ∈ l → ∃ y, f x = Ok y) → ∃ l', mapR f l = Ok l'.
Proof.
  induction l as [|x l IH]; intros H; simpl; [by eexists|].
  destruct (H x) as [y ->]; [left|]. destruct IH as [l' ->].
  { intros z Hz. apply H. by right. }
  simpl. by eexists.
Qed.

Lemma mapR_length {A B} (f : A → result B) l l' :
  mapR f l = Ok l' → length l' = length l.
Proof. intros H%mapR_Ok. symmetry. by eapply Forall2_length. Qed.

Lemma mapR_lookup {A B} (f : A → result B) l l' i x :
  mapR f l = Ok l' → l !! i = Some x → ∃ y, l' !! i = Some y ∧ f x = Ok y.
Proof.
  intros H%mapR_Ok Hx. destruct (Forall2_lookup_l _ _ _ _ _ H Hx) as (y & ? & ?). eauto.
Qed.

Lemma foldl_bind {A B C} (f : A → C → A) (h : B → list C) (l : list B) : ∀ a,
  foldl (λ a x, foldl f a (h x)) a l = foldl f a (l ≫= h).
Proof.
  induction l as [|x l IH]; intros a; csimpl; [done|].
  by rewrite foldl_app, IH.
Qed.

(** ** The vertex splitter *)

(** The pairs (point index, tag) of the corners of the facets, in the order
    of the facets. *)
Definition corner_pairs (facets : list facet) (tags : list (option nat))
  : list (nat * option nat) :=
  zip facets tags ≫= (λ ft, (λ p, (p, ft.2)) <$> facet_points ft.1).

Lemma dict_set_None_keys (ks : list (nat * option nat)) :
  ∀ d : list (nat * option nat * option nat),
  (foldl (λ d k, dict_set k None d) d ks).*1
  = foldl (λ acc x, if decide (x ∈ acc) then acc else acc ++ [x]) d.*1 ks.
Proof.
  induction ks as [|k ks IH]; intros d; simpl; [done|].
  by rewrite IH, dict_set_keys.
Qed.

Lemma newpoints_init_keys facets tags :
  (RenderMesh.newpoints_init facets tags).*1
  = first_occurrences (corner_pairs facets tags).
Proof.
  unfold RenderMesh.newpoints_init, first_occurrences, corner_pairs.
  rewrite <-(dict_set_None_keys _ []).
  rewrite <-(foldl_bind (λ d k, dict_set k None d)
               (λ ft : facet * option nat, (λ p, (p, ft.2)) <$> facet_points ft.1)).
  f_equal. clear. generalize (@nil (nat * option nat * option nat)).
  induction (zip facets tags) as [|[f t] l IH]; intros d; simpl; [done|].
  rewrite <-IH. f_equal. destruct f as [[a b] c]. done.
Qed.

Lemma elem_of_corner_pairs facets tags p t :
  (p, t) ∈ corner_pairs facets tags ↔
  ∃ i f, facets !! i = Some f ∧ tags !! i = Some t ∧ p ∈ facet_points f.
Proof.
  unfold corner_pairs. rewrite list_elem_of_bind. split.
  - intros ([f t'] & Hin & Hft). simpl in *.
    apply list_elem_of_fmap in Hin as (p' & [= -> ->] & Hp).
    apply list_elem_of_lookup in Hft as [i Hi].
    apply lookup_zip_with_Some in Hi as (f' & t'' & [= -> ->] & ? & ?). eauto.
  - intros (i & f & Hf & Ht & Hp). exists (f, t). split.
    + simpl. apply list_elem_of_fmap. eauto.
    + apply list_elem_of_lookup. exists i. apply lookup_zip_with_Some. eauto.
Qed.

Lemma imap_pair_snd {A} (l : list A) : (imap pair l).*2 = l.
Proof.
  apply list_eq. intros i. rewrite list_lookup_fmap, list_lookup_imap.
  by destruct (l !! i).
Qed.

Lemma number_fold (l : list (nat * (nat * option nat))) :
  ∀ d : list (nat * option nat * option nat),
  NoDup l.*2 → (∀ ik, ik ∈ l → ik.2 ∈ d.*1) →
  let d' := foldl (λ d ip, let '(index, point) := ip in dict_set point (Some index) d) d l in
  d'.*1 = d.*1 ∧
  (∀ i k, (i, k) ∈ l → dict_get k d' = Ok (Some i)) ∧
  (∀ k, k ∉ l.*2 → dict_get k d' = dict_get k d).
Proof.
  induction l as [|[i k] l IH]; intros d Hnd Hin; csimpl.
  { split_and!; [done| |done]. intros i k Hik. by apply elem_of_nil in Hik. }
  apply NoDup_cons in Hnd as [Hk Hnd].
  assert (Hkd : k ∈ d.*1) by (apply (Hin (i, k)); left).
  assert (Hkeys : (dict_set k (Some i) d).*1 = d.*1).
  { rewrite dict_set_keys. by rewrite decide_True. }
  destruct (IH (dict_set k (Some i) d) Hnd) as (Hk1 & Hget & Hother).
  { intros ik Hik. rewrite Hkeys. apply Hin. by right. }
  split_and!.
  - by rewrite Hk1.
  - intros i' k' Hik. apply elem_of_cons in Hik as [[= -> ->]|Hik]; [|by apply Hget].
    rewrite Hother by done. rewrite dict_get_set. by rewrite decide_True.
  - intros k' Hk'. apply not_elem_of_cons in Hk' as [Hne Hk'].
    rewrite Hother by done. rewrite dict_get_set. by rewrite decide_False.
Qed.

Lemma newpoints_number_spec (d : list (nat * option nat * option nat)) :
  NoDup d.*1 →
  (RenderMesh.newpoints_number d).*1 = d.*1 ∧
  ∀ i k, d.*1 !! i = Some k → dict_get k (RenderMesh.newpoints_number d) = Ok (Some i).
Proof.
  intros Hnd. unfold RenderMesh.newpoints_number.
  destruct (number_fold (imap pair d.*1) d) as (Hk & Hget & _).
  - by rewrite imap_pair_snd.
  - intros [i k] Hik. apply elem_of_lookup_imap in Hik as (i' & k' & [= -> ->] & Hl).
    simpl. by eapply list_elem_of_lookup_2.
  - split; [done|]. intros i k Hik. apply Hget. by apply (elem_of_lookup_imap_2 pair).
Qed.

(** [newpoints[point_index, tag]] is the position of the pair among the
    pairs of the corners. *)
Lemma newpoints_get_spec facets tags i p t :
  first_occurrences (corner_pairs facets tags) !! i = Some (p, t) →
  RenderMesh.newpoints_get
    (RenderMesh.newpoints_number (RenderMesh.newpoints_init facets tags)) p t = Ok i.
Proof.
  intros Hi. unfold RenderMesh.newpoints_get.
  destruct (newpoints_number_spec (RenderMesh.newpoints_init facets tags)) as [_ Hget].
  { rewrite newpoints_init_keys. apply NoDup_first_occurrences. }
  rewrite (Hget i (p, t)); [done|]. by rewrite newpoints_init_keys.
Qed.

Lemma newpoints_number_keys facets tags :
  (RenderMesh.newpoints_number (RenderMesh.newpoints_init facets tags)).*1
  = first_occurrences (corner_pairs facets tags).
Proof.
  destruct (newpoints_number_spec (RenderMesh.newpoints_init facets tags)) as [-> _].
  - rewrite newpoints_init_keys. apply NoDup_first_occurrences.
  - apply newpoints_init_keys.
Qed.

Section Splitter.
Context {F : Type}.
Implicit Types (m : RenderMesh.mesh (F:=F)).

(** Every point index of a facet is an index of the list of points, and
    the UV map, if there is one, has one entry per point. *)
Definition mesh_indices_ok m : Prop :=
  Forall (λ f, Forall (λ p, p < length (RenderMesh.mesh_points m)) (facet_points f))
    (RenderMesh.mesh_facets m).

Definition mesh_uvmap_ok m : Prop :=
  length (RenderMesh.mesh_uvmap m) = 0 ∨
  length (RenderMesh.mesh_uvmap m) = length (RenderMesh.mesh_points m).

Lemma mesh_indices_ok_alt m :
  mesh_indices_ok m ↔
  ∀ f p, f ∈ RenderMesh.mesh_facets m → p ∈ facet_points f →
         p < length (RenderMesh.mesh_points m).
Proof.
  unfold mesh_indices_ok. rewrite Forall_forall. split.
  - intros H f p Hf Hp. specialize (H f Hf). rewrite Forall_forall in H. by apply H.
  - intros H f Hf. apply Forall_forall. intros p Hp. by eapply H.
Qed.

(** What [split_points] returns, in terms of the pairs of the corners: the
    points, the UV map and the facets. *)
Definition split_geometry m (tags : list (option nat)) (m' : RenderMesh.mesh (F:=F)) : Prop :=
  let keys := first_occurrences (corner_pairs (RenderMesh.mesh_facets m) tags) in
  Forall2 (λ key pt, RenderMesh.mesh_points m !! key.1 = Some pt)
    keys (RenderMesh.mesh_points m') ∧
  (RenderMesh.mesh_uvmap m = [] ∧ RenderMesh.mesh_uvmap m' = [] ∨
   RenderMesh.mesh_uvmap m ≠ [] ∧
   Forall2 (λ key uv, RenderMesh.mesh_uvmap m !! key.1 = Some uv)
     keys (RenderMesh.mesh_uvmap m')) ∧
  Forall2 (λ (ft : facet * option nat) (f' : facet),
      keys !! f'.1.1 = Some (ft.1.1.1, ft.2) ∧
      keys !! f'.1.2 = Some (ft.1.1.2, ft.2) ∧
      keys !! f'.2 = Some (ft.1.2, ft.2))
    (zip (RenderMesh.mesh_facets m) tags) (RenderMesh.mesh_facets m').

Definition split_result m (tags : list (option nat)) (m' : RenderMesh.mesh (F:=F)) : Prop :=
  split_geometry m tags m' ∧
  RenderMesh.mesh_normals m' = RenderMesh.mesh_normals m ∧
  RenderMesh.mesh_areas m' = RenderMesh.mesh_areas m ∧
  RenderMesh.mesh_vnormals m' = RenderMesh.mesh_vnormals m.

Lemma corner_key_lt m tags p t :
  mesh_indices_ok m →
  (p, t) ∈ first_occurrences (corner_pairs (RenderMesh.mesh_facets m) tags) →
  p < length (RenderMesh.mesh_points m).
Proof.
  intros Hok Hin. apply elem_of_first_occurrences, elem_of_corner_pairs in Hin
    as (i & f & Hf & _ & Hp).
  eapply mesh_indices_ok_alt; [done| |done]. by eapply list_elem_of_lookup_2.
Qed.

Lemma rebuild_run {A} (l : list A) (keys : list (nat * option nat)) :
  (∀ p t, (p, t) ∈ keys → p < length l) →
  ∃ l', RenderMesh.rebuild l keys = Ok l' ∧
        Forall2 (λ key x, l !! key.1 = Some x) keys l'.
Proof.
  intros Hlt. destruct (mapR_total (λ key : nat * option nat, at_ l key.1) keys) as [l' Hl'].
  { intros [p t] Hin. simpl. destruct (at_lt l p) as (x & ? & _); eauto. }
  exists l'. split; [done|]. apply mapR_Ok in Hl'.
  eapply Forall2_impl; [done|]. intros ?? H. by apply at_Ok.
Qed.

Lemma renumber_run facets tags (l : list (facet * option nat)) :
  let keys := first_occurrences (corner_pairs facets tags) in
  (∀ f t p, (f, t) ∈ l → p ∈ facet_points f → (p, t) ∈ keys) →
  ∃ new_facets,
    mapR (RenderMesh.renumber_facet
            (RenderMesh.newpoints_number (RenderMesh.newpoints_init facets tags))) l
      = Ok new_facets ∧
    Forall2 (λ (ft : facet * option nat) (f' : facet),
      keys !! f'.1.1 = Some (ft.1.1.1, ft.2) ∧
      keys !! f'.1.2 = Some (ft.1.1.2, ft.2) ∧
      keys !! f'.2 = Some (ft.1.2, ft.2)) l new_facets.
Proof.
  intros keys. induction l as [|[[[a b] c] t] l IH]; intros Hkey.
  { exists []. split; [done|constructor]. }
  destruct IH as (fs & Hfs & Hall).
  { intros f t' p Hin. apply Hkey. by right. }
  assert (Hk : ∀ p, p ∈ [a; b; c] → ∃ i, keys !! i = Some (p, t)).
  { intros p Hp. apply list_elem_of_lookup. apply (Hkey (a, b, c)); [left|done]. }
  destruct (Hk a) as [a' Ha]; [set_solver|].
  destruct (Hk b) as [b' Hb]; [set_solver|].
  destruct (Hk c) as [c' Hc]; [set_solver|].
  exists ((a', b', c') :: fs). split; [|by constructor].
  cbn [mapR RenderMesh.renumber_facet].
  rewrite (newpoints_get_spec _ _ _ _ _ Ha),
    (newpoints_get_spec _ _ _ _ _ Hb), (newpoints_get_spec _ _ _ _ _ Hc).
  cbn [mbind result_bind]. rewrite Hfs. done.
Qed.

Lemma split_points_run m tags :
  mesh_indices_ok m → mesh_uvmap_ok m →
  ∃ m', RenderMesh.split_points m tags = Ok m' ∧ split_result m tags m'.
Proof.
  intros Hok Huv. unfold RenderMesh.split_points, split_result, split_geometry.
  rewrite newpoints_number_keys.
  set (keys := first_occurrences (corner_pairs (RenderMesh.mesh_facets m) tags)).
  destruct (rebuild_run (RenderMesh.mesh_points m) keys) as (new_points & -> & Hpts).
  { intros p t Hin. by eapply corner_key_lt. }
  cbn [mbind result_bind].
  assert (Huv' : ∃ new_uvmap,
    match RenderMesh.mesh_uvmap m with
    | [] => Ok []
    | _ :: _ => RenderMesh.rebuild (RenderMesh.mesh_uvmap m) keys
    end = Ok new_uvmap ∧
    (RenderMesh.mesh_uvmap m = [] ∧ new_uvmap = [] ∨
     RenderMesh.mesh_uvmap m ≠ [] ∧
     Forall2 (λ key uv, RenderMesh.mesh_uvmap m !! key.1 = Some uv) keys new_uvmap)).
  { destruct Huv as [Hnil|Hlen].
    - apply nil_length_inv in Hnil. rewrite Hnil. exists []. split; [done|]. by left.
    - destruct (rebuild_run (RenderMesh.mesh_uvmap m) keys) as (new_uvmap & Hm & Hall).
      { intros p t Hin. rewrite Hlen. by eapply corner_key_lt. }
      destruct (RenderMesh.mesh_uvmap m) as [|uv0 uvs] eqn:Huvm.
      { exists []. split; [done|]. by left. }
      exists new_uvmap. split; [done|]. right. done. }
  destruct Huv' as (new_uvmap & -> & Huvres). cbn [mbind result_bind].
  destruct (renumber_run (RenderMesh.mesh_facets m) tags
              (zip (RenderMesh.mesh_facets m) tags)) as (new_facets & -> & Hfres).
  { intros f t p Hft Hp. apply elem_of_first_occurrences, elem_of_corner_pairs.
    apply list_elem_of_lookup in Hft as [i Hi].
    apply lookup_zip_with_Some in Hi as (f' & t' & [= -> ->] & ? & ?). eauto. }
  cbn [mbind result_bind]. eexists. split; [reflexivity|]. simpl. repeat split; done.
Qed.
End Splitter.

(** ** Renumbering by first occurrence *)

Section Renumber.
Context {A : Type} `{EqDecision A}.

Lemma first_occurrences_snoc (l : list A) x :
  first_occurrences (l ++ [x])
  = if decide (x ∈ first_occurrences l) then first_occurrences l
    else first_occurrences l ++ [x].
Proof. unfold first_occurrences. by rewrite foldl_app. Qed.
End Renumber.

Lemma first_occurrences_fmap {A B} `{EqDecision A} `{EqDecision B}
    (f : A → B) `{!Inj (=) (=) f} (l : list A) :
  first_occurrences (f <$> l) = f <$> first_occurrences l.
Proof.
  induction l as [|x l IH] using rev_ind; [done|].
  rewrite fmap_app. csimpl. rewrite !first_occurrences_snoc, IH.
  destruct (decide (x ∈ first_occurrences l)) as [Hin|Hin].
  - rewrite decide_True; [done|]. by apply list_elem_of_fmap_2.
  - rewrite decide_False; [by rewrite fmap_app|].
    intros (y & Hy & ?)%list_elem_of_fmap. apply (inj f) in Hy. by subst.
Qed.

(** When each element is replaced by its position among the first
    occurrences, the first occurrences are 0, 1, 2, ... *)
Lemma first_occurrences_positions {A} `{EqDecision A} (l : list A) : ∀ (keys : list A) (cs : list nat),
  NoDup keys → first_occurrences l `prefix_of` keys →
  Forall2 (λ x c, keys !! c = Some x) l cs →
  first_occurrences cs = seq 0 (length (first_occurrences l)).
Proof.
  induction l as [|x l IH] using rev_ind; intros keys cs Hnd Hpre Hall.
  { apply Forall2_nil_inv_l in Hall as ->. done. }
  apply Forall2_app_inv_l in Hall as (cs' & cx & Hall & Hx & ->).
  apply Forall2_cons_inv_l in Hx as (c & ? & Hc & ->%Forall2_nil_inv_l & ->).
  rewrite (first_occurrences_snoc l x) in Hpre |- *. rewrite (first_occurrences_snoc cs' c).
  assert (Hpre' : first_occurrences l `prefix_of` keys).
  { destruct (decide (x ∈ first_occurrences l)); [done|].
    etrans; [|done]. by apply prefix_app_r. }
  rewrite (IH keys cs' Hnd Hpre' Hall).
  destruct (decide (x ∈ first_occurrences l)) as [Hin|Hin].
  - apply list_elem_of_lookup in Hin as [j Hj].
    pose proof (prefix_lookup_Some _ _ _ _ Hj Hpre') as Hj'.
    assert (c = j) as -> by by eapply NoDup_lookup.
    rewrite decide_True; [done|]. apply elem_of_seq. apply lookup_lt_Some in Hj. lia.
  - assert (Hlast : keys !! length (first_occurrences l) = Some x).
    { apply (prefix_lookup_Some (first_occurrences l ++ [x]) keys); [|done].
      by rewrite lookup_app_r, Nat.sub_diag by lia. }
    assert (c = length (first_occurrences l)) as -> by by eapply NoDup_lookup.
    rewrite decide_False by (rewrite elem_of_seq; lia).
    by rewrite length_app, Nat.add_1_r, seq_S.
Qed.

Lemma Forall2_fmap_eq {A B} (g : A → B) (l : list A) (l' : list B) :
  Forall2 (λ x y, y = g x) l l' → l' = g <$> l.
Proof. induction 1; csimpl; congruence. Qed.

Lemma corner_pairs_replicate facets (tg : option nat) :
  corner_pairs facets (replicate (length facets) tg)
  = (λ p, (p, tg)) <$> (facets ≫= facet_points).
Proof.
  unfold corner_pairs. induction facets as [|f facets IH]; csimpl; [done|].
  by rewrite IH, fmap_app.
Qed.

Lemma zip_replicate_fst {A B} (l : list A) (y : B) :
  (zip l (replicate (length l) y)).*1 = l.
Proof. induction l; csimpl; congruence. Qed.

Lemma lookup_tagged_seq n (tg : option nat) j p tg' :
  ((λ p, (p, tg)) <$> seq 0 n) !! j = Some (p, tg') → j = p ∧ j < n.
Proof.
  rewrite list_lookup_fmap. intros H.
  destruct (seq 0 n !! j) as [k|] eqn:Hk; simplify_eq/=.
  apply lookup_seq in Hk. lia.
Qed.

Lemma Forall2_tagged_seq {A} (l l' : list A) (tg : option nat) :
  Forall2 (λ (key : nat * option nat) x, l !! key.1 = Some x)
    ((λ p, (p, tg)) <$> seq 0 (length l)) l' → l' = l.
Proof.
  intros Hall. apply list_eq. intros i.
  pose proof (Forall2_length _ _ _ Hall) as Hlen. rewrite length_fmap, length_seq in Hlen.
  destruct (decide (i < length l)) as [Hi|Hi].
  - assert (Hk : ((λ p, (p, tg)) <$> seq 0 (length l)) !! i = Some (i, tg)).
    { rewrite list_lookup_fmap, lookup_seq_lt by done. done. }
    destruct (Forall2_lookup_l _ _ _ _ _ Hall Hk) as (x & -> & Hx). simpl in Hx. by rewrite Hx.
  - rewrite !lookup_ge_None_2 by lia. done.
Qed.

Section SplitAgain.
Context {F : Type}.
Implicit Types (m : RenderMesh.mesh (F:=F)).

Lemma split_geometry_lengths m tags m0 :
  split_geometry m tags m0 →
  length (RenderMesh.mesh_points m0)
    = length (first_occurrences (corner_pairs (RenderMesh.mesh_facets m) tags)) ∧
  length (RenderMesh.mesh_facets m0) = length (zip (RenderMesh.mesh_facets m) tags) ∧
  mesh_indices_ok m0 ∧ mesh_uvmap_ok m0.
Proof.
  intros (Hpts & Huv & Hfs).
  pose proof (Forall2_length _ _ _ Hpts) as Hlen.
  split_and!; [done | symmetry; by eapply Forall2_length | |].
  - apply mesh_indices_ok_alt.
    intros f' p Hf' Hp. apply list_elem_of_lookup in Hf' as [i Hi].
    destruct (Forall2_lookup_r _ _ _ _ _ Hfs Hi) as (ft & _ & Ha & Hb & Hc).
    destruct f' as [[a' b'] c']. simpl in *. rewrite <-Hlen.
    apply elem_of_cons in Hp as [->|Hp]; [by eapply lookup_lt_Some|].
    apply elem_of_cons in Hp as [->|Hp]; [by eapply lookup_lt_Some|].
    apply list_elem_of_singleton in Hp as ->. by eapply lookup_lt_Some.
  - unfold mesh_uvmap_ok. destruct Huv as [[_ Hnil]|[_ Huv]]; [left; by rewrite Hnil|right].
    rewrite <-Hlen. symmetry. by eapply Forall2_length.
Qed.

(** The corners of the facets of the result are the positions of the pairs
    of the corners of the facets of the mesh. *)
Lemma split_geometry_corners m tags m0 :
  split_geometry m tags m0 →
  Forall2 (λ x c, first_occurrences (corner_pairs (RenderMesh.mesh_facets m) tags) !! c = Some x)
    (corner_pairs (RenderMesh.mesh_facets m) tags)
    (RenderMesh.mesh_facets m0 ≫= facet_points).
Proof.
  intros (_ & _ & Hfs). unfold corner_pairs at 2.
  set (keys := first_occurrences _) in *. clearbody keys.
  induction Hfs as [|[[[a b] c] t] [[a' b'] c'] l l' (Ha & Hb & Hc) _ IH]; csimpl; [constructor|].
  simpl in *. repeat (constructor; [done|]). done.
Qed.

(** Splitting again, with one tag for all the facets, changes nothing. *)
Lemma split_points_again m tags m0 (tg : option nat) :
  split_geometry m tags m0 →
  RenderMesh.split_points m0 (replicate (length (RenderMesh.mesh_facets m0)) tg) = Ok m0.
Proof.
  intros Hres. destruct (split_geometry_lengths _ _ _ Hres) as (Hlen & _ & Hok & Huvok).
  destruct (split_points_run m0 (replicate (length (RenderMesh.mesh_facets m0)) tg) Hok Huvok)
    as (m2 & -> & (Hpts2 & Huv2 & Hfs2) & Hn2 & Ha2 & Hv2).
  f_equal.
  assert (Hkeys : first_occurrences (corner_pairs (RenderMesh.mesh_facets m0)
                    (replicate (length (RenderMesh.mesh_facets m0)) tg))
                  = (λ p, (p, tg)) <$> seq 0 (length (RenderMesh.mesh_points m0))).
  { rewrite corner_pairs_replicate.
    rewrite (first_occurrences_fmap (λ p, (p, tg))).
    rewrite (first_occurrences_positions _ _ _ (NoDup_first_occurrences _) (reflexivity _)
               (split_geometry_corners _ _ _ Hres)).
    by rewrite Hlen. }
  rewrite Hkeys in Hpts2, Huv2, Hfs2.
  apply Forall2_tagged_seq in Hpts2.
  assert (Huveq : RenderMesh.mesh_uvmap m2 = RenderMesh.mesh_uvmap m0).
  { destruct Huv2 as [[-> ->]|[Hne Huv2]]; [done|].
    destruct Huvok as [Hz|Hlen']; [by apply nil_length_inv in Hz|]. rewrite <-Hlen' in Huv2.
    by apply Forall2_tagged_seq in Huv2. }
  assert (Hfeq : RenderMesh.mesh_facets m2 = RenderMesh.mesh_facets m0).
  { rewrite <-(zip_replicate_fst (RenderMesh.mesh_facets m0) tg).
    apply Forall2_fmap_eq. eapply Forall2_impl; [exact Hfs2|].
    intros [[[a b] c] t] [[a' b'] c'] (Ha & Hb & Hc). simpl in *.
    apply lookup_tagged_seq in Ha as [-> _], Hb as [-> _], Hc as [-> _]. done. }
  destruct m2, m0. simpl in *. congruence.
Qed.
End SplitAgain.

(** ** The number of tags does not change *)

Section TraversalLength.
Context {N : Type}.
Variable pop : list nat → option (nat * list nat).
Variable enter : nat → result N.
Variable test : N → nat → option N.

Lemma forward_length t fuel : ∀ cur cn st st',
  forward pop test t fuel cur cn st = Ok st' →
  length (st_tags st') = length (st_tags st).
Proof.
  induction fuel as [|fuel IH]; intros cur cn st st' Hrun; [done|].
  simpl in Hrun. destruct (at_ (st_adjacents st) cur) as [row|]; [|done]. simpl in Hrun.
  destruct (pop row) as [[succ row']|]; [|by simplify_eq].
  destruct (test cn succ) as [sn|].
  - destruct (at_ (st_tags st) succ) as [[t'|]|]; simpl in Hrun; [| |done].
    + by apply IH in Hrun.
    + apply IH in Hrun. simpl in Hrun. by rewrite length_insert in Hrun.
  - by apply IH in Hrun.
Qed.

#[local] Arguments forward : simpl never.

Lemma backward_length t fuel : ∀ st st',
  backward pop enter test t fuel st = Ok st' →
  length (st_tags st') = length (st_tags st).
Proof.
  induction fuel as [|fuel IH]; intros st st' Hrun; [done|].
  simpl in Hrun. destruct (st_stack st) as [|cur rest] eqn:Hs; [by simplify_eq|].
  destruct (enter cur) as [cn|]; [|done]. simpl in Hrun.
  destruct (forward _ _ _ _ _ _ _) as [st1|] eqn:Hf; [|done]. simpl in Hrun.
  apply forward_length in Hf. apply IH in Hrun. simpl in Hrun. congruence.
Qed.

Lemma traverse_length t start adjacents tags adjacents' tags' :
  traverse pop enter test t start adjacents tags = Ok (adjacents', tags') →
  length tags' = length tags.
Proof.
  unfold traverse. case_decide; [|done].
  destruct (backward _ _ _ _ _ _) as [st|] eqn:Hb; [|done]. simpl.
  intros [= <- <-]. apply backward_length in Hb. simpl in Hb.
  by rewrite length_insert in Hb.
Qed.

Lemma components_steps_length xs : ∀ tag adjacents tags tag' adjacents' tags',
  foldlM (components_step pop enter test) (tag, adjacents, tags) xs
    = Ok (tag', adjacents', tags') →
  length tags' = length tags.
Proof.
  induction xs as [|x xs IH]; intros tag adjacents tags tag' adjacents' tags' Hrun.
  { by simplify_eq/=. }
  simpl in Hrun. destruct (at_ tags x) as [[t|]|]; simpl in Hrun; [| |done].
  - by apply IH in Hrun.
  - destruct (traverse _ _ _ _ _ _ _) as [[adj1 tags1]|] eqn:Ht; [|done]. simpl in Hrun.
    apply IH in Hrun. apply traverse_length in Ht. congruence.
Qed.

Lemma components_loop_length count adjacents tag tag' adjacents' tags' :
  components_loop pop enter test count adjacents tag = Ok (tag', adjacents', tags') →
  length tags' = count.
Proof.
  intros H%components_steps_length. by rewrite length_replicate in H.
Qed.
End TraversalLength.

(** ** The vertex splitter and the autosmooth step *)

Section AutosmoothFacts.
Context {F : Type}.
Variable set_iter : list nat → list nat.
Variable dot : F * F * F → F * F * F → F.
Variable flt : F → F → bool.
Variable cos : F → F.
Variable zero : F.
Variable mul : F → F → F.
Variable fmul : F * F * F → F → F * F * F.
Variable add : F * F * F → F * F * F → F * F * F.
Variable angles : list (F * F * F) → list F.
Variable safe_normalize : F * F * F → F * F * F.
Implicit Types (m : RenderMesh.mesh (F:=F)).

Lemma connected_components_length m split_angle tags last :
  RenderMesh.connected_components set_iter dot flt cos m split_angle = Ok (tags, last) →
  length tags = length (RenderMesh.mesh_facets m).
Proof.
  unfold RenderMesh.connected_components.
  destruct (RenderMesh.adjacent_facets _ _) as [adjacents|]; [|done]. simpl.
  destruct (components_loop _ _ _ _ _ _) as [[[next adj] tags']|] eqn:Hloop; [|done].
  simpl. intros [= <- _]. by eapply components_loop_length.
Qed.

(** C6. For a mesh whose facets index its points, with the tags computed
    by [connected_components], [separate_connected_components] returns a
    mesh whose points are, one for one, the distinct pairs (point index,
    tag) of the corners of the facets ([keys] lists them), each with the
    coordinates, and the UV coordinates if there is a UV map, of the
    original point; each facet is rewritten with the indices of the pairs
    of its corners, so that every index of a facet is below the number of
    new points. *)
Theorem separate_connected_components_spec m split_angle tags last :
  mesh_indices_ok m → mesh_uvmap_ok m →
  RenderMesh.connected_components set_iter dot flt cos m split_angle = Ok (tags, last) →
  ∃ m' keys,
    RenderMesh.separate_connected_components set_iter dot flt cos m split_angle = Ok m' ∧
    NoDup keys ∧
    (∀ p t, (p, t) ∈ keys ↔
       ∃ i f, RenderMesh.mesh_facets m !! i = Some f ∧ tags !! i = Some t ∧
              p ∈ facet_points f) ∧
    length (RenderMesh.mesh_points m') = length keys ∧
    (∀ j p t, keys !! j = Some (p, t) →
       RenderMesh.mesh_points m' !! j = RenderMesh.mesh_points m !! p ∧
       (RenderMesh.mesh_uvmap m ≠ [] →
        RenderMesh.mesh_uvmap m' !! j = RenderMesh.mesh_uvmap m !! p)) ∧
    (RenderMesh.mesh_uvmap m = [] → RenderMesh.mesh_uvmap m' = []) ∧
    (RenderMesh.mesh_uvmap m ≠ [] → length (RenderMesh.mesh_uvmap m') = length keys) ∧
    length (RenderMesh.mesh_facets m') = length (RenderMesh.mesh_facets m) ∧
    (∀ i a b c t, RenderMesh.mesh_facets m !! i = Some (a, b, c) → tags !! i = Some t →
       ∃ a' b' c', RenderMesh.mesh_facets m' !! i = Some (a', b', c') ∧
         keys !! a' = Some (a, t) ∧ keys !! b' = Some (b, t) ∧ keys !! c' = Some (c, t)) ∧
    (∀ f p, f ∈ RenderMesh.mesh_facets m' → p ∈ facet_points f →
       p < length (RenderMesh.mesh_points m')).
Proof.
  intros Hok Huv Htags.
  pose proof (connected_components_length _ _ _ _ Htags) as Hlen.
  destruct (split_points_run m tags Hok Huv) as (m' & Hrun & Hgeo & _).
  destruct (split_geometry_lengths _ _ _ Hgeo) as (Hlp & Hlf & Hok' & _).
  destruct Hgeo as (Hpts & Huvs & Hfs).
  exists m', (first_occurrences (corner_pairs (RenderMesh.mesh_facets m) tags)).
  split_and!.
  - unfold RenderMesh.separate_connected_components. by rewrite Htags.
  - apply NoDup_first_occurrences.
  - intros p t. by rewrite elem_of_first_occurrences, elem_of_corner_pairs.
  - done.
  - intros j p t Hj. destruct (Forall2_lookup_l _ _ _ _ _ Hpts Hj) as (pt & -> & Hpt).
    split; [done|]. intros Hne. destruct Huvs as [[? _]|[_ Huvs]]; [done|].
    destruct (Forall2_lookup_l _ _ _ _ _ Huvs Hj) as (uv & -> & Huv'). done.
  - intros Hnil. by destruct Huvs as [[_ ?]|[? _]].
  - intros Hne. destruct Huvs as [[? _]|[_ Huvs]]; [done|].
    symmetry. by eapply Forall2_length.
  - rewrite Hlf, length_zip_with. lia.
  - intros i a b c t Hi Ht.
    assert (Hz : zip (RenderMesh.mesh_facets m) tags !! i = Some ((a, b, c), t)).
    { apply lookup_zip_with_Some. eauto. }
    destruct (Forall2_lookup_l _ _ _ _ _ Hfs Hz) as ([[a' b'] c'] & Hf' & Ha & Hb & Hc).
    exists a', b', c'. done.
  - by apply mesh_indices_ok_alt.
Qed.

Lemma compute_vnormals_ext m m' :
  RenderMesh.mesh_points m' = RenderMesh.mesh_points m →
  RenderMesh.mesh_facets m' = RenderMesh.mesh_facets m →
  RenderMesh.mesh_normals m' = RenderMesh.mesh_normals m →
  RenderMesh.mesh_areas m' = RenderMesh.mesh_areas m →
  RenderMesh.mesh_uvmap m' = RenderMesh.mesh_uvmap m →
  RenderMesh.compute_vnormals zero mul fmul add angles safe_normalize m'
  = RenderMesh.compute_vnormals zero mul fmul add angles safe_normalize m.
Proof. destruct m, m'. simpl. by intros -> -> -> -> ->. Qed.

Lemma compute_vnormals_fields m m1 :
  RenderMesh.compute_vnormals zero mul fmul add angles safe_normalize m = Ok m1 →
  RenderMesh.mesh_points m1 = RenderMesh.mesh_points m ∧
  RenderMesh.mesh_facets m1 = RenderMesh.mesh_facets m ∧
  RenderMesh.mesh_normals m1 = RenderMesh.mesh_normals m ∧
  RenderMesh.mesh_areas m1 = RenderMesh.mesh_areas m ∧
  RenderMesh.mesh_uvmap m1 = RenderMesh.mesh_uvmap m.
Proof.
  unfold RenderMesh.compute_vnormals. destruct (foldlM _ _ _); [|done].
  simpl. by intros [= <-].
Qed.

(** C9. A mesh that has been smoothed, and whose facets all get the same
    tag when the components are computed again with the same split angle,
    is left as it is by a second run of the autosmooth step: same points,
    facets, UV map and vertex normals. *)
Theorem autosmooth_twice m m1 split_angle (tg : option nat) last :
  mesh_indices_ok m → mesh_uvmap_ok m →
  RenderMesh.autosmooth set_iter dot flt cos zero mul fmul add angles safe_normalize
    m split_angle = Ok m1 →
  RenderMesh.connected_components set_iter dot flt cos m1 split_angle
    = Ok (replicate (length (RenderMesh.mesh_facets m1)) tg, last) →
  RenderMesh.autosmooth set_iter dot flt cos zero mul fmul add angles safe_normalize
    m1 split_angle = Ok m1.
Proof.
  intros Hok Huv Hrun Hone. unfold RenderMesh.autosmooth in *.
  destruct (RenderMesh.separate_connected_components _ _ _ _ m _) as [m0|] eqn:Hsep; [|done].
  simpl in Hrun. unfold RenderMesh.separate_connected_components in *.
  destruct (RenderMesh.connected_components _ _ _ _ m _) as [[tags0 last0]|]; [|done].
  simpl in Hsep. rewrite Hone. simpl.
  destruct (split_points_run m tags0 Hok Huv) as (m0' & Hrun0 & Hgeo & _).
  rewrite Hrun0 in Hsep. simplify_eq.
  destruct (compute_vnormals_fields _ _ Hrun) as (Hp & Hf & Hn & Ha & Hu).
  assert (Hgeo1 : split_geometry m tags0 m1).
  { destruct Hgeo as (? & ? & ?). unfold split_geometry. by rewrite Hp, Hf, Hu. }
  rewrite (split_points_again _ _ _ tg Hgeo1). simpl.
  by rewrite (compute_vnormals_ext m0 m1).
Qed.
End AutosmoothFacts.

(** ** The vertex normals *)

Lemma foldlM_app {A B} (f : A → B → result A) (l1 l2 : list B) (a : A) :
  foldlM f a (l1 ++ l2) = a' ← foldlM f a l1; foldlM f a' l2.
Proof.
  revert a. induction l1 as [|x l1 IH]; intros a; simpl; [done|].
  destruct (f a x); simpl; [apply IH|done].
Qed.

Section VNormals.
Context {F : Type}.
Variable zero : F.
Variable mul : F → F → F.
Variable fmul : F * F * F → F → F * F * F.
Variable add : F * F * F → F * F * F → F * F * F.
Variable angles : list (F * F * F) → list F.
Variable safe_normalize : F * F * F → F * F * F.
Implicit Types (m : RenderMesh.mesh (F:=F)) (v : list (F * F * F)).

(** The weighted normals that a facet gives to its corners, in the order
    of the corners: the normal of the facet scaled by the angle at the
    corner times the area of the facet. *)
Definition facet_weights m (index : nat) (f : facet) : list (nat * (F * F * F)) :=
  match RenderMesh.mesh_normals m !! index, RenderMesh.mesh_areas m !! index,
        mapR (at_ (RenderMesh.mesh_points m)) (facet_points f) with
  | Some normal, Some area, Ok triangle =>
    zip (facet_points f) ((λ angle, fmul normal (mul angle area)) <$> angles triangle)
  | _, _, _ => []
  end.

Definition weighted_corners m : list (nat * (F * F * F)) :=
  mjoin (imap (facet_weights m) (RenderMesh.mesh_facets m)).

(** The sum of the weighted normals given to the point [p], from zero, in
    the order of the facets. *)
Definition vertex_sum m (p : nat) : F * F * F :=
  foldl add (zero, zero, zero)
    (snd <$> filter (λ pw, pw.1 = p) (weighted_corners m)).

Definition scatter_add v (pw : nat * (F * F * F)) : result (list (F * F * F)) :=
  x ← at_ v pw.1; Ok (<[pw.1 := add x pw.2]> v).

Lemma scatter_add_Ok v q w x :
  at_ v q = Ok x → scatter_add v (q, w) = Ok (<[q := add x w]> v).
Proof. unfold scatter_add. simpl. by intros ->. Qed.

Lemma scatter_spec (pws : list (nat * (F * F * F))) : ∀ v,
  (∀ pw, pw ∈ pws → pw.1 < length v) →
  ∃ v', foldlM scatter_add v pws = Ok v' ∧ length v' = length v ∧
    ∀ p x, v !! p = Some x →
      v' !! p = Some (foldl add x (snd <$> filter (λ pw, pw.1 = p) pws)).
Proof.
  induction pws as [|[q w] pws IH]; intros v Hlt.
  { exists v. by split_and!. }
  assert (Hq : q < length v) by (apply (Hlt (q, w)); left).
  destruct (at_lt v q Hq) as (x & Hat & Hx).
  destruct (IH (<[q := add x w]> v)) as (v' & Hrun & Hlen & Hsum).
  { intros pw Hpw. rewrite length_insert. apply Hlt. by right. }
  exists v'. split_and!.
  - cbn [foldlM]. rewrite (scatter_add_Ok _ _ _ _ Hat). cbn [mbind result_bind]. exact Hrun.
  - by rewrite Hlen, length_insert.
  - intros p y Hy. rewrite filter_cons. simpl. destruct (decide (q = p)) as [->|Hne].
    + csimpl. apply Hsum. rewrite list_lookup_insert_eq by done. congruence.
    + apply Hsum. by rewrite list_lookup_insert_ne.
Qed.

Lemma add_weighted_scatter normal area v (ps : list nat) (angs : list F) :
  foldlM (RenderMesh.add_weighted mul fmul add normal area) v (zip ps angs)
  = foldlM scatter_add v (zip ps ((λ angle, fmul normal (mul angle area)) <$> angs)).
Proof.
  revert v angs. induction ps as [|p ps IH]; intros v [|a angs]; csimpl; try done.
  unfold scatter_add at 2. simpl. destruct (at_ v p); simpl; [apply IH|done].
Qed.

Definition mesh_attributes_ok m : Prop :=
  length (RenderMesh.mesh_normals m) = length (RenderMesh.mesh_facets m) ∧
  length (RenderMesh.mesh_areas m) = length (RenderMesh.mesh_facets m).

Lemma add_facet_scatter m v i f :
  mesh_indices_ok m → mesh_attributes_ok m →
  RenderMesh.mesh_facets m !! i = Some f →
  RenderMesh.add_facet mul fmul add angles m v (i, f)
  = foldlM scatter_add v (facet_weights m i f) ∧
  ∀ pw, pw ∈ facet_weights m i f → pw.1 < length (RenderMesh.mesh_points m).
Proof.
  intros Hok [Hn Ha] Hf. unfold RenderMesh.add_facet, facet_weights.
  assert (Hi : i < length (RenderMesh.mesh_facets m)) by by eapply lookup_lt_Some.
  destruct (at_lt (RenderMesh.mesh_normals m) i) as (normal & -> & ->); [lia|].
  destruct (at_lt (RenderMesh.mesh_areas m) i) as (area & -> & ->); [lia|].
  destruct (mapR_total (at_ (RenderMesh.mesh_points m)) (facet_points f)) as [triangle ->].
  { intros p Hp. destruct (at_lt (RenderMesh.mesh_points m) p) as (x & ? & _); [|eauto].
    eapply mesh_indices_ok_alt; [done| |done]. by eapply list_elem_of_lookup_2. }
  cbn [mbind result_bind]. split; [apply add_weighted_scatter|].
  intros [p w] Hpw. simpl. apply elem_of_zip_l in Hpw.
  eapply mesh_indices_ok_alt; [done| |done]. by eapply list_elem_of_lookup_2.
Qed.

Lemma add_facets_scatter m (fs : list facet) : ∀ k v,
  mesh_indices_ok m → mesh_attributes_ok m →
  (∀ i f, fs !! i = Some f → RenderMesh.mesh_facets m !! (k + i) = Some f) →
  foldlM (RenderMesh.add_facet mul fmul add angles m) v (imap (λ i, pair (k + i)) fs)
  = foldlM scatter_add v (mjoin (imap (λ i, facet_weights m (k + i)) fs)) ∧
  ∀ pw, pw ∈ mjoin (imap (λ i, facet_weights m (k + i)) fs) →
        pw.1 < length (RenderMesh.mesh_points m).
Proof.
  induction fs as [|f fs IH]; intros k v Hok Hattr Hfs; csimpl.
  { split; [done|]. intros pw Hpw. by apply elem_of_nil in Hpw. }
  rewrite Nat.add_0_r.
  destruct (add_facet_scatter m v k f Hok Hattr) as [Hstep Hlt].
  { specialize (Hfs 0 f eq_refl). by rewrite Nat.add_0_r in Hfs. }
  assert (Himap : ∀ {B} (g : nat → facet → B),
            imap (g ∘ S) fs = imap (λ i, g (S i)) fs) by done.
  destruct (IH (S k) v Hok Hattr) as [_ Hlt'].
  { intros i f' Hi. rewrite Nat.add_succ_comm. by apply (Hfs (S i)). }
  split.
  - rewrite foldlM_app. cbn [foldlM]. unfold RenderMesh.add_facet in Hstep at 1.
    simpl in Hstep. rewrite Hstep.
    destruct (foldlM scatter_add v (facet_weights m k f)) as [v1|]; [|done].
    cbn [mbind result_bind].
    destruct (IH (S k) v1 Hok Hattr) as [IH1 _].
    { intros i f' Hi. rewrite Nat.add_succ_comm. by apply (Hfs (S i)). }
    assert (E1 : imap ((λ i : nat, @pair nat facet (k + i)) ∘ S) fs
                 = imap (λ i, pair (S k + i)) fs).
    { apply imap_ext. intros i f' _. simpl. f_equal. lia. }
    assert (E2 : imap ((λ i : nat, facet_weights m (k + i)) ∘ S) fs
                 = imap (λ i, facet_weights m (S k + i)) fs).
    { apply imap_ext. intros i f' _. simpl. f_equal. lia. }
    rewrite E1, E2. exact IH1.
  - intros pw Hpw. apply elem_of_app in Hpw as [Hpw|Hpw]; [by apply Hlt|].
    apply Hlt'. erewrite imap_ext; [exact Hpw|]. intros i f' _. simpl. f_equal. lia.
Qed.

(** The loop of [compute_vnormals]: it returns for every mesh whose facets
    index its points and have a normal and an area, and the vertex normal
    of each point is the normalised sum of the weighted normals that the
    facets give to this point. *)
Lemma compute_vnormals_run m :
  mesh_indices_ok m → mesh_attributes_ok m →
  ∃ m', RenderMesh.compute_vnormals zero mul fmul add angles safe_normalize m = Ok m' ∧
    RenderMesh.mesh_vnormals m'
    = (λ p, safe_normalize (vertex_sum m p)) <$> seq 0 (length (RenderMesh.mesh_points m)).
Proof.
  intros Hok Hattr. unfold RenderMesh.compute_vnormals.
  destruct (add_facets_scatter m (RenderMesh.mesh_facets m) 0
              (replicate (length (RenderMesh.mesh_points m)) (zero, zero, zero)) Hok Hattr)
    as [Hfold Hlt]; [done|].
  change (imap (λ i, pair (0 + i)) (RenderMesh.mesh_facets m))
    with (imap pair (RenderMesh.mesh_facets m)) in Hfold.
  rewrite Hfold.
  change (mjoin (imap (λ i, facet_weights m (0 + i)) (RenderMesh.mesh_facets m)))
    with (weighted_corners m) in *.
  destruct (scatter_spec (weighted_corners m)
              (replicate (length (RenderMesh.mesh_points m)) (zero, zero, zero)))
    as (v' & -> & Hlen & Hsum).
  { intros pw Hpw. rewrite length_replicate. by apply Hlt. }
  cbn [mbind result_bind]. eexists. split; [reflexivity|]. simpl.
  rewrite length_replicate in Hlen.
  apply list_eq. intros p. rewrite !list_lookup_fmap.
  destruct (decide (p < length (RenderMesh.mesh_points m))) as [Hp|Hp].
  - rewrite lookup_seq_lt by done. simpl.
    rewrite (Hsum p (zero, zero, zero)); [done|]. by apply lookup_replicate_2.
  - rewrite (lookup_ge_None_2 v') by lia. rewrite lookup_ge_None_2; [done|].
    rewrite length_seq. lia.
Qed.
End VNormals.

(** ** The vector helpers, over the real numbers *)

Module Vector3d.
Local Open Scope R_scope.

(** Modelled from the spec: [vector3d.dot] (the file
    [rendermesh_mp/vector3d.py] is missing), the dot product of two
    vectors. *)
Definition dot (a b : R * R * R) : R :=
  a.1.1 * b.1.1 + a.1.2 * b.1.2 + a.2 * b.2.

(** Modelled from the spec: [vector3d.add], the sum of two vectors. *)
Definition add (a b : R * R * R) : R * R * R :=
  (a.1.1 + b.1.1, a.1.2 + b.1.2, a.2 + b.2).

(** Modelled from the spec: [vector3d.sub], the edge vector from [b] to
    [a]. *)
Definition sub (a b : R * R * R) : R * R * R :=
  (a.1.1 - b.1.1, a.1.2 - b.1.2, a.2 - b.2).

(** Modelled from the spec: [vector3d.fmul], a vector scaled by a number. *)
Definition fmul (a : R * R * R) (k : R) : R * R * R :=
  (a.1.1 * k, a.1.2 * k, a.2 * k).

(** Modelled from the spec: [vector3d.length], the length of a vector. *)
Definition length (a : R * R * R) : R := sqrt (dot a a).

(** Modelled from the spec: [vector3d.safe_normalize], which normalizes a
    vector and maps a zero-length vector to the zero vector, never dividing
    by zero. *)
Definition safe_normalize (a : R * R * R) : R * R * R :=
  if Req_dec_T (length a) 0 then (0, 0, 0)
  else (a.1.1 / length a, a.1.2 / length a, a.2 / length a).

(** Modelled from the spec: the dot product is clipped to [-1, 1]. *)
Definition clip (x : R) : R := Rmax (-1) (Rmin 1 x).

(** Modelled from the spec: the interior angle, the arccos of the clipped
    dot product of the normalized edge vectors. *)
Definition angle (u v : R * R * R) : R :=
  acos (clip (dot (safe_normalize u) (safe_normalize v))).

(** Modelled from the spec: [vector3d.angles], the interior angles of a
    triangle at its three vertices, in the order of the vertices. *)
Definition angles (triangle : list (R * R * R)) : list R :=
  match triangle with
  | [p0; p1; p2] =>
    [angle (sub p1 p0) (sub p2 p0);
     angle (sub p0 p1) (sub p2 p1);
     angle (sub p0 p2) (sub p1 p2)]
  | _ => []
  end.

(** [<] on real numbers. *)
Definition lt (x y : R) : bool := if Rlt_dec x y then true else false.
End Vector3d.


(** One triangle in the plane [z = 0]. *)
Definition triangle_mesh : RenderMesh.mesh (F:=R) :=
  RenderMesh.Mesh [(0, 0, 0); (1, 0, 0); (0, 1, 0)]%R [(0, 1, 2)] [(0, 0, 1)%R]
    [(1 / 2)%R] [] [].


(** ** Meshes with integer coordinates

    Python computes with integers as it does with floats, exactly: these
    instances of the parameters are used for the examples. *)

Definition int_dot (a b : Z * Z * Z) : Z :=
  (a.1.1 * b.1.1 + a.1.2 * b.1.2 + a.2 * b.2)%Z.

Definition int_lt (x y : Z) : bool := bool_decide (x < y)%Z.

Definition int_ge (x y : Z) : bool := bool_decide (y ≤ x)%Z.

(** [math.cos] at the angle 0, the split angle of the examples. *)
Definition cos_at_0 (split_angle : Z) : Z := 1.

(** The unit cube: 8 points, 12 facets, with the normals of its faces. *)
Definition cube : RenderMesh.mesh (F:=Z) :=
  RenderMesh.Mesh
    [(0, 0, 0); (1, 0, 0); (0, 1, 0); (1, 1, 0);
     (0, 0, 1); (1, 0, 1); (0, 1, 1); (1, 1, 1)]%Z
    [(0, 2, 3); (0, 3, 1); (4, 5, 7); (4, 7, 6); (0, 1, 5); (0, 5, 4);
     (2, 6, 7); (2, 7, 3); (0, 4, 6); (0, 6, 2); (1, 3, 7); (1, 7, 5)]
    [(0, 0, -1); (0, 0, -1); (0, 0, 1); (0, 0, 1); (0, -1, 0); (0, -1, 0);
     (0, 1, 0); (0, 1, 0); (-1, 0, 0); (-1, 0, 0); (1, 0, 0); (1, 0, 0)]%Z
    (replicate 12 1%Z) [] [].

(** The cube has six components, one per face, and 24 points once they
    are separated. *)
Example cube_components :
  RenderMesh.connected_components ascending int_dot int_lt cos_at_0 cube 0%Z
  = Ok ([Some 0; Some 0; Some 1; Some 1; Some 2; Some 2;
         Some 3; Some 3; Some 4; Some 4; Some 5; Some 5], Some 5) ∧
  (λ m, length (RenderMesh.mesh_points m)) <$>
    (match RenderMesh.separate_connected_components ascending int_dot int_lt cos_at_0 cube 0%Z
     with Ok m => Some m | Raise _ => None end) = Some 24.
Proof. split; vm_compute; reflexivity. Qed.

Lemma separate_connected_components_spec_witness :
  ∃ (m' : @RenderMesh.mesh Z) (keys : list (nat * option nat)),
    RenderMesh.separate_connected_components ascending int_dot int_lt cos_at_0 cube 0%Z
      = Ok m' ∧
    NoDup keys ∧ length (RenderMesh.mesh_points m') = length keys ∧
    (∀ f p, f ∈ RenderMesh.mesh_facets m' → p ∈ facet_points f →
       p < length (RenderMesh.mesh_points m')).
Proof.
  destruct (separate_connected_components_spec ascending int_dot int_lt cos_at_0 cube 0%Z
    [Some 0; Some 0; Some 1; Some 1; Some 2; Some 2;
     Some 3; Some 3; Some 4; Some 4; Some 5; Some 5] (Some 5))
    as (m' & keys & Hrun & Hnd & _ & Hlen & _ & _ & _ & _ & _ & Hok).
  - unfold mesh_indices_ok. vm_compute. repeat constructor.
  - left. reflexivity.
  - vm_compute. reflexivity.
  - exists m', keys. split_and!; assumption.
Defined.

Lemma autosmooth_twice_witness :
  ∃ m1 : @RenderMesh.mesh R,
    RenderMesh.autosmooth ascending Vector3d.dot Vector3d.lt Rtrigo_def.cos 0%R Rmult
      Vector3d.fmul Vector3d.add Vector3d.angles Vector3d.safe_normalize
      triangle_mesh (PI / 6)%R = Ok m1 ∧
    RenderMesh.autosmooth ascending Vector3d.dot Vector3d.lt Rtrigo_def.cos 0%R Rmult
      Vector3d.fmul Vector3d.add Vector3d.angles Vector3d.safe_normalize
      m1 (PI / 6)%R = Ok m1.
Proof.
  eexists. split; [reflexivity|].
  apply (autosmooth_twice ascending Vector3d.dot Vector3d.lt Rtrigo_def.cos 0%R Rmult
           Vector3d.fmul Vector3d.add Vector3d.angles Vector3d.safe_normalize
           triangle_mesh _ (PI / 6)%R (Some 0) (Some 0)).
  - repeat constructor.
  - left. reflexivity.
  - reflexivity.
  - reflexivity.
Defined.

(** ** The facets of each point *)

Lemma foldlM_Ok_ind {A B} (f : A → B → result A) (P : A → Prop) l : ∀ a,
  P a → (∀ a x, x ∈ l → P a → ∃ a', f a x = Ok a' ∧ P a') →
  ∃ a', foldlM f a l = Ok a' ∧ P a'.
Proof.
  induction l as [|x l IH]; intros a Ha Hstep; simpl; [eauto|].
  destruct (Hstep a x) as (a1 & -> & Ha1); [left|done|]. simpl.
  apply IH; [done|]. intros a2 y Hy. apply Hstep. by right.
Qed.

Lemma elem_of_facet_corners facets fi p :
  (fi, p) ∈ facet_corners facets ↔
  ∃ f, facets !! fi = Some f ∧ p ∈ facet_points f.
Proof.
  unfold facet_corners. rewrite list_elem_of_join. split.
  - intros (l & Hin & Hl). apply elem_of_lookup_imap in Hl as (i & f & -> & Hf).
    apply list_elem_of_fmap in Hin as (p' & [= -> ->] & Hp). eauto.
  - intros (f & Hf & Hp). exists (pair fi <$> facet_points f). split.
    + apply list_elem_of_fmap. eauto.
    + apply elem_of_lookup_imap. eauto.
Qed.

Lemma fpp_reducer_Ok fpp fi p l :
  at_ fpp p = Ok l → fpp_reducer fpp (fi, p) = Ok (<[p := l ++ [fi]]> fpp).
Proof. unfold fpp_reducer. by intros ->. Qed.

Lemma fpp_fold (cs : list (nat * nat)) : ∀ fpp,
  (∀ fi p, (fi, p) ∈ cs → p < length fpp) →
  ∃ fpp', foldlM fpp_reducer fpp cs = Ok fpp' ∧ length fpp' = length fpp ∧
    ∀ p l, fpp !! p = Some l →
      ∃ l', fpp' !! p = Some l' ∧ ∀ fi, fi ∈ l' ↔ fi ∈ l ∨ (fi, p) ∈ cs.
Proof.
  induction cs as [|[fi p] cs IH]; intros fpp Hlt.
  { exists fpp. split_and!; [done|done|]. intros p l Hl. exists l. split; [done|].
    intros fi. rewrite elem_of_nil. tauto. }
  assert (Hp : p < length fpp) by (apply (Hlt fi); left).
  destruct (at_lt fpp p Hp) as (l0 & Hat & Hl0).
  destruct (IH (<[p := l0 ++ [fi]]> fpp)) as (fpp' & Hrun & Hlen & Hsp).
  { intros fi' p' Hin. rewrite length_insert. apply (Hlt fi'). by right. }
  exists fpp'. split_and!.
  - cbn [foldlM]. rewrite (fpp_reducer_Ok _ _ _ _ Hat). cbn [mbind result_bind]. exact Hrun.
  - by rewrite Hlen, length_insert.
  - intros q l Hl. destruct (decide (p = q)) as [->|Hne].
    + destruct (Hsp q (l0 ++ [fi])) as (l' & Hl' & Hmem).
      { by rewrite list_lookup_insert_eq. }
      exists l'. split; [done|]. intros fi'. rewrite Hmem, elem_of_app, list_elem_of_singleton,
        elem_of_cons. simplify_eq. naive_solver.
    + destruct (Hsp q l) as (l' & Hl' & Hmem).
      { by rewrite list_lookup_insert_ne. }
      exists l'. split; [done|]. intros fi'. rewrite Hmem, elem_of_cons. naive_solver.
Qed.

(** [facets_per_point] returns when every point index of a facet is below
    the number of points, and lists for each point the facets that have
    it as a vertex. *)
Lemma facets_per_point_spec count_points facets :
  Forall (λ f, Forall (λ p, p < count_points) (facet_points f)) facets →
  ∃ fpp, facets_per_point count_points facets = Ok fpp ∧
    length fpp = count_points ∧
    ∀ p, p < count_points →
      ∃ l, fpp !! p = Some l ∧
        ∀ fi, fi ∈ l ↔ ∃ f, facets !! fi = Some f ∧ p ∈ facet_points f.
Proof.
  intros Hok. unfold facets_per_point.
  destruct (fpp_fold (facet_corners facets) (replicate count_points [])) as (fpp & Hrun & Hlen & Hsp).
  { intros fi p Hin. rewrite length_replicate. apply elem_of_facet_corners in Hin as (f & Hf & Hp).
    rewrite Forall_forall in Hok. specialize (Hok f (list_elem_of_lookup_2 _ _ _ Hf)).
    rewrite Forall_forall in Hok. by apply Hok. }
  rewrite length_replicate in Hlen. exists fpp. split_and!; [done|done|].
  intros p Hp. destruct (Hsp p []) as (l & Hl & Hmem); [by apply lookup_replicate_2|].
  exists l. split; [done|]. intros fi. rewrite Hmem, elem_of_nil, elem_of_facet_corners. tauto.
Qed.

(** ** The adjacency lists of [RenderMesh.adjacent_facets] *)

(** [adj'] is [adj] with the pairs of [S] added to its rows. *)
Definition rows_extend (S : nat → nat → Prop) (adj adj' : list (list nat)) : Prop :=
  length adj' = length adj ∧
  ∀ a row, adj !! a = Some row →
    ∃ row', adj' !! a = Some row' ∧ (NoDup row → NoDup row') ∧
      ∀ b, b ∈ row' ↔ b ∈ row ∨ S a b.

Lemma rows_extend_refl adj : rows_extend (λ _ _, False) adj adj.
Proof. split; [done|]. intros a row Ha. exists row. naive_solver. Qed.

Lemma rows_extend_trans S1 S2 adj adj1 adj2 :
  rows_extend S1 adj adj1 → rows_extend S2 adj1 adj2 →
  rows_extend (λ a b, S1 a b ∨ S2 a b) adj adj2.
Proof.
  intros [Hl1 H1] [Hl2 H2]. split; [congruence|]. intros a row Ha.
  destruct (H1 a row Ha) as (row1 & Ha1 & Hnd1 & Hm1).
  destruct (H2 a row1 Ha1) as (row2 & Ha2 & Hnd2 & Hm2).
  exists row2. split_and!; [done|tauto|]. intros b. rewrite Hm2, Hm1. tauto.
Qed.

Lemma rows_extend_iff S S' adj adj' :
  (∀ a b, S a b ↔ S' a b) → rows_extend S adj adj' → rows_extend S' adj adj'.
Proof.
  intros HS [Hl H]. split; [done|]. intros a row Ha.
  destruct (H a row Ha) as (row' & ? & ? & Hm). exists row'. split_and!; [done..|].
  intros b. rewrite Hm, HS. tauto.
Qed.

Lemma set_add_NoDup x s : NoDup s → NoDup (set_add x s).
Proof.
  unfold set_add. intros Hs. case_decide; [done|].
  apply NoDup_app. split_and!; [done| |apply NoDup_singleton].
  intros y Hy ->%list_elem_of_singleton. done.
Qed.

Lemma elem_of_set_add y x s : y ∈ set_add x s ↔ y ∈ s ∨ y = x.
Proof.
  unfold set_add. case_decide.
  - naive_solver.
  - rewrite elem_of_app, list_elem_of_singleton. tauto.
Qed.

Lemma reduce_adj_extend adj a b :
  a < length adj →
  ∃ adj', reduce_adj adj (a, b) = Ok adj' ∧
    rows_extend (λ a' b', a' = a ∧ b' = b) adj adj'.
Proof.
  intros Ha. destruct (at_lt adj a Ha) as (s & Hat & Hs).
  exists (<[a := set_add b s]> adj). split.
  { unfold reduce_adj. by rewrite Hat. }
  split; [by rewrite length_insert|]. intros a' row Ha'.
  destruct (decide (a = a')) as [<-|Hne].
  - exists (set_add b s). rewrite list_lookup_insert_eq by done.
    assert (row = s) as -> by congruence.
    split_and!; [done|apply set_add_NoDup|]. intros b'. rewrite elem_of_set_add. naive_solver.
  - exists row. rewrite list_lookup_insert_ne by done. naive_solver.
Qed.

Lemma foldlM_rows_extend {B} (f : list (list nat) → B → result (list (list nat)))
    (S : B → nat → nat → Prop) (n : nat) (l : list B) :
  (∀ adj x, x ∈ l → length adj = n →
     ∃ adj', f adj x = Ok adj' ∧ rows_extend (S x) adj adj') →
  ∀ adj, length adj = n →
    ∃ adj', foldlM f adj l = Ok adj' ∧
      rows_extend (λ a b, ∃ x, x ∈ l ∧ S x a b) adj adj'.
Proof.
  induction l as [|x l IH]; intros Hf adj Hn.
  { exists adj. split; [done|]. eapply rows_extend_iff; [|apply rows_extend_refl].
    intros a b. split; [done|]. intros (x & Hx & _). by apply elem_of_nil in Hx. }
  destruct (Hf adj x) as (adj1 & Hrun1 & Hext1); [left|done|].
  destruct (IH (λ adj y Hy, Hf adj y (list_elem_of_further _ _ _ Hy)) adj1)
    as (adj2 & Hrun2 & Hext2).
  { destruct Hext1 as [-> _]. done. }
  exists adj2. split.
  { cbn [foldlM]. rewrite Hrun1. exact Hrun2. }
  eapply rows_extend_iff; [|exact (rows_extend_trans _ _ _ _ _ Hext1 Hext2)].
  intros a b. cbn beta. setoid_rewrite elem_of_cons. naive_solver.
Qed.

Lemma set_inter_nonempty s1 s2 :
  length (set_inter s1 s2) = 2 → ∃ p, p ∈ s1 ∧ p ∈ s2.
Proof.
  unfold set_inter. destruct (filter _ s1) as [|p l] eqn:E; [done|]. intros _.
  exists p. assert (Hp : p ∈ filter (λ p, p ∈ s2) s1) by (rewrite E; left).
  apply list_elem_of_filter in Hp. tauto.
Qed.

Section AdjacentFacets.
Context {F : Type}.
Variable set_iter : list nat → list nat.
Hypothesis set_iter_perm : ∀ l, set_iter l ≡ₚ l.
Implicit Types m : RenderMesh.mesh (F:=F).

Lemma adjacent_others_extend facets facet_idx facet adj others :
  facet_idx < length adj →
  (∀ o, o ∈ others → o < length facets) →
  ∃ adj', RenderMesh.adjacent_others facets facet_idx facet adj others = Ok adj' ∧
    rows_extend (λ a b, a = facet_idx ∧ b ∈ others ∧
       ∃ other, facets !! b = Some other ∧ length (set_inter facet other) = 2) adj adj'.
Proof.
  intros Ha Hothers. unfold RenderMesh.adjacent_others.
  edestruct (foldlM_rows_extend
    (λ adjacents other_idx,
       other ← at_ facets other_idx;
       if decide (length (set_inter facet other) = 2)
       then reduce_adj adjacents (facet_idx, other_idx) else Ok adjacents)
    (λ o a b, a = facet_idx ∧ b = o ∧
       ∃ other, facets !! b = Some other ∧ length (set_inter facet other) = 2)
    (length adj) others) as (adj' & Hrun & Hext); [|reflexivity|].
  { intros adj1 o Ho Hlen. destruct (at_lt facets o (Hothers o Ho)) as (other & -> & Hother).
    cbn [mbind result_bind]. case_decide as Hd.
    - destruct (reduce_adj_extend adj1 facet_idx o) as (adj2 & -> & Hext); [lia|].
      exists adj2. split; [done|]. eapply rows_extend_iff; [|exact Hext]. naive_solver.
    - exists adj1. split; [done|]. eapply rows_extend_iff; [|apply rows_extend_refl].
      naive_solver. }
  exists adj'. split; [exact Hrun|]. eapply rows_extend_iff; [|exact Hext].
  cbn beta. naive_solver.
Qed.

Lemma adjacent_points_extend fpp facets adj facet_idx facet :
  facet_idx < length adj →
  (∀ p, p ∈ facet → ∃ others, fpp !! p = Some others ∧ ∀ o, o ∈ others → o < length facets) →
  ∃ adj', RenderMesh.adjacent_points set_iter fpp facets adj (facet_idx, facet) = Ok adj' ∧
    rows_extend (λ a b, a = facet_idx ∧
       ∃ p others other, p ∈ facet ∧ fpp !! p = Some others ∧ b ∈ others ∧
         facets !! b = Some other ∧ length (set_inter facet other) = 2) adj adj'.
Proof.
  intros Ha Hfpp. unfold RenderMesh.adjacent_points.
  edestruct (foldlM_rows_extend
    (λ adjacents point_idx,
       others ← at_ fpp point_idx;
       RenderMesh.adjacent_others facets facet_idx facet adjacents others)
    (λ p a b, a = facet_idx ∧
       ∃ others other, fpp !! p = Some others ∧ b ∈ others ∧
         facets !! b = Some other ∧ length (set_inter facet other) = 2)
    (length adj) (set_iter facet)) as (adj' & Hrun & Hext); [|reflexivity|].
  { intros adj1 p Hp Hlen. rewrite set_iter_perm in Hp.
    destruct (Hfpp p Hp) as (others & Hothers & Hlt).
    apply at_Ok in Hothers as Hat. rewrite Hat. cbn [mbind result_bind].
    destruct (adjacent_others_extend facets facet_idx facet adj1 others) as (adj2 & -> & Hext);
      [lia|done|].
    exists adj2. split; [done|]. eapply rows_extend_iff; [|exact Hext].
    cbn beta. naive_solver. }
  exists adj'. split; [exact Hrun|]. eapply rows_extend_iff; [|exact Hext].
  cbn beta. intros a b. setoid_rewrite set_iter_perm. naive_solver.
Qed.

(** [adjacent_facets] returns on a mesh whose facets index its points, with
    one duplicate-free row per facet: the facets that share exactly two
    points with it. No normal is read. *)
Lemma adjacent_facets_spec m :
  mesh_indices_ok m →
  ∃ adj, RenderMesh.adjacent_facets set_iter m = Ok adj ∧
    length adj = length (RenderMesh.mesh_facets m) ∧
    ∀ a, a < length (RenderMesh.mesh_facets m) →
      ∃ row, adj !! a = Some row ∧ NoDup row ∧
        ∀ b, b ∈ row ↔
          ∃ fa fb, RenderMesh.mesh_facets m !! a = Some fa ∧
                   RenderMesh.mesh_facets m !! b = Some fb ∧ share_edge fa fb.
Proof.
  intros Hok. unfold RenderMesh.adjacent_facets.
  destruct (facets_per_point_spec _ _ Hok) as (fpp & -> & Hlen & Hfpp).
  cbn [mbind result_bind].
  set (facets := (λ f, remove_dups (facet_points f)) <$> RenderMesh.mesh_facets m).
  assert (Hfacets : ∀ i s, facets !! i = Some s ↔
    ∃ f, RenderMesh.mesh_facets m !! i = Some f ∧ s = remove_dups (facet_points f)).
  { intros i s. unfold facets. rewrite list_lookup_fmap.
    destruct (RenderMesh.mesh_facets m !! i); naive_solver. }
  edestruct (foldlM_rows_extend
    (RenderMesh.adjacent_points set_iter fpp facets)
    (λ (x : nat * list nat) a b, a = x.1 ∧
       ∃ p others other, p ∈ x.2 ∧ fpp !! p = Some others ∧ b ∈ others ∧
         facets !! b = Some other ∧ length (set_inter x.2 other) = 2)
    (length (RenderMesh.mesh_facets m)) (imap pair facets)
    ) as (adj & Hrun & Hlen' & Hext); [|apply length_replicate|].
  { intros adj1 [i s] Hin Hlen1. apply elem_of_lookup_imap in Hin as (i' & s' & [= <- <-] & Hs).
    apply Hfacets in Hs as Hf. destruct Hf as (f & Hf & ->).
    apply adjacent_points_extend.
    - rewrite Hlen1. by eapply lookup_lt_Some.
    - intros p Hp. cbn in Hp. rewrite elem_of_remove_dups in Hp.
      assert (Hplt : p < length (RenderMesh.mesh_points m)).
      { apply (proj1 (mesh_indices_ok_alt m) Hok f p); [|done].
        by eapply list_elem_of_lookup_2. }
      destruct (Hfpp p Hplt) as (l & Hl & Hmem). exists l. split; [done|].
      intros o (fo & Hfo & _)%Hmem. unfold facets. rewrite length_fmap.
      by eapply lookup_lt_Some. }
  exists adj. rewrite length_replicate in Hlen'. split_and!; [exact Hrun|done|].
  intros a Ha. destruct (Hext a []) as (row & Hrow & Hnd & Hmem).
  { by apply lookup_replicate_2. }
  exists row. split_and!; [done|apply Hnd, NoDup_nil_2|].
  intros b. rewrite Hmem, elem_of_nil. split.
  - intros [[]|([i s] & Hin & -> & p & others & other & Hp & Hothers & Hb & Hother & Hinter)].
    apply elem_of_lookup_imap in Hin as (i' & s' & [= <- <-] & Hs). cbn in *.
    apply Hfacets in Hs as (fa & Hfa & ->). apply Hfacets in Hother as (fb & Hfb & ->).
    exists fa, fb. split_and!; [done..|]. unfold share_edge. by apply bool_decide_pack.
  - intros (fa & fb & Hfa & Hfb & Hshare). right.
    unfold share_edge in Hshare. apply bool_decide_unpack in Hshare.
    destruct (set_inter_nonempty _ _ Hshare) as (p & Hpa & Hpb).
    exists (a, remove_dups (facet_points fa)). split.
    { apply elem_of_lookup_imap. exists a, (remove_dups (facet_points fa)).
      split; [done|]. apply Hfacets. eauto. }
    split; [done|]. cbn.
    assert (Hplt : p < length (RenderMesh.mesh_points m)).
    { apply (proj1 (mesh_indices_ok_alt m) Hok fa p); [|by apply elem_of_remove_dups].
      by eapply list_elem_of_lookup_2. }
    destruct (Hfpp p Hplt) as (l & Hl & Hmem').
    exists p, l, (remove_dups (facet_points fb)). split_and!; [done|done| | |done].
    + apply Hmem'. exists fb. split; [done|]. by apply elem_of_remove_dups.
    + apply Hfacets. eauto.
Qed.

End AdjacentFacets.

Lemma set_inter_length_comm s1 s2 :
  NoDup s1 → NoDup s2 → length (set_inter s1 s2) = length (set_inter s2 s1).
Proof.
  intros H1 H2. apply Permutation_length, NoDup_Permutation.
  - by apply NoDup_filter.
  - by apply NoDup_filter.
  - intros x. unfold set_inter. rewrite !list_elem_of_filter. tauto.
Qed.

(** Sharing an edge is symmetric. *)
Lemma share_edge_sym f1 f2 : share_edge f1 f2 = share_edge f2 f1.
Proof.
  unfold share_edge. apply bool_decide_ext.
  by rewrite set_inter_length_comm by apply NoDup_remove_dups.
Qed.

Lemma rtsc_subrel {A} (R1 R2 : relation A) a b :
  (∀ x y, R1 x y → R2 x y) → rtsc R1 a b → rtsc R2 a b.
Proof.
  intros Hsub. induction 1 as [|x y z Hxy _ IH]; [apply rtc_refl|].
  eapply rtc_l; [|exact IH]. destruct Hxy; [left|right]; by apply Hsub.
Qed.

(** ** The components of [RenderMesh.connected_components] *)

Section ConnectedComponents.
Context {F : Type}.
Variable set_iter : list nat → list nat.
Variable dot : F * F * F → F * F * F → F.
Variable flt : F → F → bool.
Variable cos : F → F.
Hypothesis set_iter_perm : ∀ l, set_iter l ≡ₚ l.
Implicit Types m : RenderMesh.mesh (F:=F).

Lemma set_pop_None l : RenderMesh.set_pop set_iter l = None → l = [].
Proof.
  unfold RenderMesh.set_pop. destruct (set_iter l) eqn:E; [|done]. intros _.
  apply Permutation_nil_r. by rewrite <- E, set_iter_perm.
Qed.

Lemma set_pop_Some l x l' :
  RenderMesh.set_pop set_iter l = Some (x, l') →
  (∀ y, y ∈ l ↔ y = x ∨ y ∈ l') ∧ length l' < length l.
Proof.
  unfold RenderMesh.set_pop. destruct (set_iter l) as [|x0 r] eqn:E; [done|].
  intros [= -> <-].
  assert (Hx : x ∈ l) by (rewrite <- set_iter_perm, E; left).
  split.
  - intros y. rewrite list_elem_of_filter. destruct (decide (y = x)); naive_solver.
  - apply list_elem_of_lookup in Hx as [i Hi].
    eapply (length_filter_lt _ _ x); [by eapply list_elem_of_lookup_2|]. naive_solver.
Qed.

(** Facets [a] and [b] are joined by the traversal: [b] is in the adjacency
    set of [a] and the dot product of their normals is not below the
    cosine of the split angle. *)
Definition adjacency_edge m (split_angle_cos : F) (adjacents : list (list nat))
    (a b : nat) : Prop :=
  ∃ row na nb, adjacents !! a = Some row ∧ b ∈ row ∧
    RenderMesh.mesh_normals m !! a = Some na ∧
    RenderMesh.mesh_normals m !! b = Some nb ∧
    flt (dot na nb) split_angle_cos = false.

Lemma adjacency_edge_edge m c adjacents a b :
  adjacency_edge m c adjacents a b ↔
  edge (RenderMesh.enter_normal m) (RenderMesh.test_angle dot flt m c) adjacents a b.
Proof.
  unfold adjacency_edge, edge, passes, RenderMesh.enter_normal, RenderMesh.test_angle.
  split.
  - intros (row & na & nb & Hrow & Hb & Hna & Hnb & Hflt).
    exists row. split_and!; [done..|]. exists na, nb. rewrite at_Ok, Hnb, Hflt. done.
  - intros (row & Hrow & Hb & cn & sn & Hcn%at_Ok & Htest).
    destruct (RenderMesh.mesh_normals m !! b) as [nb|] eqn:Hnb; [|done].
    destruct (flt (dot cn nb) c) eqn:Hflt; [done|].
    exists row, cn, nb. done.
Qed.

(** C3. On a mesh whose facets index its points and have one normal each,
    [connected_components] returns and gives every facet a tag; two facets
    have the same tag if and only if a path of adjacency edges joins them.
    The adjacency table is the one of [adjacent_facets]; an edge is an
    entry of the table that passes the test of the angle. *)
Theorem connected_components_paths m split_angle :
  mesh_indices_ok m →
  length (RenderMesh.mesh_normals m) = length (RenderMesh.mesh_facets m) →
  (∀ u v, dot u v = dot v u) →
  ∃ adjacents tags last,
    RenderMesh.adjacent_facets set_iter m = Ok adjacents ∧
    RenderMesh.connected_components set_iter dot flt cos m split_angle = Ok (tags, last) ∧
    length tags = length (RenderMesh.mesh_facets m) ∧
    (∀ a, a < length (RenderMesh.mesh_facets m) → ∃ t, tags !! a = Some (Some t)) ∧
    ∀ a b ta tb, tags !! a = Some (Some ta) → tags !! b = Some (Some tb) →
      (ta = tb ↔ rtsc (adjacency_edge m (cos split_angle) adjacents) a b).
Proof.
  intros Hok Hnormals Hdot.
  destruct (adjacent_facets_spec set_iter set_iter_perm m Hok) as (adj & Hadj & Hlen & Hrows).
  destruct (components_loop_spec (RenderMesh.set_pop set_iter) (RenderMesh.enter_normal m)
    (RenderMesh.test_angle dot flt m (cos split_angle)) set_pop_None set_pop_Some)
    with (adj0 := adj) (lo := 0) as (next & adjacents' & tags & Hrun & Hlen' & Htagged & Hsame).
  - intros cn s sn. unfold RenderMesh.test_angle, RenderMesh.enter_normal.
    destruct (RenderMesh.mesh_normals m !! s) as [n|] eqn:Hn; [|done].
    destruct (flt _ _); [done|]. intros [= <-]. by apply at_Ok.
  - intros a b. rewrite <- !adjacency_edge_edge.
    intros (row & na & nb & Hrow & Hb & Hna & Hnb & Hflt).
    assert (Ha : a < length (RenderMesh.mesh_facets m)).
    { rewrite <- Hlen. by eapply lookup_lt_Some. }
    destruct (Hrows a Ha) as (row' & Hrow' & _ & Hmem).
    assert (row' = row) as -> by congruence.
    apply Hmem in Hb as (fa & fb & Hfa & Hfb & Hshare).
    destruct (Hrows b) as (rowb & Hrowb & _ & Hmemb); [by eapply lookup_lt_Some|].
    exists rowb, nb, na. split_and!; [done| |done|done|by rewrite Hdot].
    apply Hmemb. exists fb, fa. by rewrite share_edge_sym.
  - intros a Ha. unfold RenderMesh.enter_normal.
    destruct (at_lt (RenderMesh.mesh_normals m) a) as (n & Hn & _); [lia|]. eauto.
  - exists adj, tags, (match next with 0 => None | S tag => Some tag end).
    split_and!; [done| |lia| |].
    + unfold RenderMesh.connected_components. rewrite Hadj. cbn [mbind result_bind].
      rewrite <- Hlen, Hrun. done.
    + intros a Ha. destruct (Htagged a) as (t & Ht & _); [lia|]. eauto.
    + intros a b ta tb Hta Htb. rewrite (Hsame a b ta tb Hta Htb).
      split; apply rtsc_subrel; intros x y; by rewrite adjacency_edge_edge.
Qed.

End ConnectedComponents.

Lemma ascending_perm l : ascending l ≡ₚ l.
Proof. apply merge_sort_Permutation. Qed.

Lemma connected_components_paths_witness :
  ∃ adjacents tags last,
    RenderMesh.adjacent_facets ascending cube = Ok adjacents ∧
    RenderMesh.connected_components ascending int_dot int_lt cos_at_0 cube 0%Z
      = Ok (tags, last) ∧
    length tags = length (RenderMesh.mesh_facets cube) ∧
    (∀ a, a < length (RenderMesh.mesh_facets cube) → ∃ t, tags !! a = Some (Some t)) ∧
    ∀ a b ta tb, tags !! a = Some (Some ta) → tags !! b = Some (Some tb) →
      (ta = tb ↔ rtsc (adjacency_edge int_dot int_lt cube (cos_at_0 0%Z) adjacents) a b).
Proof.
  apply (connected_components_paths ascending int_dot int_lt cos_at_0 ascending_perm cube 0%Z).
  - unfold mesh_indices_ok. vm_compute. repeat constructor.
  - reflexivity.
  - intros [[u1 u2] u3] [[v1 v2] v3]. unfold int_dot. cbn. lia.
Defined.

(** ** Tables with three slots per facet *)

(** The three slots of facet [a] in a flat table. *)
Definition table_row {A} (table : list A) (a : nat) : list A :=
  slice (3 * a) (3 * a + 3) table.

Lemma table_row_lookup {A} (table : list A) a i :
  table_row table a !! i = if decide (i < 3) then table !! (3 * a + i) else None.
Proof.
  unfold table_row, slice. replace (3 * a + 3 - 3 * a) with 3 by lia.
  case_decide.
  - rewrite lookup_take_lt by done. by rewrite lookup_drop.
  - by rewrite lookup_take_ge by lia.
Qed.

Lemma table_row_ext {A} (t1 t2 : list A) a b :
  (∀ i, i < 3 → t1 !! (3 * a + i) = t2 !! (3 * b + i)) → table_row t1 a = table_row t2 b.
Proof.
  intros H. apply list_eq. intros i. rewrite !table_row_lookup. case_decide; [auto|done].
Qed.

Lemma table_row_length {A} (table : list A) a :
  3 * a + 3 ≤ length table → length (table_row table a) = 3.
Proof. intros H. unfold table_row, slice. rewrite length_take, length_drop. lia. Qed.

Lemma unpack_row_Ok adjacency a :
  3 * a + 3 ≤ length adjacency → unpack_row adjacency a = Ok (table_row adjacency a).
Proof. intros H. unfold unpack_row. by rewrite decide_True by lia. Qed.

Lemma lookup_join_rows {A} (rows : list (list A)) : ∀ k i,
  Forall (λ r, length r = 3) rows → i < 3 →
  mjoin rows !! (3 * k + i) = rows !! k ≫= (.!! i).
Proof.
  induction rows as [|r rows IH]; intros k i Hrows Hi; [done|].
  apply Forall_cons in Hrows as [Hr Hrows].
  change (mjoin (r :: rows)) with (r ++ mjoin rows). destruct k as [|k].
  - rewrite lookup_app_l by lia. by replace (3 * 0 + i) with i by lia.
  - rewrite lookup_app_r by lia. replace (3 * S k + i - length r) with (3 * k + i) by lia.
    by apply IH.
Qed.

Lemma length_join_rows {A} (rows : list (list A)) :
  Forall (λ r, length r = 3) rows → length (mjoin rows) = 3 * length rows.
Proof.
  induction 1 as [|r rows Hr _ IH]; [done|].
  change (mjoin (r :: rows)) with (r ++ mjoin rows). rewrite length_app, length_cons. lia.
Qed.

Lemma table_row_join {A} (rows : list (list A)) k r :
  Forall (λ r, length r = 3) rows → rows !! k = Some r → table_row (mjoin rows) k = r.
Proof.
  intros Hrows Hr. apply list_eq. intros i. rewrite table_row_lookup. case_decide.
  - rewrite lookup_join_rows by done. by rewrite Hr.
  - symmetry. apply lookup_ge_None. rewrite Forall_forall in Hrows.
    rewrite (Hrows r) by (by eapply list_elem_of_lookup_2). lia.
Qed.

(** Writing the rows of the facets [start .. stop - 1] leaves the other
    rows as they are. *)
Lemma assign_slice_rows {A} start stop (rows : list (list A)) arr n :
  length arr = 3 * n → start ≤ stop ≤ n → length rows = stop - start →
  Forall (λ r, length r = 3) rows →
  ∃ arr', assign_slice (start * 3) (stop * 3) (mjoin rows) arr = Ok arr' ∧
    length arr' = 3 * n ∧
    (∀ a r, rows !! a = Some r → table_row arr' (start + a) = r) ∧
    (∀ a, ¬ start ≤ a < stop → table_row arr' a = table_row arr a).
Proof.
  intros Harr Hchunk Hlen Hrows. unfold assign_slice.
  pose proof (length_join_rows rows Hrows) as Hjoin.
  assert ((start * 3) `min` length arr = 3 * start) as -> by lia.
  assert ((3 * start) `max` ((stop * 3) `min` length arr) = 3 * stop) as -> by lia.
  rewrite decide_True by lia. eexists. split; [done|]. split_and!.
  - rewrite !length_app, length_take, length_drop. lia.
  - intros a r Hr. apply lookup_lt_Some in Hr as Ha. rewrite <- (table_row_join rows a r Hrows Hr).
    apply table_row_ext. intros i Hi.
    rewrite lookup_app_r by (rewrite length_take; lia).
    rewrite length_take. rewrite lookup_app_l by lia. f_equal. lia.
  - intros a Ha. apply table_row_ext. intros i Hi.
    destruct (decide (a < start)).
    + rewrite lookup_app_l by (rewrite length_take; lia). by rewrite lookup_take_lt by lia.
    + rewrite lookup_app_r by (rewrite length_take; lia). rewrite length_take.
      rewrite lookup_app_r by lia. rewrite lookup_drop. f_equal. lia.
Qed.

(** ** The adjacency table of the worker script *)

Lemma list_bind_fmap_join {A B} (f : A → list B) (l : list A) : l ≫= f = mjoin (f <$> l).
Proof. induction l as [|x l IH]; csimpl; [done|]. by rewrite IH. Qed.

Lemma foldlM_select {A} (f : list A → A → result (list A)) (Q : A → Prop) l :
  (∀ acc x, x ∈ l →
     (Q x ∧ f acc x = Ok (acc ++ [x])) ∨ (¬ Q x ∧ f acc x = Ok acc)) →
  ∀ acc, ∃ l', foldlM f acc l = Ok (acc ++ l') ∧ sublist l' l ∧
    ∀ x, x ∈ l' ↔ x ∈ l ∧ Q x.
Proof.
  induction l as [|x l IH]; intros Hf acc.
  - exists []. rewrite app_nil_r. split_and!; [done|done|].
    intros x. rewrite elem_of_nil. tauto.
  - specialize (IH (λ acc y Hy, Hf acc y (list_elem_of_further _ _ _ Hy))).
    destruct (Hf acc x) as [[HQ Hx]|[HQ Hx]]; [left|..].
    + destruct (IH (acc ++ [x])) as (l' & Hrun & Hsub & Hmem). exists (x :: l').
      cbn [foldlM]. rewrite Hx. cbn [mbind result_bind]. rewrite Hrun, <- app_assoc.
      split_and!; [done|by constructor|]. intros y. rewrite !elem_of_cons, Hmem. naive_solver.
    + destruct (IH acc) as (l' & Hrun & Hsub & Hmem). exists l'.
      cbn [foldlM]. rewrite Hx. cbn [mbind result_bind].
      split_and!; [done|by constructor|]. intros y. rewrite elem_of_cons, Hmem. naive_solver.
Qed.

Lemma adjacency_slots_length set_iter adj : length (adjacency_slots set_iter adj) = 3.
Proof.
  unfold adjacency_slots. rewrite length_take, length_app.
  change (length [-1; -1; -1]%Z) with 3. lia.
Qed.

Section AdjacencyTable.
Context {F : Type}.
Variable set_iter : list nat → list nat.
Variable dot : F * F * F → F * F * F → F.
Variable fge : F → F → bool.
Variable cos : F → F.
Hypothesis set_iter_perm : ∀ l, set_iter l ≡ₚ l.
Implicit Types sh : shared (F:=F).

(** [b] passes the two tests of [compute_adjacents] for the facet [a]: the
    facets share exactly two points and the dot product of their normals
    is at least the cosine of the split angle. *)
Definition qualifies sh (a b : nat) : Prop :=
  ∃ fa fb na nb,
    sh_facets sh !! a = Some fa ∧ sh_facets sh !! b = Some fb ∧ share_edge fa fb ∧
    sh_normals sh !! a = Some na ∧ sh_normals sh !! b = Some nb ∧
    fge (dot na nb) (cos (sh_split_angle sh)) = true.

(** The inputs of the builders are consistent: the facets index the
    points, there is one normal per facet and three slots per facet. *)
Record shared_ok sh : Prop := SharedOk {
  ok_facets : Forall (λ f, Forall (λ p, p < sh_count_points sh) (facet_points f))
                (sh_facets sh);
  ok_normals : length (sh_normals sh) = length (sh_facets sh);
  ok_adjacency : length (sh_adjacency sh) = 3 * length (sh_facets sh);
}.

(** The inputs of [sh'] are those of [sh]. *)
Definition same_inputs sh sh' : Prop :=
  sh_count_points sh' = sh_count_points sh ∧ sh_facets sh' = sh_facets sh ∧
  sh_normals sh' = sh_normals sh ∧ sh_split_angle sh' = sh_split_angle sh.

Definition fpp_ok sh (fpp : list (list nat)) : Prop :=
  ∀ p, p < sh_count_points sh →
    ∃ l, fpp !! p = Some l ∧
      ∀ fi, fi ∈ l ↔ ∃ f, sh_facets sh !! fi = Some f ∧ p ∈ facet_points f.

Lemma candidates_spec sh fpp a f :
  shared_ok sh → fpp_ok sh fpp → sh_facets sh !! a = Some f →
  ∃ others, candidates set_iter fpp f = Ok others ∧ NoDup others ∧
    ∀ b, b ∈ others ↔ ∃ fb p, sh_facets sh !! b = Some fb ∧
                             p ∈ facet_points f ∧ p ∈ facet_points fb.
Proof.
  intros [Hfacets _ _] Hfpp Hf. unfold candidates.
  assert (Hpts : ∀ p, p ∈ facet_points f → p < sh_count_points sh).
  { rewrite Forall_forall in Hfacets. specialize (Hfacets f (list_elem_of_lookup_2 _ _ _ Hf)).
    by rewrite Forall_forall in Hfacets. }
  destruct (mapR_total (at_ fpp) (facet_points f)) as [ls Hls].
  { intros p Hp. destruct (Hfpp p (Hpts p Hp)) as (l & Hl & _). exists l. by apply at_Ok. }
  rewrite Hls. cbn [mbind result_bind]. eexists. split; [done|]. split.
  { rewrite set_iter_perm. apply NoDup_remove_dups. }
  intros b. rewrite set_iter_perm, elem_of_remove_dups.
  rewrite list_elem_of_join. split.
  - intros (l & Hb & Hl). apply list_elem_of_lookup in Hl as [i Hi].
    apply mapR_Ok in Hls. destruct (Forall2_lookup_r _ _ _ _ _ Hls Hi) as (p & Hp & Hat).
    apply at_Ok in Hat. apply list_elem_of_lookup_2 in Hp.
    destruct (Hfpp p (Hpts p Hp)) as (l' & Hl' & Hmem).
    assert (l' = l) as -> by congruence. apply Hmem in Hb as (fb & Hfb & Hpb). eauto.
  - intros (fb & p & Hfb & Hp & Hpb). destruct (Hfpp p (Hpts p Hp)) as (l & Hl & Hmem).
    exists l. split; [apply Hmem; eauto|].
    apply list_elem_of_lookup in Hp as [i Hi].
    destruct (mapR_lookup _ _ _ _ _ Hls Hi) as (l' & Hl' & Hat). apply at_Ok in Hat.
    assert (l' = l) as -> by congruence. by eapply list_elem_of_lookup_2.
Qed.

Lemma share_edge_common f1 f2 :
  share_edge f1 f2 → ∃ p, p ∈ facet_points f1 ∧ p ∈ facet_points f2.
Proof.
  unfold share_edge. intros H%bool_decide_unpack.
  destruct (set_inter_nonempty _ _ H) as (p & H1 & H2).
  exists p. by rewrite <- !(elem_of_remove_dups (facet_points _)).
Qed.

(** The neighbours found for a facet are those that pass the two tests. *)
Lemma compute_adjacents_row_spec sh fpp a f :
  shared_ok sh → fpp_ok sh fpp → sh_facets sh !! a = Some f →
  ∃ adj, compute_adjacents_row set_iter dot fge sh fpp (cos (sh_split_angle sh)) a f = Ok adj ∧
    NoDup adj ∧ ∀ b, b ∈ adj ↔ qualifies sh a b.
Proof.
  intros Hok Hfpp Hf. unfold compute_adjacents_row.
  destruct (candidates_spec sh fpp a f Hok Hfpp Hf) as (others & -> & Hnd & Hothers).
  cbn [mbind result_bind].
  destruct Hok as [_ Hnormals _].
  destruct (at_lt (sh_normals sh) a) as (na & Hna & Hna').
  { rewrite Hnormals. by eapply lookup_lt_Some. }
  edestruct (foldlM_select
    (λ adj other_idx,
       other ← at_ (sh_facets sh) other_idx;
       if share_edge f other then
         n1 ← at_ (sh_normals sh) a;
         n2 ← at_ (sh_normals sh) other_idx;
         if fge (dot n1 n2) (cos (sh_split_angle sh)) then Ok (adj ++ [other_idx]) else Ok adj
       else Ok adj)
    (qualifies sh a) others) as (adj & Hrun & Hsub & Hmem).
  { intros acc b (fb & p & Hfb & _)%Hothers.
    apply at_Ok in Hfb as Hatb. rewrite Hatb. cbn [mbind result_bind].
    destruct (at_lt (sh_normals sh) b) as (nb & Hnb & Hnb').
    { rewrite Hnormals. by eapply lookup_lt_Some. }
    destruct (share_edge f fb) eqn:Hshare.
    - rewrite Hna, Hnb. cbn [mbind result_bind].
      destruct (fge (dot na nb) (cos (sh_split_angle sh))) eqn:Hge.
      + left. split; [|done]. exists f, fb, na, nb. by rewrite Hshare.
      + right. split; [|done]. intros (fa' & fb' & na' & nb' & ? & ? & ? & ? & ? & ?).
        simplify_eq. congruence.
    - right. split; [|done]. intros (fa' & fb' & na' & nb' & ? & ? & Hs & ?).
      simplify_eq. rewrite Hshare in Hs. done. }
  exists adj. split_and!; [exact Hrun|by eapply sublist_NoDup|].
  intros b. rewrite Hmem. split; [tauto|]. intros Hq. split; [|done].
  destruct Hq as (fa & fb & _ & _ & Hfa & Hfb & Hshare & _). simplify_eq.
  apply Hothers. destruct (share_edge_common _ _ Hshare) as (p & ? & ?). eauto.
Qed.

Lemma compute_adjacents_row_inputs sh sh' fpp c a f :
  same_inputs sh sh' →
  compute_adjacents_row set_iter dot fge sh' fpp c a f
  = compute_adjacents_row set_iter dot fge sh fpp c a f.
Proof. intros (_ & Hf & Hn & _). unfold compute_adjacents_row. by rewrite Hf, Hn. Qed.

Lemma lookup_slice {A} (l : list A) start stop k :
  slice start stop l !! k = if decide (k < stop - start) then l !! (start + k) else None.
Proof.
  unfold slice. case_decide.
  - rewrite lookup_take_lt by done. by rewrite lookup_drop.
  - by rewrite lookup_take_ge by lia.
Qed.

Lemma length_slice {A} (l : list A) start stop :
  stop ≤ length l → length (slice start stop l) = stop - start.
Proof. intros H. unfold slice. rewrite length_take, length_drop. lia. Qed.

(** One chunk of [compute_adjacents]: the rows of the chunk hold the slots
    of the neighbours found, the other rows are left as they are. *)
Lemma compute_adjacents_spec fpp sh start stop :
  shared_ok sh → fpp_ok sh fpp → start ≤ stop ≤ length (sh_facets sh) →
  ∃ sh', compute_adjacents set_iter dot fge cos fpp sh (start, stop) = Ok sh' ∧
    same_inputs sh sh' ∧ shared_ok sh' ∧
    (∀ a f, start ≤ a < stop → sh_facets sh !! a = Some f →
       ∃ adj, compute_adjacents_row set_iter dot fge sh fpp (cos (sh_split_angle sh)) a f
                = Ok adj ∧
              table_row (sh_adjacency sh') a = adjacency_slots set_iter adj) ∧
    (∀ a, ¬ start ≤ a < stop →
       table_row (sh_adjacency sh') a = table_row (sh_adjacency sh) a).
Proof.
  intros Hok Hfpp Hchunk. unfold compute_adjacents.
  destruct (mapR_total
    (λ '(facet_idx, f),
       compute_adjacents_row set_iter dot fge sh fpp (cos (sh_split_angle sh))
         (facet_idx + start) f)
    (imap pair (slice start stop (sh_facets sh)))) as [adjacents Hadj].
  { intros [k f] Hin. apply elem_of_lookup_imap in Hin as (k' & f' & [= <- <-] & Hk).
    rewrite lookup_slice in Hk. case_decide; [|done].
    destruct (compute_adjacents_row_spec sh fpp (k + start) f Hok Hfpp) as (adj & ? & _).
    { by rewrite (Nat.add_comm k start). }
    eauto. }
  rewrite Hadj. cbn [mbind result_bind].
  assert (Hlen : length adjacents = stop - start).
  { rewrite (mapR_length _ _ _ Hadj), length_imap. apply length_slice. lia. }
  rewrite list_bind_fmap_join.
  destruct (assign_slice_rows start stop (adjacency_slots set_iter <$> adjacents)
    (sh_adjacency sh) (length (sh_facets sh))) as (arr' & -> & Hlen' & Hin & Hout).
  { apply Hok. }
  { done. }
  { by rewrite length_fmap. }
  { apply Forall_fmap, Forall_forall. intros adj _. apply adjacency_slots_length. }
  cbn [mbind result_bind]. eexists. split; [done|]. split_and!.
  - done.
  - destruct Hok. by constructor.
  - intros a f Ha Hf. unfold set_adjacency. cbn [sh_adjacency].
    assert (Hk : imap pair (slice start stop (sh_facets sh)) !! (a - start) = Some (a - start, f)).
    { rewrite list_lookup_imap, lookup_slice, decide_True by lia.
      replace (start + (a - start)) with a by lia. by rewrite Hf. }
    destruct (mapR_lookup _ _ _ _ _ Hadj Hk) as (adj & Hadj_a & Hrow).
    replace (a - start + start) with a in Hrow by lia.
    exists adj. split; [done|].
    rewrite <- (Hin (a - start) (adjacency_slots set_iter adj))
      by (by rewrite list_lookup_fmap, Hadj_a).
    f_equal. lia.
  - intros a Ha. unfold set_adjacency. cbn [sh_adjacency]. by apply Hout.
Qed.

(** The facet [a] is in a chunk of the schedule. *)
Definition covered (schedule : list (nat * nat)) (a : nat) : Prop :=
  Exists (λ chunk : nat * nat, chunk.1 ≤ a < chunk.2) schedule.

Lemma same_inputs_trans sh1 sh2 sh3 :
  same_inputs sh1 sh2 → same_inputs sh2 sh3 → same_inputs sh1 sh3.
Proof. unfold same_inputs. intros (-> & -> & -> & ->) (-> & -> & -> & ->). done. Qed.

Lemma compute_adjacents_fold fpp sh0 schedule : ∀ sh,
  fpp_ok sh0 fpp → same_inputs sh0 sh → shared_ok sh →
  Forall (λ chunk : nat * nat, chunk.1 ≤ chunk.2 ≤ length (sh_facets sh0)) schedule →
  ∃ sh', foldlM (compute_adjacents set_iter dot fge cos fpp) sh schedule = Ok sh' ∧
    same_inputs sh0 sh' ∧ shared_ok sh' ∧
    (∀ a f, covered schedule a → sh_facets sh0 !! a = Some f →
       ∃ adj, compute_adjacents_row set_iter dot fge sh0 fpp (cos (sh_split_angle sh0)) a f
                = Ok adj ∧
              table_row (sh_adjacency sh') a = adjacency_slots set_iter adj) ∧
    (∀ a, ¬ covered schedule a →
       table_row (sh_adjacency sh') a = table_row (sh_adjacency sh) a).
Proof.
  induction schedule as [|[start stop] schedule IH]; intros sh Hfpp Hsame Hok Hchunks.
  { exists sh. split_and!; [done..| |done]. intros a f Ha. by apply Exists_nil in Ha. }
  apply Forall_cons in Hchunks as [Hchunk Hchunks]. cbn in Hchunk.
  pose proof Hsame as (Hc & Hf & Hn & Hs).
  destruct (compute_adjacents_spec fpp sh start stop) as (sh1 & Hrun1 & Hsame1 & Hok1 & Hin1 & Hout1).
  { done. }
  { unfold fpp_ok. rewrite Hc, Hf. exact Hfpp. }
  { by rewrite Hf. }
  destruct (IH sh1) as (sh' & Hrun & Hsame' & Hok' & Hin & Hout).
  { done. }
  { by eapply same_inputs_trans. }
  { done. }
  { done. }
  exists sh'. split_and!; [|done|done| |].
  - cbn [foldlM]. rewrite Hrun1. exact Hrun.
  - intros a f Ha Hfa. destruct (decide (covered schedule a)) as [Hcov|Hcov].
    { by apply Hin. }
    apply Exists_cons in Ha as [Ha|Ha]; [|done]. cbn in Ha.
    rewrite (Hout a Hcov). rewrite <- Hf in Hfa.
    destruct (Hin1 a f Ha Hfa) as (adj & Hrow & Htab). exists adj. split; [|done].
    rewrite <- Hs, <- Hrow. symmetry. by apply compute_adjacents_row_inputs.
  - intros a Ha. rewrite Hout by (intros ?; apply Ha; by right).
    apply Hout1. intros ?. apply Ha. by left.
Qed.

Lemma facets_per_point_ok sh :
  shared_ok sh → ∃ fpp, facets_per_point (sh_count_points sh) (sh_facets sh) = Ok fpp ∧
                       fpp_ok sh fpp.
Proof.
  intros [Hfacets _ _]. destruct (facets_per_point_spec _ _ Hfacets) as (fpp & ? & _ & ?).
  by exists fpp.
Qed.

(** The table of [main_adjacency]: the row of each facet of a chunk holds
    the slots of its qualifying neighbours. *)
Lemma main_adjacency_spec sh schedule :
  shared_ok sh →
  Forall (λ chunk : nat * nat, chunk.1 ≤ chunk.2 ≤ length (sh_facets sh)) schedule →
  ∃ sh', main_adjacency set_iter dot fge cos sh schedule = Ok sh' ∧
    same_inputs sh sh' ∧ shared_ok sh' ∧
    (∀ a, a < length (sh_facets sh) → covered schedule a →
       ∃ adj, NoDup adj ∧ (∀ b, b ∈ adj ↔ qualifies sh a b) ∧
              table_row (sh_adjacency sh') a = adjacency_slots set_iter adj) ∧
    (∀ a, ¬ covered schedule a →
       table_row (sh_adjacency sh') a = table_row (sh_adjacency sh) a).
Proof.
  intros Hok Hchunks. unfold main_adjacency.
  destruct (facets_per_point_ok sh Hok) as (fpp & -> & Hfpp). cbn [mbind result_bind].
  destruct (compute_adjacents_fold fpp sh schedule sh Hfpp) as (sh' & Hrun & Hsame & Hok' & Hin & Hout);
    [done..|].
  exists sh'. split_and!; [done..| |done].
  intros a Ha Hcov. destruct (lookup_lt_is_Some_2 _ _ Ha) as [f Hf].
  destruct (Hin a f Hcov Hf) as (adj & Hrow & Htab).
  destruct (compute_adjacents_row_spec sh fpp a f Hok Hfpp Hf) as (adj' & Hrow' & Hnd & Hmem).
  assert (adj' = adj) as -> by congruence. eauto.
Qed.

End AdjacencyTable.

(** ** The three slots of a row *)

(** The slots of a row: the first three of the neighbours [q], then -1. *)
Definition slots_of (q : list nat) : list Z :=
  take 3 ((Z.of_nat <$> q) ++ [-1; -1; -1]%Z).

Lemma slots_of_length q : length (slots_of q) = 3.
Proof.
  unfold slots_of. rewrite length_take, length_app.
  change (length [-1; -1; -1]%Z) with 3. lia.
Qed.

Lemma elem_of_slots_of q b : Z.of_nat b ∈ slots_of q → b ∈ q.
Proof.
  unfold slots_of. intros [i Hi]%list_elem_of_lookup.
  apply lookup_take_Some in Hi as [Hi _]. apply list_elem_of_lookup_2 in Hi.
  apply elem_of_app in Hi as [Hi|Hi].
  - apply list_elem_of_fmap in Hi as (b' & Hb & Hin). by apply Nat2Z.inj in Hb as ->.
  - rewrite !elem_of_cons, elem_of_nil in Hi. lia.
Qed.

Lemma slots_of_all q b : length q ≤ 3 → b ∈ q → Z.of_nat b ∈ slots_of q.
Proof.
  intros Hlen Hb. unfold slots_of. rewrite take_app, length_fmap.
  rewrite take_ge by (rewrite length_fmap; lia).
  apply elem_of_app. left. apply list_elem_of_fmap. eauto.
Qed.

Lemma slots_of_neighbours q :
  ∃ kept, kept `prefix_of` q ∧ length kept = length q `min` 3 ∧
    slots_of q = (Z.of_nat <$> kept) ++ replicate (3 - length kept) (-1)%Z.
Proof.
  exists (take 3 q). split_and!.
  - apply prefix_take.
  - rewrite length_take. lia.
  - unfold slots_of. rewrite take_app, length_fmap, fmap_take, length_take. f_equal.
    destruct q as [|? [|? [|? q]]]; reflexivity.
Qed.

Lemma adjacency_slots_slots_of set_iter adj :
  adjacency_slots set_iter adj = slots_of (set_iter (remove_dups adj)).
Proof. reflexivity. Qed.

(** ** The vectorized builder *)

Lemma table_row_inserts (table row : list Z) k a :
  length row = 3 → 3 * k + 3 ≤ length table →
  table_row (list_inserts (3 * k) row table) a
  = if decide (a = k) then row else table_row table a.
Proof.
  intros Hrow Hk. case_decide as Ha.
  - subst a. apply list_eq. intros i. rewrite table_row_lookup. case_decide.
    + rewrite list_lookup_inserts by lia. f_equal. lia.
    + symmetry. apply lookup_ge_None. lia.
  - apply table_row_ext. intros i Hi. destruct (decide (a < k)).
    + by rewrite list_lookup_inserts_lt by lia.
    + by rewrite list_lookup_inserts_ge by lia.
Qed.

Section Vectorized.
Context {F : Type}.
Implicit Types sh : shared (F:=F).

Lemma compute_adjacents_np_fold (groups : list (nat * list nat)) : ∀ sh,
  (∀ k vs, (k, vs) ∈ groups → 3 * k + 3 ≤ length (sh_adjacency sh)) →
  ∃ sh', foldlM (λ sh '(k, vs),
           let row := take 3 ((Z.of_nat <$> vs) ++ [-1; -1; -1]%Z) in
           if decide (3 * k + 3 ≤ length (sh_adjacency sh)) then
             Ok (set_adjacency sh (list_inserts (3 * k) row (sh_adjacency sh)))
           else Raise IndexError) sh groups = Ok sh' ∧
    length (sh_adjacency sh') = length (sh_adjacency sh) ∧
    ∀ a, table_row (sh_adjacency sh') a = table_row (sh_adjacency sh) a ∨
         ∃ vs, (a, vs) ∈ groups ∧ table_row (sh_adjacency sh') a = slots_of vs.
Proof.
  induction groups as [|[k vs] groups IH]; intros sh Hk.
  { exists sh. split_and!; [done|done|]. intros a. by left. }
  cbn [foldlM]. rewrite decide_True by (apply (Hk k vs); left). cbn [mbind result_bind].
  destruct (IH (set_adjacency sh (list_inserts (3 * k) (slots_of vs) (sh_adjacency sh))))
    as (sh' & Hrun & Hlen & Hrows).
  { intros k' vs' Hin. cbn. rewrite length_inserts. apply (Hk k' vs'). by right. }
  exists sh'. split_and!; [exact Hrun| |].
  - rewrite Hlen. cbn. apply length_inserts.
  - intros a. destruct (Hrows a) as [Hsame|(vs' & Hin & Hrow)].
    + rewrite Hsame. cbn [set_adjacency sh_adjacency].
      rewrite table_row_inserts; [|apply slots_of_length|apply (Hk k vs); left].
      case_decide as Ha; [|by left]. subst a. right. exists vs. split; [left|done].
    + right. exists vs'. split; [by right|done].
Qed.

(** [compute_adjacents_np] writes, for each group of pairs of its chunk,
    the first three neighbours of the group in the row of the facet. *)
Lemma compute_adjacents_np_spec pairs sh start stop :
  (∀ k vs, (k, vs) ∈ groupby_fst (slice start stop pairs) →
     3 * k + 3 ≤ length (sh_adjacency sh)) →
  ∃ sh', compute_adjacents_np pairs sh (start, stop) = Ok sh' ∧
    length (sh_adjacency sh') = length (sh_adjacency sh) ∧
    ∀ a, table_row (sh_adjacency sh') a = table_row (sh_adjacency sh) a ∨
         ∃ vs, (a, vs) ∈ groupby_fst (slice start stop pairs) ∧
               table_row (sh_adjacency sh') a = slots_of vs.
Proof. intros Hk. unfold compute_adjacents_np. by apply compute_adjacents_np_fold. Qed.

End Vectorized.

(** ** The two adjacency builders on the same mesh *)

Section Builders.
Context {F : Type}.
Variable set_iter : list nat → list nat.
Variable dot : F * F * F → F * F * F → F.
Variable fge : F → F → bool.
Variable cos : F → F.
Hypothesis set_iter_perm : ∀ l, set_iter l ≡ₚ l.
Implicit Types m : RenderMesh.mesh (F:=F).

(** The facets [a] and [b] share exactly two point indices. *)
Definition shares m (a b : nat) : Prop :=
  ∃ fa fb, RenderMesh.mesh_facets m !! a = Some fa ∧
           RenderMesh.mesh_facets m !! b = Some fb ∧ share_edge fa fb.

(** The dot product of the normals of [a] and [b] is at least the cosine
    of the split angle. *)
Definition angle_ok m (split_angle : F) (a b : nat) : Prop :=
  ∃ na nb, RenderMesh.mesh_normals m !! a = Some na ∧
           RenderMesh.mesh_normals m !! b = Some nb ∧
           fge (dot na nb) (cos split_angle) = true.

(** The facet [a] has at most three neighbours that pass both tests. *)
Definition few_neighbours m (split_angle : F) (a : nat) : Prop :=
  ∀ l, NoDup l → (∀ b, b ∈ l → shares m a b ∧ angle_ok m split_angle a b) →
       length l ≤ 3.

(** What [main] shares with the workers for the mesh [m]. *)
Definition worker_input m (split_angle : F) : shared :=
  make_shared (length (RenderMesh.mesh_points m)) (RenderMesh.mesh_facets m)
    (RenderMesh.mesh_normals m) split_angle.

(** The chunks are in range and every facet is in one of them. *)
Definition schedule_ok (count_facets : nat) (schedule : list (nat * nat)) : Prop :=
  Forall (λ chunk : nat * nat, chunk.1 ≤ chunk.2 ≤ count_facets) schedule ∧
  ∀ a, a < count_facets → covered schedule a.

Lemma qualifies_worker_input m split_angle a b :
  qualifies dot fge cos (worker_input m split_angle) a b ↔
  shares m a b ∧ angle_ok m split_angle a b.
Proof.
  unfold qualifies, shares, angle_ok, worker_input, make_shared. cbn. naive_solver.
Qed.

Lemma builders_spec m split_angle schedule :
  mesh_indices_ok m →
  length (RenderMesh.mesh_normals m) = length (RenderMesh.mesh_facets m) →
  schedule_ok (length (RenderMesh.mesh_facets m)) schedule →
  ∃ adjacents sh',
    RenderMesh.adjacent_facets set_iter m = Ok adjacents ∧
    main_adjacency set_iter dot fge cos (worker_input m split_angle) schedule = Ok sh' ∧
    length adjacents = length (RenderMesh.mesh_facets m) ∧
    (∀ a, a < length (RenderMesh.mesh_facets m) →
       ∃ row, adjacents !! a = Some row ∧ NoDup row ∧ ∀ b, b ∈ row ↔ shares m a b) ∧
    (∀ a, a < length (RenderMesh.mesh_facets m) →
       ∃ q, NoDup q ∧ (∀ b, b ∈ q ↔ shares m a b ∧ angle_ok m split_angle a b) ∧
            table_row (sh_adjacency sh') a = slots_of q).
Proof.
  intros Hok Hnormals [Hchunks Hcover].
  destruct (adjacent_facets_spec set_iter set_iter_perm m Hok) as (adjacents & Hsp & Hlen & Hrows).
  destruct (main_adjacency_spec set_iter dot fge cos set_iter_perm
              (worker_input m split_angle) schedule) as (sh' & Hmp & _ & _ & Hin & _).
  { constructor; cbn; [exact Hok|exact Hnormals|]. rewrite length_replicate. lia. }
  { exact Hchunks. }
  exists adjacents, sh'. split_and!; [done..|].
  intros a Ha. destruct (Hin a Ha (Hcover a Ha)) as (adj & Hnd & Hmem & Hrow).
  exists (set_iter (remove_dups adj)). split_and!.
  - rewrite set_iter_perm. apply NoDup_remove_dups.
  - intros b. by rewrite set_iter_perm, elem_of_remove_dups, Hmem, qualifies_worker_input.
  - exact Hrow.
Qed.

(** C1, amended. The incidence-based builder lists [b] in the row of [a]
    if and only if the two facets share exactly two point indices: it does
    not look at the normals. The chunk builder lists [b] in the row of [a]
    only if they share exactly two point indices and the dot product of
    their normals is at least the cosine of the split angle, and it lists
    every such [b] when [a] has at most three of them. *)
Theorem adjacency_tables_entries m split_angle schedule :
  mesh_indices_ok m →
  length (RenderMesh.mesh_normals m) = length (RenderMesh.mesh_facets m) →
  schedule_ok (length (RenderMesh.mesh_facets m)) schedule →
  ∃ adjacents sh',
    RenderMesh.adjacent_facets set_iter m = Ok adjacents ∧
    main_adjacency set_iter dot fge cos (worker_input m split_angle) schedule = Ok sh' ∧
    (∀ a b row, adjacents !! a = Some row → (b ∈ row ↔ shares m a b)) ∧
    (∀ a b, a < length (RenderMesh.mesh_facets m) →
       Z.of_nat b ∈ table_row (sh_adjacency sh') a →
       shares m a b ∧ angle_ok m split_angle a b) ∧
    (∀ a b, a < length (RenderMesh.mesh_facets m) → few_neighbours m split_angle a →
       shares m a b ∧ angle_ok m split_angle a b →
       Z.of_nat b ∈ table_row (sh_adjacency sh') a).
Proof.
  intros Hok Hnormals Hschedule.
  destruct (builders_spec m split_angle schedule Hok Hnormals Hschedule)
    as (adjacents & sh' & Hsp & Hmp & Hlen & Hrows & Hslots).
  exists adjacents, sh'. split_and!; [done..| | |].
  - intros a b row Hrow. destruct (Hrows a) as (row' & Hrow' & _ & Hmem).
    { rewrite <- Hlen. by eapply lookup_lt_Some. }
    assert (row' = row) as -> by congruence. apply Hmem.
  - intros a b Ha Hb. destruct (Hslots a Ha) as (q & _ & Hmem & Hrow).
    rewrite Hrow in Hb. by apply Hmem, elem_of_slots_of.
  - intros a b Ha Hfew Hb. destruct (Hslots a Ha) as (q & Hnd & Hmem & ->).
    apply slots_of_all; [|by apply Hmem]. apply Hfew; [done|]. intros b'. apply Hmem.
Qed.

(** C4, amended. The table of the incidence-based builder is symmetric.
    The table of the chunk builder is symmetric when the dot product is
    symmetric and no facet has more than three neighbours that pass both
    tests. *)
Theorem adjacency_tables_symmetry m split_angle schedule :
  mesh_indices_ok m →
  length (RenderMesh.mesh_normals m) = length (RenderMesh.mesh_facets m) →
  schedule_ok (length (RenderMesh.mesh_facets m)) schedule →
  (∀ u v, dot u v = dot v u) →
  ∃ adjacents sh',
    RenderMesh.adjacent_facets set_iter m = Ok adjacents ∧
    main_adjacency set_iter dot fge cos (worker_input m split_angle) schedule = Ok sh' ∧
    (∀ a b rowa rowb, adjacents !! a = Some rowa → adjacents !! b = Some rowb →
       (b ∈ rowa ↔ a ∈ rowb)) ∧
    ((∀ a, a < length (RenderMesh.mesh_facets m) → few_neighbours m split_angle a) →
     ∀ a b, a < length (RenderMesh.mesh_facets m) → b < length (RenderMesh.mesh_facets m) →
       (Z.of_nat b ∈ table_row (sh_adjacency sh') a ↔
        Z.of_nat a ∈ table_row (sh_adjacency sh') b)).
Proof.
  intros Hok Hnormals Hschedule Hdot.
  destruct (builders_spec m split_angle schedule Hok Hnormals Hschedule)
    as (adjacents & sh' & Hsp & Hmp & Hlen & Hrows & Hslots).
  assert (Hshares : ∀ a b, shares m a b → shares m b a).
  { intros a b (fa & fb & ? & ? & ?). exists fb, fa. by rewrite share_edge_sym. }
  assert (Hangle : ∀ a b, angle_ok m split_angle a b → angle_ok m split_angle b a).
  { intros a b (na & nb & ? & ? & ?). exists nb, na. by rewrite Hdot. }
  exists adjacents, sh'. split_and!; [done..| |].
  - intros a b rowa rowb Hrowa Hrowb.
    destruct (Hrows a) as (rowa' & Hrowa' & _ & Hmema).
    { rewrite <- Hlen. by eapply lookup_lt_Some. }
    destruct (Hrows b) as (rowb' & Hrowb' & _ & Hmemb).
    { rewrite <- Hlen. by eapply lookup_lt_Some. }
    assert (rowa' = rowa) as -> by congruence. assert (rowb' = rowb) as -> by congruence.
    rewrite Hmema, Hmemb. split; apply Hshares.
  - intros Hfew. assert (Hone : ∀ a b, a < length (RenderMesh.mesh_facets m) →
        b < length (RenderMesh.mesh_facets m) →
        Z.of_nat b ∈ table_row (sh_adjacency sh') a →
        Z.of_nat a ∈ table_row (sh_adjacency sh') b).
    { intros a b Ha Hb Hin. destruct (Hslots a Ha) as (qa & _ & Hmema & Hrowa).
      destruct (Hslots b Hb) as (qb & Hndb & Hmemb & Hrowb).
      rewrite Hrowa in Hin. apply elem_of_slots_of, Hmema in Hin as [Hs Hang].
      rewrite Hrowb. apply slots_of_all.
      - apply (Hfew b Hb); [done|]. intros b'. apply Hmemb.
      - apply Hmemb. auto. }
    intros a b Ha Hb. split; by apply Hone.
Qed.

(** C5, amended. The chunk builder and the vectorized builder give each
    facet three slots: the first three neighbours in the order of
    iteration, padded with -1, and they raise no error. The incidence-based
    builder does not truncate: the row of a facet holds every facet that
    shares exactly two points with it. *)
Theorem adjacency_rows_truncation m split_angle schedule :
  mesh_indices_ok m →
  length (RenderMesh.mesh_normals m) = length (RenderMesh.mesh_facets m) →
  schedule_ok (length (RenderMesh.mesh_facets m)) schedule →
  ∃ adjacents sh',
    RenderMesh.adjacent_facets set_iter m = Ok adjacents ∧
    main_adjacency set_iter dot fge cos (worker_input m split_angle) schedule = Ok sh' ∧
    (∀ a, a < length (RenderMesh.mesh_facets m) →
       ∃ q kept, NoDup q ∧
         (∀ b, b ∈ q ↔ shares m a b ∧ angle_ok m split_angle a b) ∧
         kept `prefix_of` q ∧ length kept = length q `min` 3 ∧
         table_row (sh_adjacency sh') a
         = (Z.of_nat <$> kept) ++ replicate (3 - length kept) (-1)%Z) ∧
    (∀ a, a < length (RenderMesh.mesh_facets m) →
       ∃ row, adjacents !! a = Some row ∧ NoDup row ∧ ∀ b, b ∈ row ↔ shares m a b) ∧
    (∀ pairs (sh : shared (F:=F)) start stop,
       (∀ k vs, (k, vs) ∈ groupby_fst (slice start stop pairs) →
          3 * k + 3 ≤ length (sh_adjacency sh)) →
       ∃ sh'', compute_adjacents_np pairs sh (start, stop) = Ok sh'' ∧
         ∀ a, table_row (sh_adjacency sh'') a = table_row (sh_adjacency sh) a ∨
              ∃ vs, (a, vs) ∈ groupby_fst (slice start stop pairs) ∧
                    table_row (sh_adjacency sh'') a
                    = take 3 ((Z.of_nat <$> vs) ++ [-1; -1; -1]%Z)).
Proof.
  intros Hok Hnormals Hschedule.
  destruct (builders_spec m split_angle schedule Hok Hnormals Hschedule)
    as (adjacents & sh' & Hsp & Hmp & Hlen & Hrows & Hslots).
  exists adjacents, sh'. split_and!; [done..| |done|].
  - intros a Ha. destruct (Hslots a Ha) as (q & Hnd & Hmem & ->).
    destruct (slots_of_neighbours q) as (kept & ? & ? & ?). by exists q, kept.
  - intros pairs sh start stop Hk.
    destruct (compute_adjacents_np_spec pairs sh start stop Hk) as (sh'' & ? & _ & ?).
    by exists sh''.
Qed.

End Builders.

(** ** The builders on two meshes *)

(** Five facets on the edge (0, 1), in the plane z = 0, with the same
    normal. *)
Definition fan : RenderMesh.mesh (F:=Z) :=
  RenderMesh.Mesh
    [(0, 0, 0); (1, 0, 0); (0, 1, 0); (1, 1, 0); (0, 2, 0); (1, 2, 0); (2, 1, 0)]%Z
    [(0, 1, 2); (0, 1, 3); (0, 1, 4); (0, 1, 5); (0, 1, 6)]
    (replicate 5 (0, 0, 1)%Z) (replicate 5 1%Z) [] [].

Lemma int_dot_sym u v : int_dot u v = int_dot v u.
Proof. unfold int_dot. lia. Qed.

Lemma cube_schedule_ok : schedule_ok 12 [(0, 5); (5, 12)].
Proof.
  split; [repeat constructor; cbn; lia|].
  intros a Ha. destruct (decide (a < 5)); [left|right; left]; cbn; lia.
Defined.

Lemma adjacency_tables_entries_witness :
  ∃ adjacents sh',
    RenderMesh.adjacent_facets ascending cube = Ok adjacents ∧
    main_adjacency ascending int_dot int_ge cos_at_0 (worker_input cube 0%Z)
      [(0, 5); (5, 12)] = Ok sh' ∧
    (∀ a b row, adjacents !! a = Some row → (b ∈ row ↔ shares cube a b)) ∧
    (∀ a b, a < 12 → Z.of_nat b ∈ table_row (sh_adjacency sh') a →
       shares cube a b ∧ angle_ok int_dot int_ge cos_at_0 cube 0%Z a b).
Proof.
  destruct (adjacency_tables_entries ascending int_dot int_ge cos_at_0 ascending_perm
              cube 0%Z [(0, 5); (5, 12)]) as (adjacents & sh' & H1 & H2 & H3 & H4 & _).
  - unfold mesh_indices_ok. vm_compute. repeat constructor.
  - reflexivity.
  - exact cube_schedule_ok.
  - exists adjacents, sh'. split_and!; assumption.
Defined.

(** C1 does not hold as it is stated: in the table of the incidence-based
    builder for the cube, facet 7 is in the row of facet 0 (they share the
    edge (2, 3)), and their normals are at a right angle. *)
Lemma adjacent_facets_ignores_angle :
  ∃ adjacents row,
    RenderMesh.adjacent_facets ascending cube = Ok adjacents ∧
    adjacents !! 0 = Some row ∧ 7 ∈ row ∧
    ¬ angle_ok int_dot int_ge cos_at_0 cube 0%Z 0 7.
Proof.
  eexists _, _. split_and!; [vm_compute; reflexivity|reflexivity| |].
  - set_solver.
  - intros (na & nb & Hna & Hnb & Hge). vm_compute in Hna, Hnb.
    injection Hna as <-. injection Hnb as <-. vm_compute in Hge. discriminate.
Qed.

Lemma adjacency_tables_symmetry_witness :
  ∃ adjacents sh',
    RenderMesh.adjacent_facets ascending cube = Ok adjacents ∧
    main_adjacency ascending int_dot int_ge cos_at_0 (worker_input cube 0%Z)
      [(0, 5); (5, 12)] = Ok sh' ∧
    (∀ a b rowa rowb, adjacents !! a = Some rowa → adjacents !! b = Some rowb →
       (b ∈ rowa ↔ a ∈ rowb)).
Proof.
  destruct (adjacency_tables_symmetry ascending int_dot int_ge cos_at_0 ascending_perm
              cube 0%Z [(0, 5); (5, 12)]) as (adjacents & sh' & H1 & H2 & H3 & _).
  - unfold mesh_indices_ok. vm_compute. repeat constructor.
  - reflexivity.
  - exact cube_schedule_ok.
  - exact int_dot_sym.
  - exists adjacents, sh'. split_and!; assumption.
Defined.

(** C4 does not hold as it is stated: in the table of the chunk builder
    for the five facets on one edge, facet 0 is in the row of facet 4 and
    facet 4 is not in the row of facet 0, which holds the facets 1, 2
    and 3. *)
Lemma compute_adjacents_not_symmetric :
  ∃ sh',
    main_adjacency ascending int_dot int_ge cos_at_0 (worker_input fan 0%Z) [(0, 5)]
      = Ok sh' ∧
    Z.of_nat 0 ∈ table_row (sh_adjacency sh') 4 ∧
    Z.of_nat 4 ∉ table_row (sh_adjacency sh') 0.
Proof.
  eexists. split_and!; [vm_compute; reflexivity| |].
  - vm_compute. set_solver.
  - vm_compute. set_solver.
Qed.

Lemma adjacency_rows_truncation_witness :
  ∃ adjacents sh',
    RenderMesh.adjacent_facets ascending cube = Ok adjacents ∧
    main_adjacency ascending int_dot int_ge cos_at_0 (worker_input cube 0%Z)
      [(0, 5); (5, 12)] = Ok sh' ∧
    (∀ a, a < 12 → length (table_row (sh_adjacency sh') a) = 3).
Proof.
  destruct (adjacency_rows_truncation ascending int_dot int_ge cos_at_0 ascending_perm
              cube 0%Z [(0, 5); (5, 12)]) as (adjacents & sh' & H1 & H2 & H3 & _).
  - unfold mesh_indices_ok. vm_compute. repeat constructor.
  - reflexivity.
  - exact cube_schedule_ok.
  - exists adjacents, sh'. split_and!; [assumption..|].
    intros a Ha. destruct (H3 a Ha) as (q & kept & _ & _ & _ & Hlen & ->).
    rewrite length_app, length_fmap, length_replicate. lia.
Defined.

(** C5 does not hold as it is stated: in the table of the incidence-based
    builder for the five facets on one edge, the row of facet 0 holds four
    facets, and all four pass the test of the angle. *)
Lemma adjacent_facets_row_of_four :
  ∃ adjacents,
    RenderMesh.adjacent_facets ascending fan = Ok adjacents ∧
    adjacents !! 0 = Some [1; 2; 3; 4] ∧
    Forall (λ b, angle_ok int_dot int_ge cos_at_0 fan 0%Z 0 b) [1; 2; 3; 4].
Proof.
  eexists. split_and!; [vm_compute; reflexivity|reflexivity|].
  repeat constructor; by exists (0, 0, 1)%Z, (0, 0, 1)%Z.
Qed.

(** ** The components of [autosmooth.connected_components] *)

Lemma list_pop_None l : list_pop l = None → l = [].
Proof.
  unfold list_pop. destruct (reverse l) eqn:E; [|done]. intros _.
  apply (f_equal reverse) in E. by rewrite reverse_involutive in E.
Qed.

Lemma list_pop_Some l x l' :
  list_pop l = Some (x, l') →
  (∀ y, y ∈ l ↔ y = x ∨ y ∈ l') ∧ length l' < length l.
Proof.
  unfold list_pop. destruct (reverse l) as [|x0 r] eqn:E; [done|]. intros [= -> <-].
  apply (f_equal reverse) in E. rewrite reverse_involutive, reverse_cons in E. subst l.
  split.
  - intros y. rewrite elem_of_app, list_elem_of_singleton. tauto.
  - rewrite length_app. simpl. lia.
Qed.

(** [b] is in the adjacency list of [a]. *)
Definition listed (adjacents : list (list nat)) (a b : nat) : Prop :=
  ∃ row, adjacents !! a = Some row ∧ b ∈ row.

(** On symmetric adjacency lists, [connected_components] gives every
    vertex a tag from [lo] on, the same to two vertices if and only if a
    path joins them. *)
Lemma connected_components_spec adjacents lo :
  (∀ a b, listed adjacents a b → listed adjacents b a) →
  ∃ next tags, connected_components adjacents lo = Ok (next, Some <$> tags) ∧
    length tags = length adjacents ∧
    (∀ a t, tags !! a = Some t → lo ≤ t < next) ∧
    (∀ a b ta tb, tags !! a = Some ta → tags !! b = Some tb →
       (ta = tb ↔ rtsc (listed adjacents) a b)).
Proof.
  intros Hsym.
  destruct (components_loop_spec list_pop (λ _, Ok tt) (λ _ _, Some tt)
              list_pop_None list_pop_Some) with (adj0 := adjacents) (lo := lo)
    as (next & adjacents' & tags & Hrun & Hlen & Htagged & Hsame).
  - by intros [] s [].
  - intros a b (row & Hrow & Hb & _). destruct (Hsym a b) as (row' & ? & ?); [by exists row|].
    exists row'. split_and!; [done..|]. by exists tt, tt.
  - intros a _. by exists tt.
  - assert (Htags : tags = Some <$> (default 0 <$> tags)).
    { apply list_eq. intros a. rewrite !list_lookup_fmap.
      destruct (tags !! a) as [t|] eqn:Ht; [|done]. cbn.
      destruct (Htagged a) as (t' & Ht' & _).
      { rewrite <- Hlen. by eapply lookup_lt_Some. }
      rewrite Ht in Ht'. by injection Ht' as ->. }
    exists next, (default 0 <$> tags). split_and!.
    + unfold connected_components. rewrite Hrun. cbn [mbind result_bind]. by rewrite <- Htags.
    + by rewrite length_fmap.
    + intros a t Ht. rewrite list_lookup_fmap in Ht.
      destruct (tags !! a) as [t'|] eqn:Ht'; [|done].
      destruct (Htagged a) as (t'' & Ht'' & ?).
      { rewrite <- Hlen. by eapply lookup_lt_Some. }
      rewrite Ht' in Ht''. injection Ht'' as ->. cbn in Ht. by injection Ht as <-.
    + intros a b ta tb Hta Htb.
      assert (Ha : tags !! a = Some (Some ta)).
      { rewrite Htags, list_lookup_fmap, Hta. done. }
      assert (Hb : tags !! b = Some (Some tb)).
      { rewrite Htags, list_lookup_fmap, Htb. done. }
      rewrite (Hsame a b ta tb Ha Hb). split; apply rtsc_subrel.
      * intros x y (row & ? & ? & _). by exists row.
      * intros x y (row & ? & ?). exists row. split_and!; [done..|]. by exists tt, tt.
Qed.

Lemma rtsc_fmap {A B} (R : relation A) (R' : relation B) (f : A → B) a b :
  (∀ x y, R x y → R' (f x) (f y)) → rtsc R a b → rtsc R' (f a) (f b).
Proof.
  intros Hf. induction 1 as [|x y z Hxy _ IH]; [apply rtc_refl|].
  eapply rtc_l; [|exact IH]. destruct Hxy; [left|right]; by apply Hf.
Qed.

(** ** The two passes of the worker script *)

(** The adjacency table has three slots per facet, its entries are below
    the number of facets (negative entries are unused slots), and it is
    symmetric. *)
Record table_ok (table : list Z) (n : nat) : Prop := TableOk {
  table_length : length table = 3 * n;
  table_bound : ∀ a z, a < n → z ∈ table_row table a → (z < Z.of_nat n)%Z;
  table_sym : ∀ a b, a < n → b < n →
    Z.of_nat b ∈ table_row table a → Z.of_nat a ∈ table_row table b;
}.

(** [b] is in the row of [a]. *)
Definition table_edge (table : list Z) (n : nat) (a b : nat) : Prop :=
  a < n ∧ b < n ∧ Z.of_nat b ∈ table_row table a.

(** [b] is in the row of [a], both in the chunk [s .. e - 1]. *)
Definition chunk_edge (table : list Z) (s e : nat) (a b : nat) : Prop :=
  s ≤ a < e ∧ s ≤ b < e ∧ Z.of_nat b ∈ table_row table a.

Section Chunk.
Variable table : list Z.
Variable n : nat.
Hypothesis Htable : table_ok table n.

Lemma unpack_rows s e :
  e ≤ n →
  mapR (unpack_row table) (seq s (e - s)) = Ok (table_row table <$> seq s (e - s)).
Proof.
  intros He. apply mapR_fmap. intros a Ha%elem_of_seq. apply unpack_row_Ok.
  rewrite (table_length _ _ Htable). lia.
Qed.

Lemma listed_chunk s e i j :
  listed (chunk_adjacents s e (table_row table <$> seq s (e - s))) i j ↔
  i < e - s ∧ j < e - s ∧ Z.of_nat (s + j) ∈ table_row table (s + i).
Proof.
  unfold listed, chunk_adjacents. rewrite !list_lookup_fmap. split.
  - intros (row & Hrow & Hj).
    destruct (seq s (e - s) !! i) as [a|] eqn:Ha; [|done].
    apply lookup_seq in Ha as [-> Hi]. cbn in Hrow. injection Hrow as <-.
    apply list_elem_of_fmap in Hj as (z & -> & Hz). apply list_elem_of_filter in Hz as [Hz Hin].
    split_and!; [done|lia|]. by replace (Z.of_nat (s + (Z.to_nat z - s))) with z by lia.
  - intros (Hi & Hj & Hin). rewrite lookup_seq_lt by done. cbn. eexists. split; [done|].
    apply list_elem_of_fmap. exists (Z.of_nat (s + j)). split; [lia|].
    apply list_elem_of_filter. split; [lia|done].
Qed.

Lemma rtsc_chunk_edge s e a b :
  rtsc (chunk_edge table s e) a b → s ≤ a < e →
  s ≤ b < e ∧
  rtsc (listed (chunk_adjacents s e (table_row table <$> seq s (e - s)))) (a - s) (b - s).
Proof.
  induction 1 as [a|a b c Hab _ IH]; intros Ha; [split; [done|apply rtc_refl]|].
  assert (Hb : s ≤ b < e) by (destruct Hab as [(? & ? & ?)|(? & ? & ?)]; done).
  destruct (IH Hb) as [Hc Hrest]. split; [done|].
  eapply rtc_l; [|exact Hrest].
  destruct Hab as [(_ & _ & Hin)|(_ & _ & Hin)]; [left|right]; apply listed_chunk;
    (split_and!; [lia|lia|]).
  - by replace (s + (b - s)) with b by lia; replace (s + (a - s)) with a by lia.
  - by replace (s + (b - s)) with b by lia; replace (s + (a - s)) with a by lia.
Qed.

(** The components of a chunk, with the tags from [lo] on. *)
Lemma chunk_components s e lo :
  s ≤ e ≤ n →
  ∃ next tags,
    connected_components (chunk_adjacents s e (table_row table <$> seq s (e - s))) lo
      = Ok (next, Some <$> tags) ∧
    length tags = e - s ∧
    (∀ a t, tags !! a = Some t → lo ≤ t < next) ∧
    (∀ a b ta tb, tags !! a = Some ta → tags !! b = Some tb →
       (ta = tb ↔ rtsc (chunk_edge table s e) (s + a) (s + b))).
Proof.
  intros Hchunk.
  destruct (connected_components_spec
    (chunk_adjacents s e (table_row table <$> seq s (e - s))) lo)
    as (next & tags & Hrun & Hlen & Hrange & Hsame).
  { intros i j (Hi & Hj & Hin)%listed_chunk. apply listed_chunk. split_and!; [done..|].
    apply (table_sym _ _ Htable); [lia..|done]. }
  exists next, tags. unfold chunk_adjacents in Hlen. rewrite !length_fmap, length_seq in Hlen.
  split_and!; [done..|].
  intros a b ta tb Hta Htb. rewrite (Hsame a b ta tb Hta Htb).
  apply lookup_lt_Some in Hta, Htb. split.
  - apply (rtsc_fmap _ _ (λ i, s + i)). intros i j (Hi & Hj & Hin)%listed_chunk.
    split_and!; [lia..|done].
  - intros Hpath. destruct (rtsc_chunk_edge s e _ _ Hpath) as [_ Hl]; [lia|].
    by replace (s + a - s) with a in Hl by lia; replace (s + b - s) with b in Hl by lia.
Qed.

End Chunk.

(** *** Lists written in the shared arrays *)

Lemma mapR_unwrap (l : list nat) :
  mapR (λ t, match t with Some t => Ok t | None => Raise TypeError end) (Some <$> l) = Ok l.
Proof. induction l as [|x l IH]; csimpl; [done|]. by rewrite IH. Qed.

Lemma assign_slice_Ok {A} start stop (vals arr : list A) :
  start ≤ stop ≤ length arr → length vals = stop - start →
  assign_slice start stop vals arr = Ok (take start arr ++ vals ++ drop stop arr).
Proof.
  intros Hs Hv. unfold assign_slice.
  assert (start `min` length arr = start) as -> by lia.
  assert (start `max` (stop `min` length arr) = stop) as -> by lia.
  by rewrite decide_True by lia.
Qed.

Lemma lookup_assigned {A} start stop (vals arr : list A) a :
  start ≤ stop ≤ length arr → length vals = stop - start →
  (take start arr ++ vals ++ drop stop arr) !! a
  = if decide (start ≤ a < stop) then vals !! (a - start) else arr !! a.
Proof.
  intros Hs Hv. case_decide as Ha.
  - rewrite lookup_app_r by (rewrite length_take; lia). rewrite length_take.
    rewrite lookup_app_l by lia. f_equal. lia.
  - destruct (decide (a < start)).
    + rewrite lookup_app_l by (rewrite length_take; lia). by rewrite lookup_take_lt by lia.
    + rewrite lookup_app_r by (rewrite length_take; lia). rewrite length_take.
      rewrite lookup_app_r by lia. rewrite lookup_drop. f_equal. lia.
Qed.

Lemma length_assigned {A} start stop (vals arr : list A) :
  start ≤ stop ≤ length arr → length vals = stop - start →
  length (take start arr ++ vals ++ drop stop arr) = length arr.
Proof. intros Hs Hv. rewrite !length_app, length_take, length_drop. lia. Qed.

(** The pairs as they are written in [SHARED_ADJACENCY2]. *)
Definition flat_pairs (pairs : list (nat * nat)) : list nat :=
  pairs ≫= (λ '(tag, f), [tag; f]).

Lemma length_flat_pairs pairs : length (flat_pairs pairs) = 2 * length pairs.
Proof.
  unfold flat_pairs. induction pairs as [|[t f] pairs IH]; [done|].
  rewrite bind_cons, length_app, IH. simpl. lia.
Qed.

Lemma flat_pairs_app p q : flat_pairs (p ++ q) = flat_pairs p ++ flat_pairs q.
Proof. apply bind_app. Qed.

Lemma unpack_pairs_zeros k : unpack_pairs (replicate (2 * k) 0) = replicate k (0, 0).
Proof.
  induction k as [|k IH]; [done|].
  replace (2 * S k) with (S (S (2 * k))) by lia. cbn [replicate unpack_pairs]. by rewrite IH.
Qed.

Lemma unpack_flat_pairs pairs rest :
  unpack_pairs (flat_pairs pairs ++ rest) = pairs ++ unpack_pairs rest.
Proof.
  unfold flat_pairs. induction pairs as [|[t f] pairs IH]; [done|].
  rewrite bind_cons. cbn [app unpack_pairs]. by rewrite IH.
Qed.

Lemma length_join_le {A} (ls : list (list A)) k :
  Forall (λ l, length l ≤ k) ls → length (mjoin ls) ≤ k * length ls.
Proof.
  induction 1 as [|l ls Hl _ IH]; [simpl; lia|].
  change (mjoin (l :: ls)) with (l ++ mjoin ls). rewrite length_app, length_cons. lia.
Qed.

Lemma length_remove_dups {A} `{EqDecision A} (l : list A) :
  length (remove_dups l) ≤ length l.
Proof.
  apply submseteq_length, NoDup_submseteq; [apply NoDup_remove_dups|].
  intros x. by rewrite elem_of_remove_dups.
Qed.

(** *** The chunks *)

(** The facets of a chunk, and of the chunks of a schedule. *)
Definition chunk_facets (chunk : nat * nat) : list nat :=
  seq chunk.1 (chunk.2 - chunk.1).

Definition schedule_facets (schedule : list (nat * nat)) : list nat :=
  schedule ≫= chunk_facets.

(** The schedule runs chunks that are not empty and hold each facet once;
    the chunk that runs first holds the facet 0. *)
Record chunking (n : nat) (schedule : list (nat * nat)) : Prop := Chunking {
  chunks_facets : schedule_facets schedule ≡ₚ seq 0 n;
  chunks_nonempty : Forall (λ chunk : nat * nat, chunk.1 < chunk.2) schedule;
  chunks_first : ∀ chunk, head schedule = Some chunk → chunk.1 = 0;
}.

Definition in_chunk (chunk : nat * nat) (a : nat) : Prop := chunk.1 ≤ a < chunk.2.

Definition same_chunk (schedule : list (nat * nat)) (a b : nat) : Prop :=
  ∃ chunk, chunk ∈ schedule ∧ in_chunk chunk a ∧ in_chunk chunk b.

Lemma elem_of_chunk_facets chunk a : a ∈ chunk_facets chunk ↔ in_chunk chunk a.
Proof. unfold chunk_facets, in_chunk. rewrite elem_of_seq. lia. Qed.

Lemma elem_of_schedule_facets schedule a :
  a ∈ schedule_facets schedule ↔ ∃ chunk, chunk ∈ schedule ∧ in_chunk chunk a.
Proof.
  unfold schedule_facets. rewrite list_elem_of_bind.
  setoid_rewrite elem_of_chunk_facets. naive_solver.
Qed.

Lemma schedule_facets_app l1 l2 :
  schedule_facets (l1 ++ l2) = schedule_facets l1 ++ schedule_facets l2.
Proof. apply bind_app. Qed.

Lemma schedule_facets_cons chunk l :
  schedule_facets (chunk :: l) = chunk_facets chunk ++ schedule_facets l.
Proof. apply bind_cons. Qed.

Lemma chunk_unique schedule c c' a :
  NoDup (schedule_facets schedule) → c ∈ schedule → c' ∈ schedule →
  in_chunk c a → in_chunk c' a → c = c'.
Proof.
  induction schedule as [|x l IH]; intros Hnd Hc Hc' Ha Ha'; [by apply elem_of_nil in Hc|].
  rewrite schedule_facets_cons in Hnd. apply NoDup_app in Hnd as (_ & Hdisj & Hnd).
  apply elem_of_cons in Hc as [->|Hc], Hc' as [->|Hc'].
  - done.
  - destruct (Hdisj a); [by apply elem_of_chunk_facets|].
    apply elem_of_schedule_facets. eauto.
  - destruct (Hdisj a); [by apply elem_of_chunk_facets|].
    apply elem_of_schedule_facets. eauto.
  - by apply IH.
Qed.

Section Chunking.
Variable n : nat.
Variable schedule : list (nat * nat).
Hypothesis Hchunking : chunking n schedule.

Lemma schedule_NoDup : NoDup (schedule_facets schedule).
Proof. rewrite (chunks_facets _ _ Hchunking). apply NoDup_seq. Qed.

Lemma schedule_facets_lt a : a ∈ schedule_facets schedule ↔ a < n.
Proof. rewrite (chunks_facets _ _ Hchunking), elem_of_seq. lia. Qed.

Lemma chunk_range chunk : chunk ∈ schedule → chunk.1 < chunk.2 ≤ n.
Proof.
  intros Hin. pose proof (chunks_nonempty _ _ Hchunking) as Hne.
  rewrite Forall_forall in Hne. specialize (Hne chunk Hin). split; [done|].
  assert (chunk.2 - 1 < n); [|lia]. apply schedule_facets_lt, elem_of_schedule_facets.
  exists chunk. split; [done|]. unfold in_chunk. lia.
Qed.

Lemma chunk_cover a : a < n → ∃ chunk, chunk ∈ schedule ∧ in_chunk chunk a.
Proof. by intros Ha%schedule_facets_lt%elem_of_schedule_facets. Qed.

Lemma same_chunk_in chunk a b :
  chunk ∈ schedule → in_chunk chunk a → same_chunk schedule a b ↔ in_chunk chunk b.
Proof.
  intros Hin Ha. split.
  - intros (c' & Hc' & Ha' & Hb').
    by rewrite (chunk_unique schedule chunk c' a schedule_NoDup Hin Hc' Ha Ha').
  - intros Hb. by exists chunk.
Qed.

Lemma schedule_split_disjoint done chunk todo a :
  schedule = done ++ chunk :: todo →
  a ∈ schedule_facets done → ¬ in_chunk chunk a.
Proof.
  intros Hsplit Ha Hin. pose proof schedule_NoDup as Hnd.
  rewrite Hsplit, schedule_facets_app, schedule_facets_cons in Hnd.
  apply NoDup_app in Hnd as (_ & Hdisj & _). apply (Hdisj a Ha).
  apply elem_of_app. left. by apply elem_of_chunk_facets.
Qed.

Lemma schedule_split_capacity done chunk todo :
  schedule = done ++ chunk :: todo →
  length (schedule_facets done) + (chunk.2 - chunk.1) ≤ n.
Proof.
  intros Hsplit. pose proof (Permutation_length (chunks_facets _ _ Hchunking)) as Hlen.
  rewrite Hsplit, schedule_facets_app, schedule_facets_cons, !length_app, length_seq in Hlen.
  unfold chunk_facets in Hlen. rewrite length_seq in Hlen. lia.
Qed.

End Chunking.

Lemma schedule_facets_snoc l chunk :
  schedule_facets (l ++ [chunk]) = schedule_facets l ++ chunk_facets chunk.
Proof.
  rewrite schedule_facets_app. f_equal. unfold schedule_facets. cbn. apply app_nil_r.
Qed.

Lemma filter_Forall_id {A} (P : A → Prop) `{∀ x, Decision (P x)} (l : list A) :
  Forall P l → filter P l = l.
Proof.
  induction 1 as [|x l Hx _ IH]; [done|]. by rewrite filter_cons_True, IH.
Qed.

Lemma filter_zero_pairs k :
  filter (λ p : nat * nat, p ≠ (0, 0)) (replicate k (0, 0)) = [].
Proof. induction k as [|k IH]; [done|]. cbn [replicate]. by rewrite filter_cons_False by auto. Qed.

(** *** The first pass *)

Lemma zip_fmap_diag {A B} (g : A → B) (l : list A) :
  zip l (g <$> l) = (λ x, (x, g x)) <$> l.
Proof. induction l as [|x l IH]; csimpl; [done|]. by rewrite IH. Qed.

Section PassOne.
Context {F : Type}.
Variable set_iter_pairs : list (nat * nat) → list (nat * nat).
Hypothesis set_iter_pairs_perm : ∀ l, set_iter_pairs l ≡ₚ l.
Variable table : list Z.
Variable n : nat.
Hypothesis Htable : table_ok table n.
Variable schedule : list (nat * nat).
Hypothesis Hchunking : chunking n schedule.
Implicit Types sh : shared (F:=F).

(** The edges inside the chunks, and the edges between two chunks. *)
Definition local_edge (a b : nat) : Prop :=
  table_edge table n a b ∧ same_chunk schedule a b.

Definition cross_edge (a b : nat) : Prop :=
  table_edge table n a b ∧ ¬ same_chunk schedule a b.

(** The pairs that a chunk records for the second pass. *)
Lemma chunk_pairs s e tags :
  s ≤ e ≤ n → length tags = n →
  ∃ pairs, chunk_adjacents2 s e tags (table_row table <$> seq s (e - s)) = Ok pairs ∧
    length pairs ≤ 3 * (e - s) ∧
    ∀ t f, (t, f) ∈ pairs ↔
      ∃ a, s ≤ a < e ∧ tags !! a = Some t ∧ table_edge table n a f ∧ ¬ s ≤ f < e.
Proof.
  intros Hchunk Htags. unfold chunk_adjacents2.
  set (h := λ ir : nat * list Z,
         (λ f, (default 0 (tags !! ir.1), Z.to_nat f)) <$>
           filter (λ f, (0 ≤ f < Z.of_nat s)%Z ∨ (Z.of_nat e ≤ f)%Z) ir.2).
  rewrite (mapR_fmap _ h).
  2:{ intros [a row] Hin. apply elem_of_zip_l, elem_of_seq in Hin.
      destruct (at_lt tags a) as (t & -> & Ht); [lia|]. cbn [mbind result_bind].
      unfold h. cbn. by rewrite Ht. }
  cbn [mbind result_bind]. eexists. split; [done|].
  rewrite zip_fmap_diag, <- list_fmap_compose. split.
  - etrans; [apply (length_join_le _ 3)|by rewrite length_fmap, length_seq].
    apply Forall_fmap, Forall_forall. intros a Ha%elem_of_seq. unfold h, compose. cbn [fst snd].
    rewrite length_fmap. etrans; [apply length_filter|].
    rewrite table_row_length; [done|]. rewrite (table_length _ _ Htable). lia.
  - intros t f. rewrite list_elem_of_join. split.
    + intros (l & Hin & Hl). apply list_elem_of_fmap in Hl as (a & -> & Ha%elem_of_seq).
      unfold h, compose in Hin. cbn [fst snd] in Hin.
      apply list_elem_of_fmap in Hin as (z & [= -> ->] & Hz).
      apply list_elem_of_filter in Hz as [Hz Hin].
      destruct (lookup_lt_is_Some_2 tags a) as [t Ht]; [lia|].
      pose proof (table_bound _ _ Htable a z ltac:(lia) Hin) as Hbound.
      exists a. rewrite Ht. split; [lia|]. split; [done|]. split; [|lia].
      unfold table_edge. split_and!; [lia|lia|].
      by replace (Z.of_nat (Z.to_nat z)) with z by lia.
    + intros (a & Ha & Ht & (_ & Hf & Hin) & Hout).
      exists (h (a, table_row table a)). split.
      * unfold h. cbn [fst snd]. rewrite Ht. apply list_elem_of_fmap. exists (Z.of_nat f).
        split; [by rewrite Nat2Z.id|]. apply list_elem_of_filter. split; [lia|done].
      * apply list_elem_of_fmap. exists a. split; [done|]. apply elem_of_seq. lia.
Qed.

Lemma rtsc_chunk_local s e a b :
  (s, e) ∈ schedule → rtsc (chunk_edge table s e) a b → rtsc local_edge a b.
Proof.
  intros Hin. pose proof (chunk_range n schedule Hchunking (s, e) Hin) as Hrange.
  cbn in Hrange. apply rtsc_subrel. intros x y (Hx & Hy & Hrow). split.
  - unfold table_edge. split_and!; [lia|lia|done].
  - by exists (s, e).
Qed.

Lemma rtsc_local_chunk s e a b :
  (s, e) ∈ schedule → in_chunk (s, e) a → rtsc local_edge a b →
  in_chunk (s, e) b ∧ rtsc (chunk_edge table s e) a b.
Proof.
  intros Hin Ha Hpath. induction Hpath as [a|a b c Hab _ IH]; [split; [done|apply rtc_refl]|].
  assert (Hb : in_chunk (s, e) b).
  { destruct Hab as [[_ Hsc]|[_ Hsc]].
    - by apply (same_chunk_in n schedule Hchunking (s, e) a b Hin Ha).
    - destruct Hsc as (c' & Hc' & Hb' & Ha').
      by rewrite (chunk_unique schedule (s, e) c' a (schedule_NoDup n schedule Hchunking)
                    Hin Hc' Ha Ha'). }
  destruct (IH Hb) as [Hc Hrest]. split; [done|].
  eapply rtc_l; [|exact Hrest]. unfold in_chunk in Ha, Hb. cbn in Ha, Hb.
  destruct Hab as [[(_ & _ & Hrow) _]|[(_ & _ & Hrow) _]]; [left|right]; done.
Qed.

(** What holds when the chunks of [done] have run. *)
Record pass1_inv (done : list (nat * nat)) sh : Prop := PassOneInv {
  inv_table : sh_adjacency sh = table;
  inv_tags : length (sh_tags sh) = n;
  inv_pairs : ∃ pairs,
    sh_adjacency2 sh = flat_pairs pairs ++ replicate (6 * n - 2 * length pairs) 0 ∧
    sh_current_adj sh = 2 * length pairs ∧
    length pairs ≤ 3 * length (schedule_facets done) ∧
    ∀ t f, (t, f) ∈ pairs ↔
      ∃ a, a ∈ schedule_facets done ∧ sh_tags sh !! a = Some t ∧ cross_edge a f;
  inv_tagged : ∀ a, a ∈ schedule_facets done →
    ∃ t, sh_tags sh !! a = Some t ∧ t < sh_current_tag sh;
  inv_same : ∀ a b ta tb,
    a ∈ schedule_facets done → b ∈ schedule_facets done →
    sh_tags sh !! a = Some ta → sh_tags sh !! b = Some tb →
    (ta = tb ↔ rtsc local_edge a b);
  inv_zero : ∀ a, a ∈ schedule_facets done → sh_tags sh !! a = Some 0 →
    ∃ chunk, head schedule = Some chunk ∧ in_chunk chunk a;
  inv_positive : done ≠ [] → 0 < sh_current_tag sh;
}.

Lemma assign_pairs (P Q : list (nat * nat)) :
  2 * length P + 2 * length Q ≤ 6 * n →
  assign_slice (2 * length P) (2 * length P + length (flat_pairs Q)) (flat_pairs Q)
    (flat_pairs P ++ replicate (6 * n - 2 * length P) 0)
  = Ok (flat_pairs (P ++ Q) ++ replicate (6 * n - 2 * length (P ++ Q)) 0).
Proof.
  intros Hcap. rewrite assign_slice_Ok.
  - f_equal. rewrite take_app_length' by (by rewrite length_flat_pairs).
    rewrite drop_app_add' by (by rewrite length_flat_pairs).
    rewrite drop_replicate, flat_pairs_app, length_app, length_flat_pairs, <- app_assoc.
    do 3 f_equal. lia.
  - rewrite length_app, !length_flat_pairs, length_replicate. lia.
  - lia.
Qed.

Lemma pass1_step done s e todo sh :
  schedule = done ++ (s, e) :: todo → pass1_inv done sh →
  ∃ sh', connected_components_chunk set_iter_pairs sh (s, e) = Ok sh' ∧
         pass1_inv (done ++ [(s, e)]) sh'.
Proof.
  intros Hsplit [Htab Htags (P & Hadj2 & Hcur & HlenP & HP) Htagged Hsame Hzero Hpos].
  assert (Hin : (s, e) ∈ schedule) by (rewrite Hsplit; set_solver).
  pose proof (chunk_range n schedule Hchunking (s, e) Hin) as Hrange. cbn in Hrange.
  pose proof (schedule_split_capacity n schedule Hchunking done (s, e) todo Hsplit) as Hcap.
  cbn in Hcap.
  assert (Hdisj : ∀ a, a ∈ schedule_facets done → ¬ s ≤ a < e).
  { intros a Ha. apply (schedule_split_disjoint n schedule Hchunking done (s, e) todo a Hsplit Ha). }
  unfold connected_components_chunk. rewrite Htab.
  rewrite (unpack_rows table n Htable s e) by lia. cbn [mbind result_bind].
  destruct (chunk_components table n Htable s e (sh_current_tag sh))
    as (next & tagsN & Hcc & HlenN & Hrng & HsameN); [lia|].
  rewrite Hcc. cbn [mbind result_bind]. rewrite mapR_unwrap. cbn [mbind result_bind].
  rewrite (assign_slice_Ok s e tagsN (sh_tags sh)) by lia. cbn [mbind result_bind].
  set (tags' := take s (sh_tags sh) ++ tagsN ++ drop e (sh_tags sh)).
  assert (Hlen' : length tags' = n) by (unfold tags'; rewrite length_assigned; lia).
  assert (Hlook : ∀ a, tags' !! a
            = if decide (s ≤ a < e) then tagsN !! (a - s) else sh_tags sh !! a).
  { intros a. apply lookup_assigned; lia. }
  destruct (chunk_pairs s e tags') as (pairs & -> & Hlenpairs & Hpairs); [lia|done|].
  cbn [mbind result_bind].
  set (Q := set_iter_pairs (remove_dups pairs)).
  assert (HlenQ : length Q ≤ 3 * (e - s)).
  { unfold Q. rewrite set_iter_pairs_perm. etrans; [apply length_remove_dups|done]. }
  assert (HQ : ∀ p, p ∈ Q ↔ p ∈ pairs).
  { intros p. unfold Q. by rewrite set_iter_pairs_perm, elem_of_remove_dups. }
  change (Q ≫= _) with (flat_pairs Q). rewrite Hcur, Hadj2.
  rewrite assign_pairs by lia. cbn [mbind result_bind].
  assert (Hnext : sh_current_tag sh < next).
  { destruct (lookup_lt_is_Some_2 tagsN 0) as [t Ht]; [lia|]. specialize (Hrng 0 t Ht). lia. }
  assert (Hnew : ∀ a, s ≤ a < e → ∃ t, tags' !! a = Some t ∧ sh_current_tag sh ≤ t < next).
  { intros a Ha. destruct (lookup_lt_is_Some_2 tagsN (a - s)) as [t Ht]; [lia|].
    exists t. rewrite Hlook, decide_True by done. split; [done|]. by eapply Hrng. }
  assert (Hold : ∀ a, a ∈ schedule_facets done → tags' !! a = sh_tags sh !! a).
  { intros a Ha. rewrite Hlook, decide_False; [done|]. by apply Hdisj. }
  assert (Hfacets : ∀ a, a ∈ schedule_facets (done ++ [(s, e)]) ↔
            a ∈ schedule_facets done ∨ s ≤ a < e).
  { intros a. by rewrite schedule_facets_snoc, elem_of_app, elem_of_chunk_facets. }
  eexists. split; [reflexivity|]. constructor; cbn [sh_adjacency sh_tags sh_adjacency2
    sh_current_tag sh_current_adj].
  - done.
  - done.
  - exists (P ++ Q). split_and!.
    + done.
    + rewrite length_flat_pairs, length_app. lia.
    + rewrite schedule_facets_snoc, !length_app. unfold chunk_facets.
      rewrite length_seq. cbn [fst snd]. lia.
    + intros t f. rewrite elem_of_app, HP, HQ, Hpairs. split.
      * intros [(a & Ha & Ht & Hcross)|(a & Ha & Ht & Hedge & Hout)].
        -- exists a. rewrite Hfacets, Hold by done. auto.
        -- exists a. rewrite Hfacets. split_and!; [auto|done|]. split; [done|].
           by rewrite (same_chunk_in n schedule Hchunking (s, e) a f Hin Ha).
      * intros (a & [Ha|Ha]%Hfacets & Ht & Hcross).
        -- left. exists a. by rewrite <- Hold.
        -- right. exists a. destruct Hcross as [Hedge Hnot].
           split; [done|]. split; [done|]. split; [done|].
           by rewrite (same_chunk_in n schedule Hchunking (s, e) a f Hin Ha) in Hnot.
  - intros a [Ha|Ha]%Hfacets.
    + rewrite Hold by done. destruct (Htagged a Ha) as (t & ? & ?). exists t. split; [done|lia].
    + destruct (Hnew a Ha) as (t & ? & ?). exists t. split; [done|lia].
  - intros a b ta tb [Ha|Ha]%Hfacets [Hb|Hb]%Hfacets Hta Htb.
    + rewrite Hold in Hta, Htb by done. by apply Hsame.
    + rewrite Hold in Hta by done. destruct (Htagged a Ha) as (t & Ht & ?).
      destruct (Hnew b Hb) as (t' & Ht' & ?). simplify_eq. split; [lia|].
      intros Hpath. symmetry in Hpath.
      destruct (rtsc_local_chunk s e b a Hin Hb Hpath) as [Ha' _].
      by destruct (Hdisj a Ha).
    + rewrite Hold in Htb by done. destruct (Htagged b Hb) as (t & Ht & ?).
      destruct (Hnew a Ha) as (t' & Ht' & ?). simplify_eq. split; [lia|].
      intros Hpath. destruct (rtsc_local_chunk s e a b Hin Ha Hpath) as [Hb' _].
      by destruct (Hdisj b Hb).
    + rewrite Hlook, decide_True in Hta by done. rewrite Hlook, decide_True in Htb by done.
      rewrite (HsameN _ _ _ _ Hta Htb).
      replace (s + (a - s)) with a by lia. replace (s + (b - s)) with b by lia. split.
      * by apply rtsc_chunk_local.
      * intros Hpath. by destruct (rtsc_local_chunk s e a b Hin Ha Hpath).
  - intros a [Ha|Ha]%Hfacets Ht.
    + rewrite Hold in Ht by done. by apply Hzero.
    + destruct (Hnew a Ha) as (t & Ht' & ?). simplify_eq.
      destruct done as [|c0 done0]; [|specialize (Hpos ltac:(done)); lia].
      exists (s, e). by rewrite Hsplit.
  - intros _. lia.
Qed.

Lemma pass1_fold todo : ∀ done sh,
  schedule = done ++ todo → pass1_inv done sh →
  ∃ sh', foldlM (connected_components_chunk set_iter_pairs) sh todo = Ok sh' ∧
         pass1_inv schedule sh'.
Proof.
  induction todo as [|[s e] todo IH]; intros done sh Hsplit Hinv.
  - rewrite app_nil_r in Hsplit. rewrite <- Hsplit in Hinv. by exists sh.
  - destruct (pass1_step done s e todo sh Hsplit Hinv) as (sh1 & Hrun1 & Hinv1).
    destruct (IH (done ++ [(s, e)]) sh1) as (sh' & Hrun & Hinv'); [by rewrite <- app_assoc|done|].
    exists sh'. split; [|done]. cbn [foldlM]. rewrite Hrun1. exact Hrun.
Qed.

Lemma pass1_init sh :
  sh_adjacency sh = table → length (sh_tags sh) = n →
  sh_adjacency2 sh = replicate (6 * n) 0 → sh_current_adj sh = 0 →
  pass1_inv [] sh.
Proof.
  intros Htab Htags Hadj2 Hcur. constructor.
  - done.
  - done.
  - exists []. split_and!; [|done|done|].
    + rewrite Hadj2. cbn. f_equal. lia.
    + intros t f. split; [by intros ?%elem_of_nil|]. by intros (a & ?%elem_of_nil & _).
  - by intros a ?%elem_of_nil.
  - by intros a b ta tb ?%elem_of_nil.
  - by intros a ?%elem_of_nil.
  - done.
Qed.

(** *** The second pass *)

Lemma subadjacency_fold tags1 maxtag (pairs : list (nat * nat)) : ∀ sub0,
  length sub0 = maxtag →
  (∀ t f, (t, f) ∈ pairs → t < maxtag ∧ f < length tags1) →
  ∃ sub, foldlM (λ subadjacency '(tag, ifacet),
           other_tag ← at_ tags1 ifacet;
           if decide (tag ≠ other_tag) then
             row ← at_ subadjacency tag;
             Ok (<[tag := row ++ [other_tag]]> subadjacency)
           else Ok subadjacency) sub0 pairs = Ok sub ∧
    length sub = maxtag ∧
    ∀ t u, listed sub t u ↔
      listed sub0 t u ∨ ∃ f, (t, f) ∈ pairs ∧ tags1 !! f = Some u ∧ t ≠ u.
Proof.
  induction pairs as [|[t0 f0] pairs IH]; intros sub0 Hlen Hpairs.
  { exists sub0. split_and!; [done..|]. intros t u. split; [auto|].
    intros [?|(f & ?%elem_of_nil & _)]; done. }
  destruct (Hpairs t0 f0) as [Ht0 Hf0]; [left|].
  destruct (at_lt tags1 f0 Hf0) as (u0 & Hat & Hu0).
  cbn [foldlM]. rewrite Hat. cbn [mbind result_bind].
  assert (Hrest : ∀ t f, (t, f) ∈ pairs → t < maxtag ∧ f < length tags1).
  { intros t f Hin. apply Hpairs. by right. }
  destruct (decide (t0 ≠ u0)) as [Hne|Heq].
  - destruct (at_lt sub0 t0) as (row & -> & Hrow); [lia|]. cbn [mbind result_bind].
    destruct (IH (<[t0 := row ++ [u0]]> sub0)) as (sub & Hrun & Hlen' & Hsub);
      [by rewrite length_insert|done|].
    exists sub. split_and!; [done..|]. intros t u. rewrite Hsub. unfold listed.
    setoid_rewrite elem_of_cons. destruct (decide (t = t0)) as [->|Hne'].
    + rewrite list_lookup_insert_eq by lia. split.
      * intros [(row' & [= <-] & [Hu| ->%list_elem_of_singleton]%elem_of_app)|(f & ? & ? & ?)];
          [left; eauto|right; exists f0; auto|right; eauto].
      * intros [(row' & Hrow' & Hu)|(f & [[= <-]|Hin] & Hf & Hneq)].
        -- left. exists (row ++ [u0]). split; [done|]. simplify_eq. set_solver.
        -- left. exists (row ++ [u0]). split; [done|]. simplify_eq. set_solver.
        -- right. eauto.
    + rewrite list_lookup_insert_ne by done. naive_solver.
  - destruct (IH sub0) as (sub & Hrun & Hlen' & Hsub); [done..|].
    exists sub. split_and!; [done..|]. intros t u. rewrite Hsub.
    setoid_rewrite elem_of_cons. naive_solver.
Qed.

Lemma same_chunk_sym a b : same_chunk schedule a b → same_chunk schedule b a.
Proof. intros (c & ? & ? & ?). by exists c. Qed.

Lemma table_edge_sym a b : table_edge table n a b → table_edge table n b a.
Proof.
  intros (Ha & Hb & Hrow). unfold table_edge. split_and!; [done..|].
  by apply (table_sym _ _ Htable).
Qed.

Lemma cross_edge_sym a b : cross_edge a b → cross_edge b a.
Proof.
  intros [Hedge Hnot]. split; [by apply table_edge_sym|].
  intros Hsc. by apply Hnot, same_chunk_sym.
Qed.

Lemma rtsc_local_table a b : rtsc local_edge a b → rtsc (table_edge table n) a b.
Proof. apply rtsc_subrel. by intros x y [? _]. Qed.

Section Merge.
Variable tags1 : list nat.
Hypothesis Htags1 : length tags1 = n.
Hypothesis Hsame1 : ∀ a b ta tb, tags1 !! a = Some ta → tags1 !! b = Some tb →
  (ta = tb ↔ rtsc local_edge a b).

(** The edges of the second pass, between the tags of the first pass. *)
Definition merge_edge (t u : nat) : Prop :=
  ∃ a f, tags1 !! a = Some t ∧ tags1 !! f = Some u ∧ cross_edge a f ∧ t ≠ u.

Lemma merge_edge_sym t u : merge_edge t u → merge_edge u t.
Proof.
  intros (a & f & Ha & Hf & Hcross & Hne). exists f, a.
  split_and!; [done|done|by apply cross_edge_sym|done].
Qed.

Lemma merge_to_table t u :
  rtsc merge_edge t u →
  ∀ a b, tags1 !! a = Some t → tags1 !! b = Some u → rtsc (table_edge table n) a b.
Proof.
  induction 1 as [t|t t' u Hstep _ IH]; intros a b Ha Hb.
  - by apply rtsc_local_table, (Hsame1 a b t t).
  - destruct Hstep as [(a' & f & Ha' & Hf & [Hedge _] & _)|(a' & f & Ha' & Hf & [Hedge _] & _)].
    + transitivity a'; [by apply rtsc_local_table, (Hsame1 a a' t t)|].
      eapply rtc_l; [left; exact Hedge|]. by apply IH.
    + transitivity f; [by apply rtsc_local_table, (Hsame1 a f t t)|].
      eapply rtc_l; [right; exact Hedge|]. by apply IH.
Qed.

Lemma table_to_merge a b :
  rtsc (table_edge table n) a b →
  ∀ ta tb, tags1 !! a = Some ta → tags1 !! b = Some tb → rtsc merge_edge ta tb.
Proof.
  induction 1 as [a|a c b Hstep _ IH]; intros ta tb Ha Hb.
  { simplify_eq. apply rtc_refl. }
  assert (Hc : c < n) by (destruct Hstep as [(? & ? & ?)|(? & ? & ?)]; done).
  destruct (lookup_lt_is_Some_2 tags1 c) as [tc Htc]; [lia|].
  destruct (decide (ta = tc)) as [->|Hne]; [by apply IH|].
  eapply rtc_l; [|by apply (IH tc tb)].
  assert (Hnot : ¬ same_chunk schedule a c).
  { intros Hsc. apply Hne, (Hsame1 a c ta tc Ha Htc), rtc_once.
    destruct Hstep; [left|right]; split; [done|done|done|by apply same_chunk_sym]. }
  destruct Hstep as [Hac|Hca]; [left|right].
  - exists a, c. split_and!; [done|done| |done]. by split.
  - exists c, a. split_and!; [done|done| |done]. split; [done|].
    intros Hsc. by apply Hnot, same_chunk_sym.
Qed.

End Merge.

(** The two passes on a symmetric table: two facets get the same tag if and
    only if a path of the table joins them. *)
Lemma two_pass_run sh :
  sh_adjacency sh = table → length (sh_tags sh) = n →
  sh_adjacency2 sh = replicate (6 * n) 0 → sh_current_adj sh = 0 →
  ∃ sh', main_connected_components set_iter_pairs sh schedule = Ok sh' ∧
    length (sh_tags sh') = n ∧
    ∀ a b ta tb, sh_tags sh' !! a = Some ta → sh_tags sh' !! b = Some tb →
      (ta = tb ↔ rtsc (table_edge table n) a b).
Proof.
  intros Htab Htags Hadj2 Hcur.
  destruct (pass1_fold schedule [] sh eq_refl (pass1_init sh Htab Htags Hadj2 Hcur))
    as (sh1 & Hrun1 & [Htab1 Htags1 (P & HadjP & _ & _ & HP) Htagged Hsame Hzero _]).
  assert (Hall : ∀ a, a < n ↔ a ∈ schedule_facets schedule).
  { intros a. by rewrite (schedule_facets_lt n schedule Hchunking). }
  assert (Hsame1 : ∀ a b ta tb, sh_tags sh1 !! a = Some ta → sh_tags sh1 !! b = Some tb →
            (ta = tb ↔ rtsc local_edge a b)).
  { intros a b ta tb Ha Hb. apply Hsame; [| |done..].
    - apply Hall. rewrite <- Htags1. by eapply lookup_lt_Some.
    - apply Hall. rewrite <- Htags1. by eapply lookup_lt_Some. }
  assert (Hnonzero : Forall (λ p : nat * nat, p ≠ (0, 0)) P).
  { apply Forall_forall. intros [t f] Hin [= -> ->].
    apply HP in Hin as (a & Ha & Hta & _ & Hnot).
    destruct (Hzero a Ha Hta) as (c & Hhead & Hin).
    assert (Hc : c ∈ schedule).
    { destruct schedule as [|c' l]; [done|]. injection Hhead as ->. left. }
    pose proof (chunks_first _ _ Hchunking c Hhead) as Hfirst.
    pose proof (chunk_range n schedule Hchunking c Hc) as Hrange.
    apply Hnot. exists c. split_and!; [done|done|]. unfold in_chunk. lia. }
  unfold main_connected_components. rewrite Hrun1. cbn [mbind result_bind].
  unfold subadjacency_of. rewrite HadjP, unpack_flat_pairs.
  replace (6 * n - 2 * length P) with (2 * (3 * n - length P)) by lia.
  rewrite unpack_pairs_zeros, filter_app, filter_zero_pairs, app_nil_r,
    (filter_Forall_id _ _ Hnonzero).
  destruct (subadjacency_fold (sh_tags sh1) (sh_current_tag sh1) P
              (replicate (sh_current_tag sh1) [])) as (sub & Hsubrun & Hlensub & Hsub).
  { apply length_replicate. }
  { intros t f (a & Ha & Hta & (_ & Hf & _) & _)%HP. split; [|lia].
    destruct (Htagged a Ha) as (t' & Ht' & ?). by simplify_eq. }
  rewrite Hsubrun. cbn [mbind result_bind].
  assert (Hlisted : ∀ t u, listed sub t u ↔ merge_edge (sh_tags sh1) t u).
  { intros t u. rewrite Hsub. split.
    - intros [(row & Hrow & Hu)|(f & (a & Ha & Hta & Hcross)%HP & Hf & Hne)].
      + apply lookup_replicate in Hrow as [-> _]. by apply elem_of_nil in Hu.
      + by exists a, f.
    - intros (a & f & Hta & Hf & Hcross & Hne). right. exists f. split_and!; [|done..].
      apply HP. exists a. split_and!; [|done..]. apply Hall. by destruct Hcross as [(? & _) _]. }
  destruct (connected_components_spec sub (sh_current_tag sh1))
    as (next2 & tags2 & Hrun2 & Hlen2 & _ & Hsame2).
  { intros t u. rewrite !Hlisted. apply merge_edge_sym. }
  rewrite Hrun2. cbn [mbind result_bind].
  rewrite (mapR_fmap _ (λ tag, default 0 (tags2 !! tag))).
  2:{ intros tag [a Ha]%list_elem_of_lookup.
      destruct (Htagged a) as (t & Ht & Hlt).
      { apply Hall. rewrite <- Htags1. by eapply lookup_lt_Some. }
      assert (t = tag) as -> by congruence.
      destruct (lookup_lt_is_Some_2 tags2 tag) as [t2 Ht2]; [lia|].
      unfold at_. rewrite list_lookup_fmap, Ht2. done. }
  cbn [mbind result_bind]. eexists. split; [reflexivity|]. cbn [sh_tags]. split.
  { by rewrite length_fmap. }
  intros a b ta tb Hta Htb. rewrite list_lookup_fmap in Hta, Htb.
  destruct (sh_tags sh1 !! a) as [t1a|] eqn:H1a; [|done].
  destruct (sh_tags sh1 !! b) as [t1b|] eqn:H1b; [|done].
  cbn in Hta, Htb.
  assert (Hlt : ∀ x t, sh_tags sh1 !! x = Some t → t < length tags2).
  { intros x t Hx. destruct (Htagged x) as (t' & Ht' & ?).
    - apply Hall. rewrite <- Htags1. by eapply lookup_lt_Some.
    - simplify_eq. lia. }
  destruct (lookup_lt_is_Some_2 tags2 t1a (Hlt a t1a H1a)) as [t2a H2a].
  destruct (lookup_lt_is_Some_2 tags2 t1b (Hlt b t1b H1b)) as [t2b H2b].
  rewrite H2a in Hta. rewrite H2b in Htb. cbn in Hta, Htb. simplify_eq.
  rewrite (Hsame2 _ _ _ _ H2a H2b). split.
  - intros Hpath. apply (merge_to_table (sh_tags sh1) Hsame1 t1a t1b); [|done..].
    revert Hpath. apply rtsc_subrel. intros x y. apply Hlisted.
  - intros Hpath. eapply rtsc_subrel; [intros x y; apply Hlisted|].
    by apply (table_to_merge (sh_tags sh1) Htags1 Hsame1 a b).
Qed.

(** The single-process algorithm on the same table. *)
Lemma single_process_run sh :
  sh_adjacency sh = table → length (sh_facets sh) = n →
  ∃ tags, single_process_components sh = Ok (Some <$> tags) ∧ length tags = n ∧
    ∀ a b ta tb, tags !! a = Some ta → tags !! b = Some tb →
      (ta = tb ↔ rtsc (table_edge table n) a b).
Proof.
  intros Htab Hn. unfold single_process_components. rewrite Htab, Hn.
  pose proof (unpack_rows table n Htable 0 n (le_n n)) as Hrows.
  rewrite Nat.sub_0_r in Hrows. rewrite Hrows. cbn [mbind result_bind].
  destruct (chunk_components table n Htable 0 n 0) as (next & tags & Hrun & Hlen & _ & Hsame);
    [lia|].
  rewrite Nat.sub_0_r in Hrun, Hlen. rewrite Hrun. cbn [mbind result_bind].
  exists tags. split_and!; [done..|].
  intros a b ta tb Hta Htb. rewrite (Hsame a b ta tb Hta Htb). cbn [Nat.add].
  split; apply rtsc_subrel; intros x y (? & ? & ?); unfold table_edge, chunk_edge;
    split_and!; (done || lia).
Qed.

End PassOne.

(** C2, amended. On a symmetric adjacency table, for chunks that are not
    empty, hold each facet once and run in an order where the chunk of
    facet 0 comes first, the two-pass algorithm and the single-process
    algorithm return, and they give the same partition: two facets have
    the same tag after the two passes if and only if they have the same
    tag in the single process, which is the case if and only if a path of
    the table joins them. *)
Theorem two_pass_partition {F : Type}
    (set_iter_pairs : list (nat * nat) → list (nat * nat))
    (sh : shared (F:=F)) (schedule : list (nat * nat)) :
  (∀ l, set_iter_pairs l ≡ₚ l) →
  table_ok (sh_adjacency sh) (length (sh_facets sh)) →
  chunking (length (sh_facets sh)) schedule →
  length (sh_tags sh) = length (sh_facets sh) →
  sh_adjacency2 sh = replicate (6 * length (sh_facets sh)) 0 →
  sh_current_adj sh = 0 →
  ∃ sh' tags,
    main_connected_components set_iter_pairs sh schedule = Ok sh' ∧
    single_process_components sh = Ok (Some <$> tags) ∧
    length (sh_tags sh') = length (sh_facets sh) ∧
    length tags = length (sh_facets sh) ∧
    ∀ a b ta tb ta' tb',
      sh_tags sh' !! a = Some ta → sh_tags sh' !! b = Some tb →
      tags !! a = Some ta' → tags !! b = Some tb' →
      (ta = tb ↔ ta' = tb') ∧
      (ta = tb ↔ rtsc (table_edge (sh_adjacency sh) (length (sh_facets sh))) a b).
Proof.
  intros Hperm Htable Hchunking Htags Hadj2 Hcur.
  destruct (two_pass_run set_iter_pairs Hperm (sh_adjacency sh) (length (sh_facets sh))
              Htable schedule Hchunking sh eq_refl Htags Hadj2 Hcur)
    as (sh' & Hrun & Hlen & Hsame).
  destruct (single_process_run (sh_adjacency sh) (length (sh_facets sh)) Htable sh
              eq_refl eq_refl) as (tags & Hrun' & Hlen' & Hsame').
  exists sh', tags. split_and!; [done..|].
  intros a b ta tb ta' tb' Hta Htb Hta' Htb'.
  rewrite (Hsame a b ta tb Hta Htb), (Hsame' a b ta' tb' Hta' Htb'). done.
Qed.

(** Four facets in a strip, in the plane z = 0. *)
Definition strip : RenderMesh.mesh (F:=Z) :=
  RenderMesh.Mesh
    [(0, 0, 0); (1, 0, 0); (0, 1, 0); (1, 1, 0); (0, 2, 0); (1, 2, 0)]%Z
    [(0, 1, 2); (1, 3, 2); (2, 3, 4); (3, 5, 4)]
    (replicate 4 (0, 0, 1)%Z) (replicate 4 1%Z) [] [].

(** The arrays of the workers for the strip, with its adjacency table. *)
Definition strip_shared : shared (F:=Z) :=
  set_adjacency (worker_input strip 0%Z)
    [1; -1; -1;  0; 2; -1;  1; 3; -1;  2; -1; -1]%Z.

Example strip_adjacency :
  main_adjacency ascending int_dot int_ge cos_at_0 (worker_input strip 0%Z) [(0, 4)]
    = Ok strip_shared ∧
  main_chunks strip_shared 6 = Ok [(0, 2); (2, 4)].
Proof. split; vm_compute; reflexivity. Qed.

(** Evaluates the rows of a table that is given in full. *)
Ltac eval_rows :=
  repeat match goal with
  | H : context [table_row ?t ?a] |- _ =>
    let r := eval vm_compute in (table_row t a) in change (table_row t a) with r in H
  | |- context [table_row ?t ?a] =>
    let r := eval vm_compute in (table_row t a) in change (table_row t a) with r
  end.

Lemma two_pass_partition_witness :
  ∃ sh' tags,
    main_connected_components (λ l, l) strip_shared [(0, 2); (2, 4)] = Ok sh' ∧
    single_process_components strip_shared = Ok (Some <$> tags) ∧
    ∀ a b ta tb ta' tb',
      sh_tags sh' !! a = Some ta → sh_tags sh' !! b = Some tb →
      tags !! a = Some ta' → tags !! b = Some tb' →
      (ta = tb ↔ ta' = tb').
Proof.
  destruct (two_pass_partition (λ l, l) strip_shared [(0, 2); (2, 4)])
    as (sh' & tags & H1 & H2 & _ & _ & H3).
  - intros l. reflexivity.
  - constructor.
    + reflexivity.
    + intros a z Ha Hz.
      do 4 (destruct a as [|a];
        [eval_rows; rewrite ?elem_of_cons, elem_of_nil in Hz; cbn; lia|]).
      cbn in Ha. lia.
    + intros a b Ha Hb Hin.
      do 4 (destruct a as [|a];
        [do 4 (destruct b as [|b];
           [eval_rows; rewrite ?elem_of_cons, elem_of_nil in Hin |- *; lia|]);
         cbn in Hb; lia|]).
      cbn in Ha. lia.
  - constructor.
    + reflexivity.
    + repeat constructor.
    + intros chunk [= <-]. reflexivity.
  - reflexivity.
  - reflexivity.
  - reflexivity.
  - exists sh', tags. split_and!; [assumption..|].
    intros a b ta tb ta' tb' Ha Hb Ha' Hb'. by destruct (H3 a b ta tb ta' tb').
Defined.

(** Six facets: four on the edge (0, 1), and two that join the last of
    them to the facet 0. *)
Definition fan_tail : RenderMesh.mesh (F:=Z) :=
  RenderMesh.Mesh
    [(0, 0, 0); (1, 0, 0); (0, 1, 0); (1, 1, 0); (0, 2, 0); (1, 2, 0); (2, 2, 0); (2, 3, 0)]%Z
    [(5, 6, 7); (0, 1, 2); (0, 1, 3); (0, 1, 4); (0, 1, 5); (1, 5, 6)]
    (replicate 6 (0, 0, 1)%Z) (replicate 6 1%Z) [] [].

(** C2 does not hold as it is stated: the chunk builder keeps three of the
    four neighbours of facet 4 and leaves out facet 5, which has facet 4 in
    its row. With the chunks (0, 3) and (3, 6) of [main], the two passes
    give the facets 0 and 1 two tags; the single process gives them the
    same tag. *)
Lemma two_pass_differs :
  ∃ (sh sh' : shared (F:=Z)) tags,
    main_adjacency ascending int_dot int_ge cos_at_0 (worker_input fan_tail 0%Z) [(0, 6)]
      = Ok sh ∧
    main_chunks sh 6 = Ok [(0, 3); (3, 6)] ∧
    main_connected_components (λ l, l) sh [(0, 3); (3, 6)] = Ok sh' ∧
    single_process_components sh = Ok tags ∧
    sh_tags sh' !! 0 = Some 4 ∧ sh_tags sh' !! 1 = Some 5 ∧
    tags !! 0 = Some (Some 0) ∧ tags !! 1 = Some (Some 0).
Proof.
  eexists _, _, _. split_and!; [vm_compute; reflexivity..| | | |]; reflexivity.
Qed.

(** The pairs (0, 0) of [SHARED_ADJACENCY2] are taken as unused slots: when
    a chunk that does not hold facet 0 takes the tag 0, the pair of a
    neighbour of facet 0 is lost. Two facets that share an edge, each in
    its chunk, get two tags when the second chunk runs first. *)
Example two_pass_zero_pair :
  sh_tags <$>
    (match main_connected_components (λ l, l)
             (set_adjacency
                (make_shared 4 [(0, 1, 2); (1, 3, 2)] (replicate 2 (0, 0, 1)%Z) 0%Z)
                [1; -1; -1;  0; -1; -1]%Z)
             [(1, 2); (0, 1)]
     with Ok sh' => Some sh' | Raise _ => None end)
  = Some [3; 2].
Proof. vm_compute. reflexivity. Qed.

(** * More of the code *)

(** ** The chunks of [main] *)

Lemma make_chunks_from_spec c n :
  0 < c → ∀ fuel i, n - i ≤ fuel →
  schedule_facets (make_chunks_from fuel i c n) = seq i (n - i) ∧
  Forall (λ chunk : nat * nat, chunk.1 < chunk.2 ∧ chunk.2 - chunk.1 ≤ c)
    (make_chunks_from fuel i c n) ∧
  length (make_chunks_from fuel i c n) = (n - i + c - 1) / c ∧
  (∀ chunk, head (make_chunks_from fuel i c n) = Some chunk → chunk.1 = i).
Proof.
  intros Hc. induction fuel as [|fuel IH]; intros i Hfuel.
  { replace (n - i) with 0 by lia. cbn. split_and!; [done|done| |done].
    symmetry. apply Nat.div_small. lia. }
  cbn [make_chunks_from]. case_decide as Hi.
  - destruct (IH (i + c)) as (Hfacets & Hsizes & Hlen & _); [lia|].
    rewrite schedule_facets_cons, Hfacets. unfold chunk_facets. cbn [fst snd].
    split_and!.
    + destruct (decide (i + c ≤ n)).
      * replace ((i + c) `min` n - i) with c by lia.
        rewrite <- seq_app. f_equal. lia.
      * replace ((i + c) `min` n - i) with (n - i) by lia.
        replace (n - (i + c)) with 0 by lia. apply app_nil_r.
    + constructor; [cbn; lia|done].
    + cbn [length]. rewrite Hlen. destruct (decide (i + c ≤ n)).
      * replace (n - i + c - 1) with (n - (i + c) + c - 1 + 1 * c) by lia.
        rewrite Nat.div_add by lia. lia.
      * replace (n - (i + c) + c - 1) with (c - 1) by lia.
        rewrite (Nat.div_small (c - 1)) by lia.
        apply (Nat.div_unique _ _ _ (n - i - 1)); lia.
    + by intros chunk [= <-].
  - replace (n - i) with 0 by lia. cbn. split_and!; [done|done| |done].
    symmetry. apply Nat.div_small. lia.
Qed.

Lemma make_chunks_from_single fuel c n :
  0 < fuel → 0 < n → n ≤ c → make_chunks_from fuel 0 c n = [(0, n)].
Proof.
  intros Hfuel Hn Hc. destruct fuel as [|fuel]; [lia|].
  cbn [make_chunks_from]. rewrite decide_True by lia.
  rewrite Nat.add_0_l, Nat.min_r by lia. f_equal.
  destruct fuel as [|fuel]; [done|]. cbn [make_chunks_from]. by rewrite decide_False by lia.
Qed.

(** X1. [make_chunks] raises [ValueError] for a chunk size 0, whatever the
    length. For a positive chunk size it cuts the range [0 .. length - 1]
    into consecutive chunks, none empty and none larger than the chunk
    size; there are ceil(length / chunk_size) of them. *)
Theorem make_chunks_cover (chunk_size length : nat) :
  0 < chunk_size →
  make_chunks 0 length = Raise ValueError ∧
  ∃ chunks, make_chunks chunk_size length = Ok chunks ∧
    schedule_facets chunks = seq 0 length ∧
    Forall (λ chunk : nat * nat, chunk.1 < chunk.2 ∧ chunk.2 - chunk.1 ≤ chunk_size) chunks ∧
    List.length chunks = (length + chunk_size - 1) / chunk_size.
Proof.
  intros Hc. split; [done|]. unfold make_chunks. rewrite decide_False by lia.
  destruct (make_chunks_from_spec chunk_size length Hc length 0) as (H1 & H2 & H3 & _); [lia|].
  rewrite Nat.sub_0_r in H1, H3. eauto.
Qed.

Lemma make_chunks_cover_witness :
  ∃ chunks, make_chunks 3 7 = Ok chunks ∧ schedule_facets chunks = seq 0 7 ∧
    List.length chunks = 3.
Proof.
  destruct (make_chunks_cover 3 7) as (_ & chunks & H1 & H2 & _ & H3); [lia|].
  exists chunks. split_and!; [exact H1|exact H2|exact H3].
Defined.

(** X2. The chunks that [main] makes for the first pass of the connected
    components, [make_chunks(len_facets // nproc, len_facets // 3)] with
    [len_facets] three times the number of facets. With more processes
    than three times the number of facets (so for a mesh without facet)
    the chunk size is 0 and [ValueError] is raised. Otherwise the chunks
    hold each facet once, none is empty, the first one starts at facet 0,
    and none holds more than [len_facets // nproc] facets; with three
    processes or fewer there is one chunk, the whole range. *)
Theorem main_chunks_spec {F : Type} (sh : shared (F:=F)) (nproc : nat) :
  0 < nproc →
  (3 * length (sh_facets sh) < nproc → main_chunks sh nproc = Raise ValueError) ∧
  (nproc ≤ 3 * length (sh_facets sh) →
   ∃ chunks, main_chunks sh nproc = Ok chunks ∧
     chunking (length (sh_facets sh)) chunks ∧
     Forall (λ chunk : nat * nat,
               chunk.2 - chunk.1 ≤ 3 * length (sh_facets sh) / nproc) chunks ∧
     (nproc ≤ 3 → chunks = [(0, length (sh_facets sh))])).
Proof.
  intros Hn. unfold main_chunks. rewrite decide_False by lia.
  set (n := length (sh_facets sh)).
  replace (3 * n / 3) with n by (apply Nat.div_unique_exact; lia).
  split.
  - intros Hsmall. unfold make_chunks. by rewrite Nat.div_small, decide_True by lia.
  - intros Hbig.
    assert (Hc : 0 < 3 * n / nproc) by (apply Nat.div_str_pos; lia).
    destruct (make_chunks_cover (3 * n / nproc) n Hc) as (_ & chunks & Hrun & Hfacets & Hsizes & Hlen).
    exists chunks. split; [done|]. split_and!.
    + constructor.
      * by rewrite Hfacets.
      * eapply Forall_impl; [exact Hsizes|]. by intros chunk [? _].
      * unfold make_chunks in Hrun. rewrite decide_False in Hrun by lia.
        injection Hrun as <-.
        destruct (make_chunks_from_spec (3 * n / nproc) n Hc n 0) as (_ & _ & _ & Hhead); [lia|].
        exact Hhead.
    + eapply Forall_impl; [exact Hsizes|]. by intros chunk [_ ?].
    + intros Hthree.
      assert (Hge : n ≤ 3 * n / nproc).
      { apply Nat.div_le_lower_bound; [lia|]. nia. }
      unfold make_chunks in Hrun. rewrite decide_False in Hrun by lia.
      injection Hrun as <-. apply make_chunks_from_single; [lia|lia|exact Hge].
Qed.

Lemma main_chunks_spec_witness :
  ∃ chunks, main_chunks strip_shared 6 = Ok chunks ∧ chunking 4 chunks.
Proof.
  destruct (main_chunks_spec strip_shared 6) as [_ Hok]; [lia|].
  destruct Hok as (chunks & H1 & H2 & _); [cbn; lia|].
  exists chunks. split; [exact H1|exact H2].
Defined.

(** ** The aligned chunks of the vectorized builder *)

(** [align(index)] in [make_chunks_aligned]: an index that is 0 or past
    the end is returned as it is; otherwise [dropwhile] skips the pairs
    that have the first component of [values[index]], from [index] on, and
    [next] gives the index of the first pair left. [None]: no pair is
    left, [next] raises [StopIteration] (in the generator of the chunks,
    which ends it with a [RuntimeError]). *)
Definition align (values : list (nat * nat)) (index : nat) : option nat :=
  match values !! index with
  | None => Some index
  | Some v =>
    if decide (index = 0) then Some index
    else fst <$> head (dropwhile (λ x : nat * (nat * nat), bool_decide (x.2.1 = v.1))
                         (imap (λ i x, (index + i, x)) (drop index values)))
  end.

(** [make_chunks_aligned(chunk_size, length, values)] is a generator, which
    yields [(align(start), align(stop))] for each chunk of [make_chunks], in
    order. [aligned_chunk] is one item; it is [None] when one of its two
    [align] raises [StopIteration]: the generator then ends with a
    [RuntimeError] and yields nothing more. *)
Definition aligned_chunk (values : list (nat * nat)) (chunk : nat * nat)
  : option (nat * nat) :=
  let '(start, stop) := chunk in
  match align values start with
  | Some s =>
    match align values stop with
    | Some e => Some (s, e)
    | None => None
    end
  | None => None
  end.

(** The items that the generator yields, and whether it ends with the
    [RuntimeError]. *)
Fixpoint aligned_chunks (values : list (nat * nat)) (chunks : list (nat * nat))
  : list (nat * nat) * bool :=
  match chunks with
  | [] => ([], false)
  | chunk :: chunks =>
    match aligned_chunk values chunk with
    | Some item =>
      let '(items, raised) := aligned_chunks values chunks in (item :: items, raised)
    | None => ([], true)
    end
  end.

(** [range(0, length, 0)] raises [ValueError] when the generator is made. *)
Definition make_chunks_aligned (chunk_size length : nat) (values : list (nat * nat))
  : result (list (nat * nat) * bool) :=
  match make_chunks chunk_size length with
  | Ok chunks => Ok (aligned_chunks values chunks)
  | Raise e => Raise e
  end.

(** When the generator ends without error, every item was obtained. *)
Lemma aligned_chunks_all values (raw : list (nat * nat)) : ∀ chunks,
  aligned_chunks values raw = (chunks, false) →
  aligned_chunk values <$> raw = Some <$> chunks.
Proof.
  induction raw as [|chunk raw IH]; intros chunks Hall; cbn [aligned_chunks] in Hall.
  { by injection Hall as <-. }
  destruct (aligned_chunk values chunk) as [item|] eqn:Hitem; [|done].
  destruct (aligned_chunks values raw) as [items raised]. injection Hall as <- ->.
  csimpl. rewrite Hitem. f_equal. by apply IH.
Qed.

Lemma dropwhile_enumerate {A} (p : A → bool) (l : list A) : ∀ index,
  match head (dropwhile (λ x : nat * A, p x.2) (imap (λ i x, (index + i, x)) l)) with
  | Some (j, y) =>
    index ≤ j ∧ l !! (j - index) = Some y ∧ p y = false ∧
    ∀ i x, i < j - index → l !! i = Some x → p x = true
  | None => ∀ i x, l !! i = Some x → p x = true
  end.
Proof.
  induction l as [|a l IH]; intros index; [done|].
  cbn [imap dropwhile snd]. destruct (p a) eqn:Hpa.
  - rewrite (imap_ext _ (λ i x, (S index + i, x))) by (intros; cbn; f_equal; lia).
    specialize (IH (S index)). destruct (head _) as [[j y]|].
    + destruct IH as (Hj & Hy & Hpy & Hlt). split_and!; [lia| |done|].
      * replace (j - index) with (S (j - S index)) by lia. done.
      * intros [|i] x Hi Hx; [by injection Hx as <-|]. apply (Hlt i); [lia|done].
    + intros [|i] x Hx; [by injection Hx as <-|]. by apply (IH i).
  - cbn [head]. replace (index + 0 - index) with 0 by lia.
    split_and!; [lia|done|done|lia].
Qed.

(** What [align] returns: the pairs from [index] up to the boundary have
    the first component of the pair at [index], and the pair at the
    boundary has another one. *)
Lemma align_spec (values : list (nat * nat)) (index : nat) :
  match align values index with
  | Some j =>
    index ≤ j ∧
    (index = 0 ∨ length values ≤ index → j = index) ∧
    (∀ v, 0 < index → values !! index = Some v →
       index < j < length values ∧
       (∀ i x, index ≤ i < j → values !! i = Some x → x.1 = v.1) ∧
       (∀ y, values !! j = Some y → y.1 ≠ v.1))
  | None =>
    0 < index < length values ∧
    ∀ v i x, values !! index = Some v → index ≤ i → values !! i = Some x → x.1 = v.1
  end.
Proof.
  unfold align. destruct (values !! index) as [v|] eqn:Hv.
  2:{ split_and!; [done|done|done]. }
  case_decide as H0.
  { subst index. split_and!; [done|done|]. intros ? ?. lia. }
  pose proof (dropwhile_enumerate (λ x : nat * nat, bool_decide (x.1 = v.1))
                (drop index values) index) as Hdrop.
  apply lookup_lt_Some in Hv as Hlt.
  destruct (head _) as [[j y]|]; cbn.
  - destruct Hdrop as (Hj & Hy & Hpy & Hbefore). rewrite lookup_drop in Hy.
    replace (index + (j - index)) with j in Hy by lia.
    apply bool_decide_eq_false in Hpy.
    assert (Hne : j ≠ index) by (intros ->; congruence).
    split_and!; [lia|intros [?|?]; lia|].
    intros v' _ [= <-]. split_and!.
    + lia.
    + by eapply lookup_lt_Some.
    + intros i x Hi Hx. specialize (Hbefore (i - index) x).
      rewrite lookup_drop in Hbefore. replace (index + (i - index)) with i in Hbefore by lia.
      eapply bool_decide_eq_true_1, Hbefore; [lia|done].
    + intros y' Hy'. by simplify_eq.
  - split; [lia|]. intros v' i x [= <-] Hi Hx. specialize (Hdrop (i - index) x).
    rewrite lookup_drop in Hdrop. replace (index + (i - index)) with i in Hdrop by lia.
    by eapply bool_decide_eq_true_1, Hdrop.
Qed.

(** ** The vectorized builder on the sorted pairs *)

(** X3. A boundary that [align] returns is not before the index given and
    never parts two pairs of the same first component: when the index is
    neither 0 nor past the end, the pair just before the boundary has the
    first component of the pair at the index and the pair at the boundary
    has another one. [align] fails (its [next] finds no item) exactly when
    the index is neither 0 nor past the end and every pair from the index
    on has the same first component. *)
Theorem align_boundary (values : list (nat * nat)) (index : nat) :
  (∀ j, align values index = Some j →
     index ≤ j ≤ length values `max` index ∧
     ∀ v x y, 0 < index → values !! index = Some v →
       values !! (j - 1) = Some x → values !! j = Some y →
       x.1 = v.1 ∧ y.1 ≠ v.1) ∧
  (align values index = None ↔
     0 < index < length values ∧
     ∀ v i x, values !! index = Some v → index ≤ i → values !! i = Some x → x.1 = v.1).
Proof.
  pose proof (align_spec values index) as Hspec. split.
  - intros j Hj. rewrite Hj in Hspec. destruct Hspec as (Hle & Hedge & Hin).
    split.
    + destruct (values !! index) as [v|] eqn:Hv.
      * destruct (decide (index = 0)) as [->|Hpos].
        { rewrite Hedge by (by left). lia. }
        destruct (Hin v) as [? _]; [lia|done|lia].
      * apply lookup_ge_None in Hv. rewrite Hedge by (by right). lia.
    + intros v x y Hpos Hv Hx Hy. destruct (Hin v Hpos Hv) as (Hlt & Hrun & Hend).
      split; [|by apply Hend]. apply (Hrun (j - 1)); [lia|done].
  - split.
    + intros Hnone. by rewrite Hnone in Hspec.
    + intros [Hrange Hrun]. destruct (align values index) as [j|]; [|done].
      destruct Hspec as (Hle & _ & Hin).
      destruct (lookup_lt_is_Some_2 values index) as [v Hv]; [lia|].
      destruct (Hin v) as (Hlt & _ & Hend); [lia|done|].
      destruct (lookup_lt_is_Some_2 values j) as [y Hy]; [lia|].
      destruct (Hend y Hy). by eapply Hrun.
Qed.

(** The facets paired with [k], in the order of the pairs. *)
Definition partners (pairs : list (nat * nat)) (k : nat) : list nat :=
  snd <$> filter (λ p : nat * nat, p.1 = k) pairs.

Lemma partners_cons_eq k v pairs : partners ((k, v) :: pairs) k = v :: partners pairs k.
Proof. unfold partners. by rewrite filter_cons_True. Qed.

Lemma partners_cons_ne k k' v pairs :
  k' ≠ k → partners ((k', v) :: pairs) k = partners pairs k.
Proof. intros Hne. unfold partners. by rewrite filter_cons_False. Qed.

Lemma partners_nil pairs k : k ∉ pairs.*1 → partners pairs k = [].
Proof.
  intros Hk. unfold partners. induction pairs as [|[k' v] pairs IH]; [done|].
  rewrite filter_cons_False; [apply IH|]; set_solver.
Qed.

Lemma partners_app p1 p2 k : partners (p1 ++ p2) k = partners p1 k ++ partners p2 k.
Proof. unfold partners. by rewrite filter_app, fmap_app. Qed.

Lemma groupby_fst_nil l : groupby_fst l = [] → l = [].
Proof.
  destruct l as [|[k v] l]; [done|]. cbn. destruct (groupby_fst l) as [|[k' vs] gs]; [done|].
  by case_decide.
Qed.

(** On pairs sorted by their first component, [groupby] makes one group
    for each first component, with all its pairs. *)
Lemma groupby_fst_sorted (l : list (nat * nat)) :
  StronglySorted le (l.*1) →
  fst <$> head (groupby_fst l) = fst <$> head l ∧
  NoDup ((groupby_fst l).*1) ∧
  ∀ k vs, (k, vs) ∈ groupby_fst l ↔ k ∈ l.*1 ∧ vs = partners l k.
Proof.
  induction l as [|[k v] l IH]; intros Hsorted.
  { split_and!; [done|constructor|]. intros k vs. set_solver. }
  apply StronglySorted_inv in Hsorted as [Hsorted Hle]. rewrite Forall_forall in Hle.
  destruct (IH Hsorted) as (Hhead & Hnd & Hmem). cbn [groupby_fst].
  destruct (groupby_fst l) as [|[k' vs'] gs] eqn:HG.
  { apply groupby_fst_nil in HG as ->. split_and!; [done|apply NoDup_singleton|].
    intros k0 vs. rewrite list_elem_of_singleton. csimpl. rewrite list_elem_of_singleton.
    split.
    - intros [= -> ->]. by rewrite partners_cons_eq.
    - intros [-> ->]. by rewrite partners_cons_eq. }
  assert (Hk' : k' ∈ l.*1 ∧ vs' = partners l k') by (apply Hmem; left).
  destruct Hk' as [Hk'in ->]. csimpl in Hnd. apply NoDup_cons in Hnd as [Hk'gs Hndgs].
  assert (Hgs : ∀ k0, k0 ∈ gs.*1 → k0 ∈ l.*1 ∧ k0 ≠ k').
  { intros k0 Hk0. apply list_elem_of_fmap in Hk0 as ([k1 vs1] & Hk1 & Hin).
    cbn in Hk1. subst k0.
    split; [|intros ->; apply Hk'gs, list_elem_of_fmap; by exists (k', vs1)].
    apply (Hmem k1 vs1). by right. }
  case_decide as Hkk.
  - subst k'. split_and!; [done| |].
    + csimpl. by apply NoDup_cons.
    + intros k0 vs. csimpl. rewrite !elem_of_cons. split.
      * intros [[= -> ->]|Hin].
        -- split; [by left|]. by rewrite partners_cons_eq.
        -- assert (Hin' : (k0, vs) ∈ (k, partners l k) :: gs) by by right.
           apply Hmem in Hin' as [Hk0 ->]. split; [by right|].
           rewrite partners_cons_ne; [done|]. intros ->. apply Hk'gs.
           apply list_elem_of_fmap. by exists (k0, partners l k0).
      * intros [[->|Hk0] ->].
        -- left. by rewrite partners_cons_eq.
        -- destruct (decide (k0 = k)) as [->|Hne]; [left; by rewrite partners_cons_eq|].
           right. rewrite partners_cons_ne by done.
           assert (Hin' : (k0, partners l k0) ∈ (k, partners l k) :: gs) by by apply Hmem.
           apply elem_of_cons in Hin' as [[= ?]|?]; [done|done].
  - assert (Hknot : k ∉ l.*1).
    { intros Hin. destruct l as [|[k1 v1] l1]; [by apply elem_of_nil in Hin|].
      cbn in Hhead. injection Hhead as ->. apply Hkk.
      apply StronglySorted_inv in Hsorted as [_ Hle1]. rewrite Forall_forall in Hle1.
      pose proof (Hle k1 ltac:(left)) as H1. csimpl in Hin.
      apply elem_of_cons in Hin as [->|Hin]; [done|]. specialize (Hle1 k Hin).
      cbn in H1, Hle1. lia. }
    split_and!; [done| |].
    + csimpl. apply NoDup_cons. split; [|by apply NoDup_cons].
      intros Hin. apply elem_of_cons in Hin as [->|Hin]; [done|].
      by destruct (Hgs k Hin).
    + intros k0 vs. split.
      * intros Hin. apply elem_of_cons in Hin as [[= -> ->]|Hin].
        -- split; [csimpl; left|]. rewrite partners_cons_eq. by rewrite partners_nil.
        -- apply Hmem in Hin as [Hk0 ->]. split; [csimpl; by right|].
           rewrite partners_cons_ne; [done|]. by intros ->.
      * intros [Hk0 ->]. csimpl in Hk0. apply elem_of_cons in Hk0 as [->|Hk0].
        -- apply elem_of_cons. left. rewrite partners_cons_eq. by rewrite partners_nil.
        -- apply elem_of_cons. right. rewrite partners_cons_ne by (by intros ->).
           by apply Hmem.
Qed.

Section VectorizedSorted.
Context {F : Type}.
Implicit Types sh : shared (F:=F).

Lemma compute_adjacents_np_groups (groups : list (nat * list nat)) : ∀ sh,
  NoDup (groups.*1) →
  (∀ k vs, (k, vs) ∈ groups → 3 * k + 3 ≤ length (sh_adjacency sh)) →
  ∃ sh', foldlM (λ sh '(k, vs),
           let row := take 3 ((Z.of_nat <$> vs) ++ [-1; -1; -1]%Z) in
           if decide (3 * k + 3 ≤ length (sh_adjacency sh)) then
             Ok (set_adjacency sh (list_inserts (3 * k) row (sh_adjacency sh)))
           else Raise IndexError) sh groups = Ok sh' ∧
    length (sh_adjacency sh') = length (sh_adjacency sh) ∧
    same_inputs sh sh' ∧
    ∀ a, (∀ vs, (a, vs) ∈ groups → table_row (sh_adjacency sh') a = slots_of vs) ∧
         (a ∉ groups.*1 → table_row (sh_adjacency sh') a = table_row (sh_adjacency sh) a).
Proof.
  induction groups as [|[k vs] groups IH]; intros sh Hnd Hk.
  { exists sh. split_and!; [done..|]. intros a. split; [|done]. by intros vs ?%elem_of_nil. }
  csimpl in Hnd. apply NoDup_cons in Hnd as [Hknot Hnd].
  cbn [foldlM]. rewrite decide_True by (apply (Hk k vs); left). cbn [mbind result_bind].
  destruct (IH (set_adjacency sh (list_inserts (3 * k) (slots_of vs) (sh_adjacency sh))))
    as (sh' & Hrun & Hlen & Hsame & Hrows); [done| |].
  { intros k' vs' Hin. cbn. rewrite length_inserts. apply (Hk k' vs'). by right. }
  exists sh'. split_and!; [exact Hrun| |by destruct Hsame as (? & ? & ? & ?)|].
  { rewrite Hlen. cbn. apply length_inserts. }
  intros a. destruct (Hrows a) as [Hin Hout].
  assert (Hfirst : table_row
            (sh_adjacency (set_adjacency sh (list_inserts (3 * k) (slots_of vs) (sh_adjacency sh)))) a
          = if decide (a = k) then slots_of vs else table_row (sh_adjacency sh) a).
  { cbn [set_adjacency sh_adjacency]. apply table_row_inserts; [apply slots_of_length|].
    apply (Hk k vs). left. }
  split.
  - intros vs' Hvs'. apply elem_of_cons in Hvs' as [[= -> ->]|Hvs']; [|by apply Hin].
    rewrite Hout by done. by rewrite Hfirst, decide_True.
  - intros Ha. csimpl in Ha. apply not_elem_of_cons in Ha as [Hne Ha].
    rewrite Hout by done. by rewrite Hfirst, decide_False.
Qed.

Lemma compute_adjacents_np_chunk (pairs : list (nat * nat)) sh (start stop : nat) :
  StronglySorted le ((slice start stop pairs).*1) →
  (∀ p, p ∈ slice start stop pairs → 3 * p.1 + 3 ≤ length (sh_adjacency sh)) →
  ∃ sh', compute_adjacents_np pairs sh (start, stop) = Ok sh' ∧
    length (sh_adjacency sh') = length (sh_adjacency sh) ∧
    ∀ k, table_row (sh_adjacency sh') k
         = if decide (k ∈ (slice start stop pairs).*1)
           then slots_of (partners (slice start stop pairs) k)
           else table_row (sh_adjacency sh) k.
Proof.
  intros Hsorted Hrange. unfold compute_adjacents_np.
  destruct (groupby_fst_sorted _ Hsorted) as (_ & Hnd & Hgroups).
  destruct (compute_adjacents_np_groups (groupby_fst (slice start stop pairs)) sh Hnd)
    as (sh' & Hrun & Hlen & _ & Hrows).
  { intros k vs [Hk _]%Hgroups. apply list_elem_of_fmap in Hk as (p & -> & Hp).
    by apply Hrange. }
  exists sh'. split_and!; [done..|]. intros k. destruct (Hrows k) as [Hin Hout].
  case_decide as Hk.
  - apply Hin, Hgroups. done.
  - apply Hout. intros Hkin. apply list_elem_of_fmap in Hkin as ([k' vs] & -> & Hkin).
    by apply Hgroups in Hkin as [? _].
Qed.

(** X4. [compute_adjacents_np] on a chunk of pairs that are sorted by
    their first component, all below the number of facets: the row of each
    facet that has a pair in the chunk gets the first three of its
    partners in the chunk, in the order of the pairs, then -1; the rows of
    the other facets are left as they are, and no error is raised. *)
Theorem compute_adjacents_np_sorted (pairs : list (nat * nat)) sh (start stop : nat) :
  StronglySorted le ((slice start stop pairs).*1) →
  (∀ p, p ∈ slice start stop pairs → 3 * p.1 + 3 ≤ length (sh_adjacency sh)) →
  ∃ sh', compute_adjacents_np pairs sh (start, stop) = Ok sh' ∧
    length (sh_adjacency sh') = length (sh_adjacency sh) ∧
    (∀ k, k ∈ (slice start stop pairs).*1 →
       table_row (sh_adjacency sh') k
       = take 3 ((Z.of_nat <$> partners (slice start stop pairs) k) ++ [-1; -1; -1]%Z)) ∧
    (∀ k, k ∉ (slice start stop pairs).*1 →
       table_row (sh_adjacency sh') k = table_row (sh_adjacency sh) k).
Proof.
  intros Hsorted Hrange.
  destruct (compute_adjacents_np_chunk pairs sh start stop Hsorted Hrange)
    as (sh' & Hrun & Hlen & Hrows).
  exists sh'. split_and!; [done..| |].
  - intros k Hk. by rewrite Hrows, decide_True.
  - intros k Hk. by rewrite Hrows, decide_False.
Qed.

End VectorizedSorted.

(** *** All the chunks *)

(** Each chunk starts where the one before ends, from [lo] to [hi]. *)
Fixpoint contiguous (lo hi : nat) (chunks : list (nat * nat)) : Prop :=
  match chunks with
  | [] => lo = hi
  | chunk :: chunks => chunk.1 = lo ∧ contiguous chunk.2 hi chunks
  end.

Lemma make_chunks_from_done fuel i c n : n ≤ i → make_chunks_from fuel i c n = [].
Proof. intros Hi. destruct fuel; [done|]. cbn. by rewrite decide_False by lia. Qed.

Lemma make_chunks_from_contiguous c n :
  0 < c → ∀ fuel i, i ≤ n → n - i ≤ fuel → contiguous i n (make_chunks_from fuel i c n).
Proof.
  intros Hc. induction fuel as [|fuel IH]; intros i Hi Hfuel; [cbn; lia|].
  cbn [make_chunks_from]. case_decide as Hlt; [|cbn; lia].
  cbn [contiguous fst snd]. split; [done|]. destruct (decide (i + c ≤ n)).
  - replace ((i + c) `min` n) with (i + c) by lia. apply IH; lia.
  - replace ((i + c) `min` n) with n by lia. by rewrite make_chunks_from_done by lia.
Qed.

Lemma contiguous_cover lo hi chunks i :
  contiguous lo hi chunks → lo ≤ i < hi →
  ∃ chunk, chunk ∈ chunks ∧ chunk.1 ≤ i < chunk.2.
Proof.
  revert lo. induction chunks as [|chunk chunks IH]; intros lo Hc Hi; [cbn in Hc; lia|].
  destruct Hc as [Hlo Hrest]. destruct (decide (i < chunk.2)).
  - exists chunk. split; [left|lia].
  - destruct (IH chunk.2 Hrest) as (ch & Hin & Hch); [lia|]. exists ch. split; [by right|done].
Qed.

Lemma sorted_keys_lookup (l : list (nat * nat)) i j x y :
  StronglySorted le (l.*1) → i ≤ j → l !! i = Some x → l !! j = Some y → x.1 ≤ y.1.
Proof.
  intros Hsorted Hij Hx Hy. destruct (decide (i = j)) as [->|Hne]; [by simplify_eq|].
  rewrite <- (take_drop j l), fmap_app in Hsorted.
  eapply (StronglySorted_app_1_elem_of _ _ _ _ _ Hsorted).
  - apply list_elem_of_fmap. exists x. split; [done|].
    apply list_elem_of_lookup. exists i. by rewrite lookup_take_lt by lia.
  - apply list_elem_of_fmap. exists y. split; [done|].
    apply list_elem_of_lookup. exists 0. by rewrite lookup_drop, Nat.add_0_r.
Qed.

Lemma sorted_keys_slice (l : list (nat * nat)) s e :
  StronglySorted le (l.*1) → StronglySorted le ((slice s e l).*1).
Proof.
  intros Hsorted. unfold slice. rewrite fmap_take, fmap_drop.
  rewrite <- (take_drop s (l.*1)) in Hsorted. apply StronglySorted_app_1_r in Hsorted.
  rewrite <- (take_drop (e - s) (drop s l.*1)) in Hsorted.
  by apply StronglySorted_app_1_l in Hsorted.
Qed.

(** No pair before the boundary [b] has the first component of a pair
    from [b] on. *)
Definition good_boundary (values : list (nat * nat)) (b : nat) : Prop :=
  ∀ i j x y, i < b → b ≤ j → values !! i = Some x → values !! j = Some y → x.1 ≠ y.1.

Lemma align_good values index b :
  StronglySorted le (values.*1) → align values index = Some b → good_boundary values b.
Proof.
  intros Hsorted Hb. pose proof (align_spec values index) as Hspec.
  rewrite Hb in Hspec. destruct Hspec as (Hle & Hsame & Hin).
  intros i j x y Hi Hj Hx Hy.
  destruct (decide (index = 0)) as [->|H0]; [rewrite Hsame in Hi by auto; lia|].
  destruct (values !! index) as [v|] eqn:Hv.
  2:{ apply lookup_ge_None in Hv. rewrite Hsame in Hj by auto.
      apply lookup_lt_Some in Hy. lia. }
  destruct (Hin v) as (Hlt & Hrun & Hnext); [lia|done|].
  destruct (lookup_lt_is_Some_2 values b) as [w Hw]; [lia|].
  destruct (lookup_lt_is_Some_2 values (b - 1)) as [u Hu]; [lia|].
  pose proof (Hrun (b - 1) u ltac:(lia) Hu) as Hu1.
  pose proof (Hnext w Hw) as Hw1.
  pose proof (sorted_keys_lookup values i (b - 1) x u Hsorted ltac:(lia) Hx Hu).
  pose proof (sorted_keys_lookup values (b - 1) b u w Hsorted ltac:(lia) Hu Hw).
  pose proof (sorted_keys_lookup values b j w y Hsorted ltac:(lia) Hw Hy).
  lia.
Qed.

Lemma take_slice_drop {A} (l : list A) s e :
  s ≤ e → l = take s l ++ slice s e l ++ drop e l.
Proof.
  intros Hse. unfold slice. rewrite <- (take_drop s l) at 1. f_equal.
  rewrite <- (take_drop (e - s) (drop s l)) at 1. f_equal.
  rewrite drop_drop. f_equal. lia.
Qed.

(** Between two good boundaries, a first component that occurs has all
    its pairs. *)
Lemma partners_slice values s e k :
  good_boundary values s → good_boundary values e →
  k ∈ (slice s e values).*1 → partners (slice s e values) k = partners values k.
Proof.
  intros Hs He Hk. apply list_elem_of_fmap in Hk as (p & -> & Hp).
  apply list_elem_of_lookup in Hp as [m Hm]. rewrite lookup_slice in Hm.
  case_decide as Hlt; [|done].
  rewrite (take_slice_drop values s e) at 2 by lia. rewrite !partners_app.
  rewrite (partners_nil (take s values)), (partners_nil (drop e values)).
  - by rewrite app_nil_r.
  - intros Hin. apply list_elem_of_fmap in Hin as (q & Hq & Hin).
    apply list_elem_of_lookup in Hin as [j Hj]. rewrite lookup_drop in Hj.
    apply (He (s + m) (e + j) p q); [lia|lia|done|done|done].
  - intros Hin. apply list_elem_of_fmap in Hin as (q & Hq & Hin).
    apply list_elem_of_lookup in Hin as [i Hi].
    apply lookup_take_Some in Hi as [Hi Hlti].
    apply (Hs i (s + m) q p); [lia|lia|done|done|done].
Qed.

Lemma aligned_contiguous values (raw : list (nat * nat)) : ∀ lo hi chunks lo' hi',
  StronglySorted le (values.*1) →
  contiguous lo hi raw →
  aligned_chunk values <$> raw = Some <$> chunks →
  align values lo = Some lo' → align values hi = Some hi' →
  contiguous lo' hi' chunks ∧
  Forall (λ chunk : nat * nat,
            good_boundary values chunk.1 ∧ good_boundary values chunk.2) chunks.
Proof.
  induction raw as [|[s e] raw IH]; intros lo hi chunks lo' hi' Hsorted Hc Hal Hlo Hhi.
  - cbn in Hc. subst hi. destruct chunks; [|done]. cbn. split; [congruence|constructor].
  - destruct chunks as [|chunk chunks]; [done|]. csimpl in Hal. injection Hal as Hch Hrest.
    destruct Hc as [Hs Hc]. cbn in Hs, Hc. subst s. rewrite Hlo in Hch.
    destruct (align values e) as [e'|] eqn:He; [|done]. injection Hch as <-.
    destruct (IH e hi chunks e' hi' Hsorted Hc Hrest He Hhi) as [Hc' Hgood].
    split; [by split|]. constructor; [|done]. split; by eapply align_good.
Qed.

Section VectorizedAll.
Context {F : Type}.
Implicit Types sh : shared (F:=F).

(** The adjacency part of [main] with numpy, once the pairs are sorted:
    [adj[:] = -1], then [run_unordered(pool, compute_adjacents_np, chunks)],
    the chunks running in the order [schedule]. *)
Definition main_adjacency_np (pairs : list (nat * nat)) sh
    (schedule : list (nat * nat)) : result shared :=
  foldlM (compute_adjacents_np pairs)
    (set_adjacency sh (replicate (length (sh_adjacency sh)) (-1)%Z)) schedule.

Lemma compute_adjacents_np_chunks pairs (schedule : list (nat * nat)) : ∀ sh,
  StronglySorted le (pairs.*1) →
  (∀ p, p ∈ pairs → 3 * p.1 + 3 ≤ length (sh_adjacency sh)) →
  Forall (λ chunk : nat * nat,
            good_boundary pairs chunk.1 ∧ good_boundary pairs chunk.2) schedule →
  ∃ sh', foldlM (compute_adjacents_np pairs) sh schedule = Ok sh' ∧
    length (sh_adjacency sh') = length (sh_adjacency sh) ∧
    ∀ k, table_row (sh_adjacency sh') k
         = if decide (Exists (λ chunk : nat * nat, k ∈ (slice chunk.1 chunk.2 pairs).*1) schedule)
           then slots_of (partners pairs k)
           else table_row (sh_adjacency sh) k.
Proof.
  induction schedule as [|[s e] schedule IH]; intros sh Hsorted Hrange Hgood.
  { exists sh. split_and!; [done..|]. intros k. rewrite decide_False; [done|].
    by intros ?%Exists_nil. }
  apply Forall_cons in Hgood as [[Hs He] Hgood]. cbn in Hs, He.
  destruct (compute_adjacents_np_chunk pairs sh s e) as (sh1 & Hrun1 & Hlen1 & Hrows1).
  { by apply sorted_keys_slice. }
  { intros p Hp. apply Hrange. apply list_elem_of_lookup in Hp as [i Hi].
    unfold slice in Hi. apply lookup_take_Some in Hi as [Hi _].
    rewrite lookup_drop in Hi. by eapply list_elem_of_lookup_2. }
  destruct (IH sh1) as (sh' & Hrun & Hlen & Hrows); [done| |done|].
  { by rewrite Hlen1. }
  exists sh'. split_and!.
  - cbn [foldlM]. rewrite Hrun1. exact Hrun.
  - congruence.
  - intros k. rewrite Hrows, Hrows1. cbn [fst snd].
    destruct (decide (k ∈ (slice s e pairs).*1)) as [Hk|Hk].
    + rewrite (partners_slice pairs s e k Hs He Hk).
      rewrite (decide_True (P := Exists _ (_ :: _))) by (by left).
      by case_decide.
    + case_decide as Hex.
      * by rewrite decide_True by (by right).
      * rewrite decide_False; [done|]. intros [?|?]%Exists_cons; done.
Qed.

Lemma table_row_replicate {A} (x : A) n k :
  3 * k + 3 ≤ n → table_row (replicate n x) k = [x; x; x].
Proof.
  intros Hk. unfold table_row, slice. rewrite drop_replicate, take_replicate.
  by replace ((3 * k + 3 - 3 * k) `min` (n - 3 * k)) with 3 by lia.
Qed.

(** X5. The adjacency part of [main] with numpy. When the pairs are sorted by
    their first component, their facets are below the number of facets,
    and [make_chunks_aligned] yields all its chunks (no [align] raises),
    then whatever the order in which the chunks are run, no error is raised
    and the row of every facet holds the first three partners of the facet
    among all the pairs, in the order of the pairs, then -1: no chunk
    boundary cuts the partners of a facet. *)
Theorem main_adjacency_np_rows (chunk_size : nat) (pairs : list (nat * nat)) sh
    (chunks schedule : list (nat * nat)) :
  StronglySorted le (pairs.*1) →
  (∀ p, p ∈ pairs → 3 * p.1 + 3 ≤ length (sh_adjacency sh)) →
  make_chunks_aligned chunk_size (length pairs) pairs = Ok (chunks, false) →
  schedule ≡ₚ chunks →
  ∃ sh', main_adjacency_np pairs sh schedule = Ok sh' ∧
    length (sh_adjacency sh') = length (sh_adjacency sh) ∧
    ∀ k, 3 * k + 3 ≤ length (sh_adjacency sh) →
      table_row (sh_adjacency sh') k
      = take 3 ((Z.of_nat <$> partners pairs k) ++ [-1; -1; -1]%Z).
Proof.
  intros Hsorted Hrange Hchunks Hperm.
  unfold make_chunks_aligned, make_chunks in Hchunks.
  destruct (decide (chunk_size = 0)) as [|Hpos]; [done|]. injection Hchunks as Hchunks.
  apply aligned_chunks_all in Hchunks.
  assert (contiguous 0 (length pairs) chunks ∧
          Forall (λ chunk : nat * nat,
                    good_boundary pairs chunk.1 ∧ good_boundary pairs chunk.2) chunks)
    as [Hcont Hgood].
  { eapply (aligned_contiguous pairs _ 0 (length pairs)); [done| |exact Hchunks| |].
    - apply make_chunks_from_contiguous; lia.
    - unfold align. destruct (pairs !! 0); [by rewrite decide_True|done].
    - unfold align. by rewrite (lookup_ge_None_2 pairs (length pairs)). }
  destruct (compute_adjacents_np_chunks pairs schedule
              (set_adjacency sh (replicate (length (sh_adjacency sh)) (-1)%Z)))
    as (sh' & Hrun & Hlen & Hrows); [done| |by rewrite Hperm|].
  { intros p Hp. cbn [set_adjacency sh_adjacency]. rewrite length_replicate. by apply Hrange. }
  cbn [set_adjacency sh_adjacency] in Hlen, Hrows. rewrite length_replicate in Hlen.
  exists sh'. split_and!; [done..|]. intros k Hk. rewrite Hrows.
  fold (slots_of (partners pairs k)). case_decide as Hex; [done|].
  rewrite table_row_replicate by done.
  rewrite partners_nil; [done|]. intros Hin. apply Hex.
  apply list_elem_of_fmap in Hin as (p & -> & Hp).
  apply list_elem_of_lookup in Hp as [i Hi].
  destruct (contiguous_cover 0 (length pairs) chunks i Hcont) as (chunk & Hchunk & Hi').
  { apply lookup_lt_Some in Hi. lia. }
  apply Exists_exists. exists chunk. split; [by rewrite Hperm|].
  apply list_elem_of_fmap. exists p. split; [done|].
  apply list_elem_of_lookup. exists (i - chunk.1). unfold slice.
  rewrite lookup_take_lt by lia. rewrite lookup_drop. by replace (chunk.1 + (i - chunk.1)) with i by lia.
Qed.

End VectorizedAll.

(** The sorted pairs of the strip. *)
Definition strip_pairs : list (nat * nat) :=
  [(0, 1); (1, 0); (1, 2); (2, 1); (2, 3); (3, 2)].

Lemma strip_pairs_sorted : StronglySorted le (strip_pairs.*1).
Proof. repeat constructor; cbn; lia. Qed.

Lemma strip_pairs_range p :
  p ∈ strip_pairs → 3 * p.1 + 3 ≤ length (sh_adjacency (worker_input strip 0%Z)).
Proof.
  unfold strip_pairs. rewrite !elem_of_cons, elem_of_nil.
  intros [->|[->|[->|[->|[->|[->|[]]]]]]]; vm_compute; lia.
Qed.

Lemma compute_adjacents_np_sorted_witness :
  ∃ sh', compute_adjacents_np strip_pairs (worker_input strip 0%Z) (1, 3) = Ok sh' ∧
    table_row (sh_adjacency sh') 1 = [0; 2; -1]%Z.
Proof.
  destruct (compute_adjacents_np_sorted strip_pairs (worker_input strip 0%Z) 1 3)
    as (sh' & Hrun & _ & Hrows & _).
  - change (slice 1 3 strip_pairs) with [(1, 0); (1, 2)]. repeat constructor.
  - intros p Hp. apply strip_pairs_range. revert Hp.
    change (slice 1 3 strip_pairs) with [(1, 0); (1, 2)]. unfold strip_pairs.
    rewrite !elem_of_cons, elem_of_nil. tauto.
  - exists sh'. split; [done|]. rewrite Hrows; [done|].
    change (slice 1 3 strip_pairs) with [(1, 0); (1, 2)]. by left.
Defined.

Lemma main_adjacency_np_rows_witness :
  ∃ sh', main_adjacency_np strip_pairs (worker_input strip 0%Z) [(3, 5); (5, 6); (0, 3)]
           = Ok sh' ∧
    table_row (sh_adjacency sh') 2 = [1; 3; -1]%Z.
Proof.
  destruct (main_adjacency_np_rows 2 strip_pairs (worker_input strip 0%Z)
              [(0, 3); (3, 5); (5, 6)] [(3, 5); (5, 6); (0, 3)])
    as (sh' & Hrun & _ & Hrows).
  - exact strip_pairs_sorted.
  - exact strip_pairs_range.
  - vm_compute. reflexivity.
  - by rewrite (Permutation_cons_append [(3, 5); (5, 6)] (0, 3)).
  - exists sh'. split; [done|]. rewrite Hrows; [done|]. vm_compute. lia.
Defined.

(** ** The numbering of the components *)

Section TraversalOrder.
Context {N : Type}.
Variable pop : list nat → option (nat * list nat).
Variable enter : nat → result N.
Variable test : N → nat → option N.

Hypothesis pop_None : ∀ l, pop l = None → l = [].
Hypothesis pop_Some : ∀ l x l', pop l = Some (x, l') →
  (∀ y, y ∈ l ↔ y = x ∨ y ∈ l') ∧ length l' < length l.
Hypothesis test_enter : ∀ cn s sn, test cn s = Some sn → enter s = Ok sn.

Variable adj0 : list (list nat).
Hypothesis edge_sym : ∀ a b, edge enter test adj0 a b → edge enter test adj0 b a.
Hypothesis enter_ok : ∀ a, a < length adj0 → ∃ cn, enter a = Ok cn.

(** One traversal on untouched adjacency lists and tags: the facets tagged
    are those that a path joins to the start. *)
Lemma traverse_fresh new_tag start :
  start < length adj0 →
  ∃ adjacents' tags',
    traverse pop enter test new_tag start adj0 (replicate (length adj0) None)
      = Ok (adjacents', tags') ∧
    length tags' = length adj0 ∧
    (∀ a t, tags' !! a = Some (Some t) → t = new_tag ∧ adjacents' !! a = Some []) ∧
    ∀ a, tags' !! a = Some (Some new_tag) ↔ rtsc (edge enter test adj0) start a.
Proof.
  intros Hstart.
  destruct (traverse_spec pop enter test pop_None pop_Some test_enter adj0 edge_sym enter_ok
              new_tag new_tag start adj0 (replicate (length adj0) None))
    as (adjacents' & tags' & Hrun & Hrest & Hext & Htag);
    [apply rest_inv_init|done|by apply lookup_replicate|].
  exists adjacents', tags'. split_and!; [done|apply Hrest| |].
  - intros a t Ha. split; [|by eapply rest_closed].
    apply (rest_range _ _ _ _ _ _ _ Hrest) in Ha. lia.
  - intros a. split.
    + intros Ha. by eapply rest_sound.
    + intros Hpath.
      assert (Hclosed : ∀ x y, rtsc (edge enter test adj0) x y →
                tags' !! x = Some (Some new_tag) → tags' !! y = Some (Some new_tag)).
      { clear Hpath. intros x y Hpath.
        induction Hpath as [x|x y z Hstep _ IH]; intros Hx; [done|].
        apply IH.
        assert (edge enter test adj0 x y) as Hedge by (destruct Hstep; auto).
        destruct (rest_done _ _ _ _ _ _ _ Hrest _ _ Hedge)
          as [(row & Hrow & Hin)|(t' & Ha & Hb)]; [|congruence].
        rewrite (rest_closed _ _ _ _ _ _ _ Hrest _ _ Hx) in Hrow.
        injection Hrow as <-. by apply elem_of_nil in Hin. }
      by eapply Hclosed.
Qed.

Variable lo : nat.

(** The facets below [i] are tagged, and each tag given so far was first
    given to a facet below [i] whose predecessors all have a smaller tag. *)
Definition numbered (i next : nat) (tags : list (option nat)) : Prop :=
  (∀ a, a < i → ∃ t, tags !! a = Some (Some t)) ∧
  ∀ t, lo ≤ t < next →
    ∃ b, b < i ∧ tags !! b = Some (Some t) ∧
      ∀ c, c < b → ∃ t', tags !! c = Some (Some t') ∧ t' < t.

Lemma components_steps_numbered k : ∀ i next adjacents tags,
  rest_inv enter test adj0 lo next adjacents tags → lo ≤ next →
  i + k = length adj0 → numbered i next tags →
  ∃ next' adjacents' tags',
    foldlM (components_step pop enter test) (next, adjacents, tags) (seq i k)
      = Ok (next', adjacents', tags') ∧
    rest_inv enter test adj0 lo next' adjacents' tags' ∧
    numbered (length adj0) next' tags'.
Proof.
  induction k as [|k IH]; intros i next adjacents tags Hrest Hlo Hik [Hall Hfirst].
  { exists next, adjacents, tags. rewrite Nat.add_0_r in Hik. subst i. done. }
  cbn [seq foldlM components_step].
  assert (Hi : i < length tags).
  { rewrite (rest_len_tags _ _ _ _ _ _ _ Hrest). lia. }
  destruct (at_lt _ _ Hi) as (y & Hat & Hy). rewrite Hat. cbn [mbind result_bind].
  destruct y as [t|].
  - apply IH; [done|done|lia|]. split.
    + intros a Ha. destruct (decide (a = i)) as [->|]; [eauto|]. apply Hall. lia.
    + intros t' Ht'. destruct (Hfirst t' Ht') as (b & ? & ?). exists b. split; [lia|done].
  - destruct (traverse_spec pop enter test pop_None pop_Some test_enter adj0 edge_sym enter_ok
                lo next i adjacents tags Hrest Hlo Hy)
      as (adj1 & tags1 & Hrun1 & Hrest1 & [_ Hext1] & Hi1).
    rewrite Hrun1. cbn [mbind result_bind].
    apply IH; [done|lia|lia|].
    assert (Hbelow : ∀ c, c < i → ∃ t', tags1 !! c = Some (Some t') ∧ t' < next).
    { intros c Hc. destruct (Hall c Hc) as [t' Ht']. exists t'. split; [by apply Hext1|].
      apply (rest_range _ _ _ _ _ _ _ Hrest) in Ht'. lia. }
    split.
    + intros a Ha. destruct (decide (a = i)) as [->|]; [eauto|].
      destruct (Hbelow a) as (t' & ? & _); [lia|eauto].
    + intros t Ht. destruct (decide (t = next)) as [->|].
      * exists i. split_and!; [lia|done|done].
      * destruct (Hfirst t) as (b & Hb & Htb & Hsmaller); [lia|].
        exists b. split_and!; [lia|by apply Hext1|].
        intros c Hc. destruct (Hsmaller c Hc) as (t' & ? & ?). exists t'. split; [by apply Hext1|done].
Qed.

(** The loop of [connected_components] numbers the components from [lo]
    on, in the order of their first facets. *)
Lemma components_loop_numbered :
  ∃ next adjacents tags,
    components_loop pop enter test (length adj0) adj0 lo = Ok (next, adjacents, tags) ∧
    length tags = length adj0 ∧
    (∀ t, (∃ a, tags !! a = Some (Some t)) ↔ lo ≤ t < next) ∧
    (∀ a, a < length adj0 → ∃ t b, tags !! a = Some (Some t) ∧ b ≤ a ∧
       tags !! b = Some (Some t) ∧
       ∀ c t', c < b → tags !! c = Some (Some t') → t' < t).
Proof.
  destruct (components_steps_numbered (length adj0) 0 lo adj0 (replicate (length adj0) None))
    as (next & adjacents & tags & Hrun & Hrest & Hall & Hfirst);
    [apply rest_inv_init|done|done| |].
  { split; [lia|]. intros t Ht. lia. }
  exists next, adjacents, tags. split_and!; [done|apply Hrest| |].
  - intros t. split.
    + intros [a Ha]. by apply (rest_range _ _ _ _ _ _ _ Hrest) in Ha.
    + intros Ht. destruct (Hfirst t Ht) as (b & _ & Hb & _). eauto.
  - intros a Ha. destruct (Hall a Ha) as [t Ht]. exists t.
    destruct (Hfirst t) as (b & Hb & Htb & Hsmaller).
    { by apply (rest_range _ _ _ _ _ _ _ Hrest) in Ht. }
    exists b. split_and!; [done| |done|].
    + destruct (decide (b ≤ a)) as [|Hgt]; [done|].
      destruct (Hsmaller a) as (t' & Ht' & ?); [lia|]. rewrite Ht in Ht'.
      injection Ht' as <-. lia.
    + intros c t' Hc Ht'. destruct (Hsmaller c Hc) as (t'' & Ht'' & ?). congruence.
Qed.

End TraversalOrder.

(** *** The traversal of [rendermesh.py] *)

Section ConnectedNumbering.
Context {F : Type}.
Variable set_iter : list nat → list nat.
Variable dot : F * F * F → F * F * F → F.
Variable flt : F → F → bool.
Variable cos : F → F.
Hypothesis set_iter_perm : ∀ l, set_iter l ≡ₚ l.
Implicit Types m : RenderMesh.mesh (F:=F).

Lemma test_angle_enter m c cn s sn :
  RenderMesh.test_angle dot flt m c cn s = Some sn → RenderMesh.enter_normal m s = Ok sn.
Proof.
  unfold RenderMesh.test_angle, RenderMesh.enter_normal.
  destruct (RenderMesh.mesh_normals m !! s) as [n|] eqn:Hn; [|done].
  destruct (flt _ _); [done|]. intros [= <-]. by apply at_Ok.
Qed.

Lemma adjacent_facets_edge_sym m c adjacents :
  mesh_indices_ok m → (∀ u v, dot u v = dot v u) →
  RenderMesh.adjacent_facets set_iter m = Ok adjacents →
  ∀ a b, adjacency_edge dot flt m c adjacents a b → adjacency_edge dot flt m c adjacents b a.
Proof.
  intros Hok Hdot Hadj a b.
  destruct (adjacent_facets_spec set_iter set_iter_perm m Hok) as (adj & Hadj' & Hlen & Hrows).
  assert (adj = adjacents) as -> by congruence.
  intros (row & na & nb & Hrow & Hb & Hna & Hnb & Hflt).
  assert (Ha : a < length (RenderMesh.mesh_facets m)).
  { rewrite <- Hlen. by eapply lookup_lt_Some. }
  destruct (Hrows a Ha) as (row' & Hrow' & _ & Hmem).
  assert (row' = row) as -> by congruence.
  apply Hmem in Hb as (fa & fb & Hfa & Hfb & Hshare).
  destruct (Hrows b) as (rowb & Hrowb & _ & Hmemb); [by eapply lookup_lt_Some|].
  exists rowb, nb, na. split_and!; [done| |done|done|by rewrite Hdot].
  apply Hmemb. exists fb, fa. by rewrite share_edge_sym.
Qed.

Lemma adjacent_facets_length m adjacents :
  mesh_indices_ok m → RenderMesh.adjacent_facets set_iter m = Ok adjacents →
  length adjacents = length (RenderMesh.mesh_facets m).
Proof.
  intros Hok Hadj.
  destruct (adjacent_facets_spec set_iter set_iter_perm m Hok) as (adj & Hadj' & Hlen & _).
  congruence.
Qed.

(** X6. On a mesh whose facets index its points and have one normal each,
    the second value that [connected_components] returns is the last tag
    given, that is the number of components minus one, and nothing
    ([None]) exactly when the mesh has no facet. The tags in use are
    exactly 0, ..., last, and the components are numbered in the order of
    their first facets: the first facet with a tag has only facets with
    smaller tags before it. *)
Theorem connected_components_numbering m split_angle :
  mesh_indices_ok m →
  length (RenderMesh.mesh_normals m) = length (RenderMesh.mesh_facets m) →
  (∀ u v, dot u v = dot v u) →
  ∃ tags last,
    RenderMesh.connected_components set_iter dot flt cos m split_angle = Ok (tags, last) ∧
    (last = None ↔ RenderMesh.mesh_facets m = []) ∧
    (∀ t, (∃ a, tags !! a = Some (Some t)) ↔ ∃ l, last = Some l ∧ t ≤ l) ∧
    (∀ a, a < length (RenderMesh.mesh_facets m) →
       ∃ t b, tags !! a = Some (Some t) ∧ b ≤ a ∧ tags !! b = Some (Some t) ∧
         ∀ c t', c < b → tags !! c = Some (Some t') → t' < t).
Proof.
  intros Hok Hnormals Hdot.
  destruct (adjacent_facets_spec set_iter set_iter_perm m Hok) as (adj & Hadj & Hlen & _).
  destruct (components_loop_numbered (RenderMesh.set_pop set_iter) (RenderMesh.enter_normal m)
    (RenderMesh.test_angle dot flt m (cos split_angle))
    (set_pop_None set_iter set_iter_perm) (set_pop_Some set_iter set_iter_perm)
    (test_angle_enter m (cos split_angle)) adj) with (lo := 0)
    as (next & adjacents' & tags & Hrun & Hlen' & Hused & Hfirst).
  - intros a b. rewrite <- !adjacency_edge_edge. by apply adjacent_facets_edge_sym.
  - intros a Ha. unfold RenderMesh.enter_normal.
    destruct (at_lt (RenderMesh.mesh_normals m) a) as (n & Hn & _); [lia|]. eauto.
  - exists tags, (match next with 0 => None | S tag => Some tag end).
    split_and!.
    + unfold RenderMesh.connected_components. rewrite Hadj. cbn [mbind result_bind].
      rewrite <- Hlen, Hrun. done.
    + split.
      * intros Hnone. destruct next as [|tag]; [|done].
        destruct (RenderMesh.mesh_facets m) as [|f fs]; [done|].
        destruct (Hfirst 0) as (t & _ & Ht & _); [rewrite Hlen; cbn; lia|].
        assert (0 ≤ t < 0) by (apply Hused; eauto). lia.
      * intros Hnil. destruct next as [|tag]; [done|].
        destruct (proj2 (Hused 0)) as [a Ha]; [lia|].
        apply lookup_lt_Some in Ha. rewrite Hlen', Hlen, Hnil in Ha. cbn in Ha. lia.
    + intros t. rewrite Hused. destruct next as [|tag].
      * split; [lia|]. by intros (l & ? & _).
      * split; [intros ?; exists tag; split; [done|lia]|].
        intros (l & [= <-] & ?). lia.
    + intros a Ha. apply Hfirst. by rewrite Hlen.
Qed.

(** X7. [connected_facets] started on the adjacency sets of
    [adjacent_facets] and on tags that are all [None]: the facets that get
    [new_tag] are exactly those that a path of adjacency edges joins to the
    starting facet, no other tag is given, and the adjacency set of every
    tagged facet is left empty. A starting index that is not a facet
    raises [IndexError]. *)
Theorem connected_facets_component m adjacents (starting_facet_index new_tag : nat)
    (split_angle_cos : F) :
  mesh_indices_ok m →
  length (RenderMesh.mesh_normals m) = length (RenderMesh.mesh_facets m) →
  (∀ u v, dot u v = dot v u) →
  RenderMesh.adjacent_facets set_iter m = Ok adjacents →
  let run := RenderMesh.connected_facets set_iter dot flt m starting_facet_index adjacents
               (replicate (length adjacents) None) new_tag split_angle_cos in
  (length (RenderMesh.mesh_facets m) ≤ starting_facet_index → run = Raise IndexError) ∧
  (starting_facet_index < length (RenderMesh.mesh_facets m) →
   ∃ adjacents' tags', run = Ok (adjacents', tags') ∧
     length tags' = length (RenderMesh.mesh_facets m) ∧
     (∀ a t, tags' !! a = Some (Some t) →
        t = new_tag ∧ adjacents' !! a = Some []) ∧
     ∀ a, tags' !! a = Some (Some new_tag)
          ↔ rtsc (adjacency_edge dot flt m split_angle_cos adjacents) starting_facet_index a).
Proof.
  intros Hok Hnormals Hdot Hadj run.
  pose proof (adjacent_facets_length m adjacents Hok Hadj) as Hlen.
  split.
  - intros Hstart. unfold run, RenderMesh.connected_facets, traverse.
    rewrite decide_False; [done|]. rewrite length_replicate. lia.
  - intros Hstart.
    destruct (traverse_fresh (RenderMesh.set_pop set_iter) (RenderMesh.enter_normal m)
      (RenderMesh.test_angle dot flt m split_angle_cos)
      (set_pop_None set_iter set_iter_perm) (set_pop_Some set_iter set_iter_perm)
      (test_angle_enter m split_angle_cos) adjacents) with (new_tag := new_tag)
      (start := starting_facet_index)
      as (adjacents' & tags' & Hrun & Hlen' & Honly & Hcomp).
    + intros a b. rewrite <- !adjacency_edge_edge. by apply adjacent_facets_edge_sym.
    + intros a Ha. unfold RenderMesh.enter_normal.
      destruct (at_lt (RenderMesh.mesh_normals m) a) as (n & Hn & _); [lia|]. eauto.
    + lia.
    + exists adjacents', tags'. split_and!; [done|lia|done|].
      intros a. rewrite Hcomp.
        split; apply rtsc_subrel; intros x y; by rewrite adjacency_edge_edge.
Qed.

End ConnectedNumbering.

Lemma connected_components_numbering_witness :
  ∃ tags last,
    RenderMesh.connected_components ascending int_dot int_lt cos_at_0 cube 0%Z
      = Ok (tags, last) ∧
    (last = None ↔ RenderMesh.mesh_facets cube = []) ∧
    (∀ t, (∃ a, tags !! a = Some (Some t)) ↔ ∃ l, last = Some l ∧ t ≤ l) ∧
    (∀ a, a < length (RenderMesh.mesh_facets cube) →
       ∃ t b, tags !! a = Some (Some t) ∧ b ≤ a ∧ tags !! b = Some (Some t) ∧
         ∀ c t', c < b → tags !! c = Some (Some t') → t' < t).
Proof.
  apply (connected_components_numbering ascending int_dot int_lt cos_at_0 ascending_perm
           cube 0%Z).
  - unfold mesh_indices_ok. vm_compute. repeat constructor.
  - reflexivity.
  - exact int_dot_sym.
Defined.

Lemma connected_facets_component_witness :
  ∃ adjacents adjacents' tags',
    RenderMesh.adjacent_facets ascending strip = Ok adjacents ∧
    RenderMesh.connected_facets ascending int_dot int_lt strip 2 adjacents
      (replicate (length adjacents) None) 5 1%Z = Ok (adjacents', tags') ∧
    ∀ a, tags' !! a = Some (Some 5)
         ↔ rtsc (adjacency_edge int_dot int_lt strip 1%Z adjacents) 2 a.
Proof.
  destruct (RenderMesh.adjacent_facets ascending strip) as [adjacents|] eqn:Hadj; [|done].
  destruct (connected_facets_component ascending int_dot int_lt ascending_perm
              strip adjacents 2 5 1%Z) as [_ Hrun].
  - unfold mesh_indices_ok. vm_compute. repeat constructor.
  - reflexivity.
  - exact int_dot_sym.
  - exact Hadj.
  - destruct Hrun as (adjacents' & tags' & Hrun & _ & _ & Hcomp); [vm_compute; lia|].
    by exists adjacents, adjacents', tags'.
Defined.

(** *** The traversal of the workers *)

(** X8. [connected_components] of the workers, on symmetric adjacency
    lists and with the counter at [lo], run alone (as in the second pass of
    [main]): the tags given are exactly the values [lo], ..., [next - 1] that
    the counter takes, one per component, and the components are numbered
    in the order of their first vertices. *)
Theorem connected_components_counter adjacents lo :
  (∀ a b, listed adjacents a b → listed adjacents b a) →
  ∃ next tags, connected_components adjacents lo = Ok (next, Some <$> tags) ∧
    (∀ t, t ∈ tags ↔ lo ≤ t < next) ∧
    (∀ a t, tags !! a = Some t →
       ∃ b, b ≤ a ∧ tags !! b = Some t ∧ ∀ c t', c < b → tags !! c = Some t' → t' < t).
Proof.
  intros Hsym.
  destruct (components_loop_numbered list_pop (λ _, Ok tt) (λ _ _, Some tt)
              list_pop_None list_pop_Some) with (adj0 := adjacents) (lo := lo)
    as (next & adjacents' & tags & Hrun & Hlen & Hused & Hfirst).
  - by intros [] s [].
  - intros a b (row & Hrow & Hb & _). destruct (Hsym a b) as (row' & ? & ?); [by exists row|].
    exists row'. split_and!; [done..|]. by exists tt, tt.
  - intros a _. by exists tt.
  - assert (Htags : tags = Some <$> (default 0 <$> tags)).
    { apply list_eq. intros a. rewrite !list_lookup_fmap.
      destruct (tags !! a) as [t|] eqn:Ht; [|done]. cbn.
      destruct (Hfirst a) as (t' & _ & Ht' & _).
      { rewrite <- Hlen. by eapply lookup_lt_Some. }
      rewrite Ht in Ht'. by injection Ht' as ->. }
    assert (Hlook : ∀ a t, (default 0 <$> tags) !! a = Some t ↔ tags !! a = Some (Some t)).
    { intros a t. rewrite list_lookup_fmap.
      destruct (tags !! a) as [[t'|]|] eqn:Ht; cbn; [split; congruence| |split; congruence].
      destruct (Hfirst a) as (t' & _ & Ht' & _); [|congruence].
      rewrite <- Hlen. by eapply lookup_lt_Some. }
    exists next, (default 0 <$> tags). split_and!.
    + unfold connected_components. rewrite Hrun. cbn [mbind result_bind]. by rewrite <- Htags.
    + intros t. rewrite <- Hused, list_elem_of_lookup.
      split; intros [a Ha]; exists a; by apply Hlook.
    + intros a t Ha. apply Hlook in Ha.
      destruct (Hfirst a) as (t' & b & Ha' & Hle & Hb & Hsmaller).
      { rewrite <- Hlen. by eapply lookup_lt_Some. }
      assert (t' = t) as -> by congruence.
      exists b. split_and!; [done|by apply Hlook|].
      intros c t' Hc Ht'. apply Hlook in Ht'. by eapply Hsmaller.
Qed.

Lemma connected_components_counter_witness :
  ∃ next tags, connected_components [[1]; [0; 2]; [1]; []; [5]; [4]] 7
                 = Ok (next, Some <$> tags) ∧
    (∀ t, t ∈ tags ↔ 7 ≤ t < next).
Proof.
  destruct (connected_components_counter [[1]; [0; 2]; [1]; []; [5]; [4]] 7)
    as (next & tags & Hrun & Hused & _).
  - intros a b (row & Hrow & Hb).
    destruct a as [|[|[|[|[|[|a]]]]]]; cbn in Hrow; try done; injection Hrow as <-;
      rewrite ?elem_of_cons, elem_of_nil in Hb; destruct_or?; try done; subst b;
      eexists; (split; [reflexivity|]); rewrite ?elem_of_cons; tauto.
  - exists next, tags. split; [exact Hrun|exact Hused].
Defined.

(** ** What the splitter keeps *)

(** [uvmap_per_vertex] *)
Definition uvmap_per_vertex {F} (m : RenderMesh.mesh (F:=F)) : result (list (F * F)) :=
  mapR (at_ (RenderMesh.mesh_uvmap m)) (RenderMesh.mesh_facets m ≫= facet_points).

Lemma mapR_Forall2 {A A' B} (f : A → result B) (g : A' → result B) l l' :
  Forall2 (λ x y, f x = g y) l l' → mapR f l = mapR g l'.
Proof.
  induction 1 as [|x y l l' Hxy _ IH]; [done|]. cbn [mapR]. by rewrite Hxy, IH.
Qed.

Lemma corner_pairs_fst facets : ∀ tags,
  length tags = length facets → (corner_pairs facets tags).*1 = facets ≫= facet_points.
Proof.
  unfold corner_pairs.
  induction facets as [|[[a b] c] facets IH]; intros [|t tags] Hlen; try done.
  cbn [zip zip_with]. rewrite !bind_cons, fmap_app. rewrite IH by (cbn in Hlen; lia). done.
Qed.

Section SplitterKeeps.
Context {F : Type}.
Variable set_iter : list nat → list nat.
Variable dot : F * F * F → F * F * F → F.
Variable flt : F → F → bool.
Variable cos : F → F.
Implicit Types (m : RenderMesh.mesh (F:=F)).

(** The corner at position [k] of a facet of the result is the position,
    among the keys, of the pair of the corner at position [k] of the facet
    of the mesh. *)
Lemma split_geometry_corner m tags m' i f f' t k p' :
  split_geometry m tags m' →
  RenderMesh.mesh_facets m !! i = Some f → tags !! i = Some t →
  RenderMesh.mesh_facets m' !! i = Some f' →
  facet_points f' !! k = Some p' →
  ∃ p, facet_points f !! k = Some p ∧
    first_occurrences (corner_pairs (RenderMesh.mesh_facets m) tags) !! p' = Some (p, t).
Proof.
  intros (_ & _ & Hfs) Hf Ht Hf' Hk.
  assert (zip (RenderMesh.mesh_facets m) tags !! i = Some (f, t)) as Hft.
  { apply lookup_zip_with_Some. eauto. }
  pose proof (Forall2_lookup_lr _ _ _ _ _ _ Hfs Hft Hf') as (Ha & Hb & Hc).
  destruct f as [[a b] c], f' as [[a' b'] c']. cbn in Ha, Hb, Hc.
  destruct k as [|[|[|k]]]; cbn in Hk; [| | |done]; injection Hk as <-; eauto.
Qed.

Lemma separate_connected_components_run m split_angle tags last :
  mesh_indices_ok m → mesh_uvmap_ok m →
  RenderMesh.connected_components set_iter dot flt cos m split_angle = Ok (tags, last) →
  ∃ m', RenderMesh.separate_connected_components set_iter dot flt cos m split_angle = Ok m' ∧
    length tags = length (RenderMesh.mesh_facets m) ∧
    length (RenderMesh.mesh_facets m') = length (RenderMesh.mesh_facets m) ∧
    split_geometry m tags m'.
Proof.
  intros Hok Huv Htags.
  pose proof (connected_components_length _ _ _ _ _ _ _ _ Htags) as Hlen.
  destruct (split_points_run m tags Hok Huv) as (m' & Hrun & Hgeo & _).
  exists m'. split_and!; [|done| |done].
  - unfold RenderMesh.separate_connected_components. by rewrite Htags.
  - destruct (split_geometry_lengths _ _ _ Hgeo) as (_ & Hlf & _).
    rewrite Hlf, length_zip_with. lia.
Qed.

(** X9. [separate_connected_components] does not change what is drawn: on
    a mesh whose facets index its points (and whose UV map, if any, has one
    entry per point), every corner of every facet keeps the coordinates of
    its point, and [uvmap_per_vertex] gives the same result before and
    after, be it a list or the [IndexError] of a mesh without UV map. *)
Theorem separate_connected_components_keeps m split_angle tags last :
  mesh_indices_ok m → mesh_uvmap_ok m →
  RenderMesh.connected_components set_iter dot flt cos m split_angle = Ok (tags, last) →
  ∃ m', RenderMesh.separate_connected_components set_iter dot flt cos m split_angle = Ok m' ∧
    (∀ i f k p, RenderMesh.mesh_facets m !! i = Some f → facet_points f !! k = Some p →
       ∃ f' p', RenderMesh.mesh_facets m' !! i = Some f' ∧ facet_points f' !! k = Some p' ∧
         RenderMesh.mesh_points m' !! p' = RenderMesh.mesh_points m !! p ∧
         is_Some (RenderMesh.mesh_points m !! p)) ∧
    uvmap_per_vertex m' = uvmap_per_vertex m.
Proof.
  intros Hok Huv Htags.
  destruct (separate_connected_components_run m split_angle tags last Hok Huv Htags)
    as (m' & Hrun & Hlen & Hlen' & Hgeo).
  exists m'. split_and!; [done| |].
  - intros i f k p Hf Hk.
    destruct (lookup_lt_is_Some_2 (RenderMesh.mesh_facets m') i) as [f' Hf'].
    { rewrite Hlen'. by eapply lookup_lt_Some. }
    destruct (lookup_lt_is_Some_2 tags i) as [t Ht].
    { rewrite Hlen. by eapply lookup_lt_Some. }
    destruct (lookup_lt_is_Some_2 (facet_points f') k) as [p' Hp'].
    { apply lookup_lt_Some in Hk. by destruct f as [[? ?] ?], f' as [[? ?] ?]. }
    destruct (split_geometry_corner m tags m' i f f' t k p' Hgeo Hf Ht Hf' Hp')
      as (p0 & Hp0 & Hkey).
    assert (p0 = p) as -> by congruence.
    destruct Hgeo as (Hpts & _ & _).
    destruct (Forall2_lookup_l _ _ _ _ _ Hpts Hkey) as (pt & Hpt & Hpt0). cbn in Hpt0.
    exists f', p'. split_and!; [done|done|congruence|eauto].
  - unfold uvmap_per_vertex.
    pose proof (split_geometry_corners _ _ _ Hgeo) as Hcorners.
    destruct Hgeo as (_ & [[Hnil Hnil']|[Hne Huvs]] & _).
    + rewrite Hnil, Hnil'. apply mapR_Forall2.
      apply Forall2_same_length_lookup_2.
      * rewrite <- (corner_pairs_fst _ tags Hlen), length_fmap. symmetry.
        by eapply Forall2_length.
      * intros j x y _ _. unfold at_. by rewrite !lookup_nil.
    + rewrite <- (corner_pairs_fst _ tags Hlen). apply mapR_Forall2.
      apply Forall2_flip, Forall2_fmap_l. eapply Forall2_impl; [exact Hcorners|].
      intros key c Hkey. cbn.
      destruct (Forall2_lookup_l _ _ _ _ _ Huvs Hkey) as (uv & Huv' & Huv0).
      unfold at_. by rewrite Huv', Huv0.
Qed.

(** X10. [separate_connected_components] parts the components and nothing
    else: after it, a corner of a facet and a corner of another facet are
    the same point exactly when they were the same point before and the two
    facets have the same tag. *)
Theorem separate_connected_components_separates m split_angle tags last :
  mesh_indices_ok m → mesh_uvmap_ok m →
  RenderMesh.connected_components set_iter dot flt cos m split_angle = Ok (tags, last) →
  ∃ m', RenderMesh.separate_connected_components set_iter dot flt cos m split_angle = Ok m' ∧
    ∀ i j f g f' g' k l p q,
      RenderMesh.mesh_facets m !! i = Some f → RenderMesh.mesh_facets m !! j = Some g →
      RenderMesh.mesh_facets m' !! i = Some f' → RenderMesh.mesh_facets m' !! j = Some g' →
      facet_points f' !! k = Some p → facet_points g' !! l = Some q →
      (p = q ↔ facet_points f !! k = facet_points g !! l ∧ tags !! i = tags !! j).
Proof.
  intros Hok Huv Htags.
  destruct (separate_connected_components_run m split_angle tags last Hok Huv Htags)
    as (m' & Hrun & Hlen & Hlen' & Hgeo).
  exists m'. split; [done|].
  intros i j f g f' g' k l p q Hf Hg Hf' Hg' Hp Hq.
  destruct (lookup_lt_is_Some_2 tags i) as [ti Hti].
  { rewrite Hlen. by eapply lookup_lt_Some. }
  destruct (lookup_lt_is_Some_2 tags j) as [tj Htj].
  { rewrite Hlen. by eapply lookup_lt_Some. }
  destruct (split_geometry_corner m tags m' i f f' ti k p Hgeo Hf Hti Hf' Hp)
    as (p0 & Hp0 & Hkp).
  destruct (split_geometry_corner m tags m' j g g' tj l q Hgeo Hg Htj Hg' Hq)
    as (q0 & Hq0 & Hkq).
  rewrite Hp0, Hq0, Hti, Htj. split.
  - intros ->. rewrite Hkp in Hkq. by injection Hkq as -> ->.
  - intros [[= ->] [= ->]].
    eapply NoDup_lookup; [|exact Hkp|exact Hkq]. apply NoDup_first_occurrences.
Qed.

End SplitterKeeps.

Lemma separate_connected_components_keeps_witness :
  ∃ m' : @RenderMesh.mesh Z,
    RenderMesh.separate_connected_components ascending int_dot int_lt cos_at_0 cube 0%Z
      = Ok m' ∧
    uvmap_per_vertex m' = uvmap_per_vertex cube.
Proof.
  destruct (separate_connected_components_keeps ascending int_dot int_lt cos_at_0 cube 0%Z
    [Some 0; Some 0; Some 1; Some 1; Some 2; Some 2;
     Some 3; Some 3; Some 4; Some 4; Some 5; Some 5] (Some 5))
    as (m' & Hrun & _ & Huv).
  - unfold mesh_indices_ok. vm_compute. repeat constructor.
  - left. reflexivity.
  - vm_compute. reflexivity.
  - exists m'. split; [exact Hrun|exact Huv].
Defined.

Lemma separate_connected_components_separates_witness :
  ∃ m' : @RenderMesh.mesh Z,
    RenderMesh.separate_connected_components ascending int_dot int_lt cos_at_0 cube 0%Z
      = Ok m' ∧
    ∀ f' g' p, RenderMesh.mesh_facets m' !! 1 = Some f' →
      RenderMesh.mesh_facets m' !! 2 = Some g' →
      p ∈ facet_points f' → p ∉ facet_points g'.
Proof.
  destruct (separate_connected_components_separates ascending int_dot int_lt cos_at_0 cube 0%Z
    [Some 0; Some 0; Some 1; Some 1; Some 2; Some 2;
     Some 3; Some 3; Some 4; Some 4; Some 5; Some 5] (Some 5))
    as (m' & Hrun & Hsep).
  - unfold mesh_indices_ok. vm_compute. repeat constructor.
  - left. reflexivity.
  - vm_compute. reflexivity.
  - exists m'. split; [exact Hrun|]. intros f' g' p Hf' Hg' Hp Hq.
    apply list_elem_of_lookup in Hp as [k Hk]. apply list_elem_of_lookup in Hq as [l Hl].
    destruct (RenderMesh.mesh_facets cube !! 1) as [f|] eqn:Hf; [|done].
    destruct (RenderMesh.mesh_facets cube !! 2) as [g|] eqn:Hg; [|done].
    destruct (proj1 (Hsep 1 2 f g f' g' k l p p Hf Hg Hf' Hg' Hk Hl) eq_refl) as [_ Htag].
    vm_compute in Htag. discriminate Htag.
Defined.

(** ** The normalization of the vertex normals by the workers *)

Section Normalize.
Context {F : Type}.
Variable safe_normalize : F * F * F → F * F * F.

(** [autosmooth.normalize]: the vertex normals of the chunk are replaced by
    their normalizations, in the slice [start:stop] of the buffer (a slice
    of a memoryview is clipped to the buffer). *)
Definition normalize (vnormals : list (F * F * F)) (chunk : nat * nat)
  : result (list (F * F * F)) :=
  let '(start, stop) := chunk in
  assign_slice start stop (safe_normalize <$> slice start stop vnormals) vnormals.

(** The last phase of [main]:
    [chunks = make_chunks(chunk_size, len(shared["points"]) // 3)], then
    [run_unordered(pool, normalize, chunks)], the chunks running in the
    order [schedule]. *)
Definition main_normalize (vnormals : list (F * F * F)) (schedule : list (nat * nat))
  : result (list (F * F * F)) :=
  foldlM normalize vnormals schedule.

Lemma normalize_spec vnormals start stop :
  start ≤ stop →
  ∃ vnormals', normalize vnormals (start, stop) = Ok vnormals' ∧
    length vnormals' = length vnormals ∧
    ∀ v, vnormals' !! v
         = if decide (start ≤ v < stop) then safe_normalize <$> vnormals !! v
           else vnormals !! v.
Proof.
  intros Hle. unfold normalize, assign_slice.
  set (start' := start `min` length vnormals).
  set (stop' := start' `max` (stop `min` length vnormals)).
  assert (Hvals : length (safe_normalize <$> slice start stop vnormals) = stop' - start').
  { rewrite length_fmap. unfold slice. rewrite length_take, length_drop. lia. }
  rewrite decide_True by done. eexists. split; [done|]. split.
  { rewrite !length_app, length_take, length_drop, Hvals. lia. }
  intros v. destruct (decide (v < start')) as [Hv|Hv].
  { rewrite lookup_app_l by (rewrite length_take; lia).
    rewrite lookup_take_lt by lia. rewrite decide_False by lia. done. }
  rewrite lookup_app_r by (rewrite length_take; lia).
  rewrite length_take. replace (start' `min` length vnormals) with start' by lia.
  destruct (decide (v < stop')) as [Hv'|Hv'].
  - rewrite lookup_app_l by lia. rewrite list_lookup_fmap, lookup_slice.
    rewrite decide_True by lia. rewrite decide_True by lia.
    by replace (start + (v - start')) with v by lia.
  - rewrite lookup_app_r by lia. rewrite lookup_drop, Hvals.
    replace (stop' + (v - start' - (stop' - start'))) with v by lia.
    case_decide; [|done]. by rewrite (lookup_ge_None_2 vnormals v) by lia.
Qed.

Lemma main_normalize_fold (schedule : list (nat * nat)) : ∀ vnormals,
  Forall (λ chunk : nat * nat, chunk.1 < chunk.2) schedule →
  NoDup (schedule_facets schedule) →
  ∃ vnormals', main_normalize vnormals schedule = Ok vnormals' ∧
    length vnormals' = length vnormals ∧
    ∀ v, vnormals' !! v
         = if decide (v ∈ schedule_facets schedule) then safe_normalize <$> vnormals !! v
           else vnormals !! v.
Proof.
  unfold main_normalize.
  induction schedule as [|[start stop] schedule IH]; intros vnormals Hne Hnd.
  { exists vnormals. split_and!; [done..|]. intros v. rewrite decide_False; [done|].
    by intros ?%elem_of_nil. }
  apply Forall_cons in Hne as [Hlt Hne]. cbn in Hlt.
  rewrite schedule_facets_cons in Hnd. apply NoDup_app in Hnd as (_ & Hdisj & Hnd).
  destruct (normalize_spec vnormals start stop) as (vn1 & Hrun1 & Hlen1 & Hrows1); [lia|].
  destruct (IH vn1 Hne Hnd) as (vn' & Hrun & Hlen & Hrows).
  exists vn'. split_and!.
  - cbn [foldlM]. rewrite Hrun1. exact Hrun.
  - congruence.
  - intros v. rewrite Hrows, Hrows1, schedule_facets_cons.
    destruct (decide (start ≤ v < stop)) as [Hin|Hout].
    + assert (v ∈ chunk_facets (start, stop)) as Hv by by apply elem_of_chunk_facets.
      rewrite decide_False by by apply Hdisj.
      rewrite decide_True; [done|]. apply elem_of_app. by left.
    + assert (v ∉ chunk_facets (start, stop)) as Hv by by rewrite elem_of_chunk_facets.
      destruct (decide (v ∈ schedule_facets schedule)) as [Hr|Hr].
      * rewrite decide_True; [done|]. apply elem_of_app. by right.
      * rewrite decide_False; [done|]. rewrite elem_of_app. tauto.
Qed.

(** X11. The last phase of [main] normalizes exactly the vertex normals
    whose index is below [count_points], the number of points that [main]
    was given, once each and whatever the order of the chunks: the vertex
    normals from that index on, which the buffer holds when the splitting
    has added points, are left as they are. No error is raised, also when
    the buffer is shorter than [count_points]. *)
Theorem main_normalize_prefix (chunk_size count_points : nat)
    (vnormals : list (F * F * F)) (chunks schedule : list (nat * nat)) :
  make_chunks chunk_size count_points = Ok chunks →
  schedule ≡ₚ chunks →
  ∃ vnormals', main_normalize vnormals schedule = Ok vnormals' ∧
    length vnormals' = length vnormals ∧
    ∀ v, vnormals' !! v
         = if decide (v < count_points) then safe_normalize <$> vnormals !! v
           else vnormals !! v.
Proof.
  intros Hchunks Hperm. unfold make_chunks in Hchunks.
  destruct (decide (chunk_size = 0)) as [|Hpos]; [done|]. injection Hchunks as <-.
  destruct (make_chunks_from_spec chunk_size count_points) with (fuel := count_points) (i := 0)
    as (Hcover & Hne & _); [lia|lia|].
  rewrite Nat.sub_0_r in Hcover.
  assert (Hfacets : schedule_facets schedule ≡ₚ seq 0 count_points).
  { rewrite <- Hcover. unfold schedule_facets. by rewrite Hperm. }
  destruct (main_normalize_fold schedule vnormals) as (vn' & Hrun & Hlen & Hrows).
  - rewrite Hperm. eapply Forall_impl; [exact Hne|]. by intros chunk [? _].
  - rewrite Hfacets. apply NoDup_seq.
  - exists vn'. split_and!; [done..|]. intros v. rewrite Hrows.
    destruct (decide (v < count_points)) as [Hv|Hv].
    + rewrite decide_True; [done|]. rewrite Hfacets. apply elem_of_seq. lia.
    + rewrite decide_False; [done|]. rewrite Hfacets, elem_of_seq. lia.
Qed.

End Normalize.

Lemma main_normalize_prefix_witness :
  ∃ vnormals', main_normalize (λ v : Z * Z * Z, (v.1.1 - 1, 0, 0)%Z)
                 [(1, 1, 1); (2, 2, 2); (3, 3, 3); (4, 4, 4)]%Z [(2, 3); (0, 2)]
               = Ok vnormals' ∧
    vnormals' !! 3 = Some (4, 4, 4)%Z.
Proof.
  destruct (main_normalize_prefix (λ v : Z * Z * Z, (v.1.1 - 1, 0, 0)%Z) 2 3
              [(1, 1, 1); (2, 2, 2); (3, 3, 3); (4, 4, 4)]%Z [(0, 2); (2, 3)] [(2, 3); (0, 2)])
    as (vn' & Hrun & _ & Hrows).
  - reflexivity.
  - apply Permutation_swap.
  - exists vn'. split; [exact Hrun|]. rewrite Hrows. reflexivity.
Defined.

(** ** The splitter of [main] *)

(** The flat arrays that [main] is given: three coordinates per point, two
    per entry of the UV map. *)
Definition flat3 {F} (l : list (F * F * F)) : list F :=
  l ≫= (λ p, [p.1.1; p.1.2; p.2]).

Definition flat2 {F} (l : list (F * F)) : list F :=
  l ≫= (λ p, [p.1; p.2]).

(** The part of [main] that recomputes the points, the UV map and the
    facets from the tags. The keys of [newpoints] are the pairs
    [(point_index, tag)]; the tags, which are integers here, are wrapped in
    [Some] to use the dictionary of the method. The slices [points[3 * i :
    3 * i + 3]] are clipped, and [shared["facets"][:] = facet_list] needs a
    list of the size of the array. *)
Definition main_split_points {F} (points uvmap : list F) (facets : list facet)
    (tags : list nat) : result (list F * list F * list nat) :=
  let tags := Some <$> tags in
  let newpoints := RenderMesh.newpoints_number (RenderMesh.newpoints_init facets tags) in
  let point_list :=
    newpoints.*1 ≫= (λ key : nat * option nat, slice (3 * key.1) (3 * key.1 + 3) points) in
  let uvmap :=
    match uvmap with
    | [] => []
    | _ => newpoints.*1 ≫=
             (λ key : nat * option nat, slice (key.1 * 2) (key.1 * 2 + 2) uvmap)
    end in
  facet_list ← mapR (λ key : nat * option nat, RenderMesh.newpoints_get newpoints key.1 key.2)
                 (zip facets tags ≫= (λ ft, (λ p, (p, ft.2)) <$> facet_points ft.1));
  if decide (length facet_list = 3 * length facets) then Ok (point_list, uvmap, facet_list)
  else Raise ValueError.

Lemma slice_flat3 {F} (l : list (F * F * F)) : ∀ p,
  slice (3 * p) (3 * p + 3) (flat3 l)
  = match l !! p with Some pt => [pt.1.1; pt.1.2; pt.2] | None => [] end.
Proof.
  unfold slice, flat3. intros p. replace (3 * p + 3 - 3 * p) with 3 by lia. revert p.
  induction l as [|pt l IH]; intros p.
  { by destruct p. }
  destruct p as [|p]; [done|].
  replace (3 * S p) with (S (S (S (3 * p)))) by lia. rewrite bind_cons. cbn [app drop lookup list_lookup].
  apply IH.
Qed.

Lemma slice_flat2 {F} (l : list (F * F)) : ∀ p,
  slice (p * 2) (p * 2 + 2) (flat2 l)
  = match l !! p with Some pt => [pt.1; pt.2] | None => [] end.
Proof.
  unfold slice, flat2. intros p. replace (p * 2 + 2 - p * 2) with 2 by lia. revert p.
  induction l as [|pt l IH]; intros p.
  { by destruct p. }
  destruct p as [|p]; [done|].
  replace (S p * 2) with (S (S (p * 2))) by lia. rewrite bind_cons. cbn [app drop lookup list_lookup].
  apply IH.
Qed.

Lemma flat3_rebuild {F} (points new_points : list (F * F * F)) (keys : list (nat * option nat)) :
  Forall2 (λ key pt, points !! key.1 = Some pt) keys new_points →
  keys ≫= (λ key, slice (3 * key.1) (3 * key.1 + 3) (flat3 points)) = flat3 new_points.
Proof.
  induction 1 as [|key pt keys new Hkey _ IH]; [done|].
  unfold flat3 at 2. rewrite !bind_cons, slice_flat3, Hkey. f_equal. exact IH.
Qed.

Lemma flat2_rebuild {F} (uvmap new_uvmap : list (F * F)) (keys : list (nat * option nat)) :
  Forall2 (λ key uv, uvmap !! key.1 = Some uv) keys new_uvmap →
  keys ≫= (λ key, slice (key.1 * 2) (key.1 * 2 + 2) (flat2 uvmap)) = flat2 new_uvmap.
Proof.
  induction 1 as [|key pt keys new Hkey _ IH]; [done|].
  unfold flat2 at 2. rewrite !bind_cons, slice_flat2, Hkey. f_equal. exact IH.
Qed.

Lemma length_corners (facets : list facet) : length (facets ≫= facet_points) = 3 * length facets.
Proof.
  induction facets as [|[[a b] c] facets IH]; [done|].
  rewrite bind_cons, length_app, IH. cbn. lia.
Qed.

(** The facets of [main], whatever the indices of the points. *)
Lemma main_facet_list facets (tags : list (option nat)) :
  length tags = length facets →
  ∃ facet_list,
    mapR (λ key : nat * option nat,
            RenderMesh.newpoints_get
              (RenderMesh.newpoints_number (RenderMesh.newpoints_init facets tags)) key.1 key.2)
      (corner_pairs facets tags) = Ok facet_list ∧
    length facet_list = 3 * length facets ∧
    Forall2 (λ key c, first_occurrences (corner_pairs facets tags) !! c = Some key)
      (corner_pairs facets tags) facet_list.
Proof.
  intros Hlen.
  destruct (mapR_total
    (λ key : nat * option nat,
       RenderMesh.newpoints_get
         (RenderMesh.newpoints_number (RenderMesh.newpoints_init facets tags)) key.1 key.2)
    (corner_pairs facets tags)) as [facet_list Hrun].
  { intros [p t] Hin. apply elem_of_first_occurrences, list_elem_of_lookup in Hin as [i Hi].
    exists i. by apply newpoints_get_spec. }
  exists facet_list. split_and!; [done| |].
  - rewrite (mapR_length _ _ _ Hrun), <- (length_fmap fst), corner_pairs_fst by done.
    apply length_corners.
  - apply mapR_Ok in Hrun. apply Forall2_same_length_lookup. split.
    { by eapply Forall2_length. }
    intros i [p t] c Hkey Hc.
    pose proof (Forall2_lookup_lr _ _ _ _ _ _ Hrun Hkey Hc) as Hget. cbn in Hget.
    assert ((p, t) ∈ first_occurrences (corner_pairs facets tags)) as Hin.
    { apply elem_of_first_occurrences. by eapply list_elem_of_lookup_2. }
    apply list_elem_of_lookup in Hin as [c' Hc'].
    rewrite (newpoints_get_spec _ _ _ _ _ Hc') in Hget. by injection Hget as <-.
Qed.

(** X12. The splitter of [main] computes what the method
    [separate_connected_components] computes from the same tags: on a mesh
    whose facets index its points (and whose UV map, if any, has one entry
    per point), it returns the flat arrays of the points, of the UV map and
    of the facets of the mesh that [split_points] returns. *)
Theorem main_split_points_refines {F} (m : RenderMesh.mesh (F:=F)) (tags : list nat) :
  mesh_indices_ok m → mesh_uvmap_ok m →
  length tags = length (RenderMesh.mesh_facets m) →
  ∃ m', RenderMesh.split_points m (Some <$> tags) = Ok m' ∧
    main_split_points (flat3 (RenderMesh.mesh_points m)) (flat2 (RenderMesh.mesh_uvmap m))
      (RenderMesh.mesh_facets m) tags
    = Ok (flat3 (RenderMesh.mesh_points m'), flat2 (RenderMesh.mesh_uvmap m'),
          RenderMesh.mesh_facets m' ≫= facet_points).
Proof.
  intros Hok Huv Hlen.
  destruct (split_points_run m (Some <$> tags) Hok Huv) as (m' & Hrun & Hgeo & _).
  exists m'. split; [done|].
  unfold main_split_points. rewrite newpoints_number_keys.
  fold (corner_pairs (RenderMesh.mesh_facets m) (Some <$> tags)).
  destruct (main_facet_list (RenderMesh.mesh_facets m) (Some <$> tags))
    as (facet_list & Hfl & Hlenfl & Hkeys); [by rewrite length_fmap|].
  rewrite Hfl. cbn [mbind result_bind]. rewrite decide_True by done.
  pose proof (split_geometry_corners _ _ _ Hgeo) as Hcorners.
  destruct Hgeo as (Hpts & Huvs & _).
  f_equal. f_equal; [f_equal|].
  - by apply flat3_rebuild.
  - destruct Huvs as [[Hnil Hnil']|[Hne Huvs]].
    + by rewrite Hnil, Hnil'.
    + rewrite <- (flat2_rebuild _ _ _ Huvs).
      destruct (RenderMesh.mesh_uvmap m) as [|uv uvs]; [by destruct Hne|]. reflexivity.
  - apply list_eq_same_length with (length facet_list); [|done|].
    { rewrite <- (Forall2_length _ _ _ Hcorners). by rewrite (Forall2_length _ _ _ Hkeys). }
    intros i c c' _ Hc Hc'.
    destruct (Forall2_lookup_r _ _ _ _ _ Hkeys Hc) as (key & Hkey & Hpos).
    pose proof (Forall2_lookup_lr _ _ _ _ _ _ Hcorners Hkey Hc') as Hpos'.
    eapply NoDup_lookup; [|exact Hpos|exact Hpos']. apply NoDup_first_occurrences.
Qed.

Lemma main_split_points_refines_witness :
  ∃ m' : @RenderMesh.mesh Z,
    RenderMesh.split_points strip [Some 0; Some 0; Some 1; Some 1] = Ok m' ∧
    main_split_points (flat3 (RenderMesh.mesh_points strip)) (flat2 (RenderMesh.mesh_uvmap strip))
      (RenderMesh.mesh_facets strip) [0; 0; 1; 1]
    = Ok (flat3 (RenderMesh.mesh_points m'), flat2 (RenderMesh.mesh_uvmap m'),
          RenderMesh.mesh_facets m' ≫= facet_points).
Proof.
  apply (main_split_points_refines strip [0; 0; 1; 1]).
  - unfold mesh_indices_ok. vm_compute. repeat constructor.
  - left. reflexivity.
  - reflexivity.
Defined.

Lemma rebuild_out_of_range {A} (l : list A) (keys : list (nat * option nat)) :
  (∃ key, key ∈ keys ∧ length l ≤ key.1) → RenderMesh.rebuild l keys = Raise IndexError.
Proof.
  unfold RenderMesh.rebuild. induction keys as [|key keys IH]; intros (bad & Hin & Hbad).
  { by apply elem_of_nil in Hin. }
  cbn [mapR]. destruct (at_ l key.1) as [x|e] eqn:Hx; cbn [mbind result_bind].
  - rewrite IH; [reflexivity|].
    apply elem_of_cons in Hin as [->|Hin]; [|eauto].
    apply at_Ok, lookup_lt_Some in Hx. lia.
  - unfold at_ in Hx. destruct (l !! key.1); congruence.
Qed.

Lemma length_bind_short {A B} (g : A → list B) (keys : list A) :
  (∀ key, length (g key) ≤ 3) → (∃ key, key ∈ keys ∧ g key = []) →
  length (keys ≫= g) + 3 ≤ 3 * length keys.
Proof.
  intros Hle. assert (Hall : ∀ l : list A, length (l ≫= g) ≤ 3 * length l).
  { induction l as [|x l IH]; [done|]. rewrite bind_cons, length_app. specialize (Hle x).
    cbn [length]. lia. }
  induction keys as [|key keys IH]; intros (bad & Hin & Hbad).
  { by apply elem_of_nil in Hin. }
  rewrite bind_cons, length_app. cbn [length].
  apply elem_of_cons in Hin as [->|Hin].
  - rewrite Hbad. specialize (Hall keys). cbn [length]. lia.
  - specialize (Hle key). specialize (IH (ex_intro _ bad (conj Hin Hbad))). lia.
Qed.

(** X13. The splitter of [main] does not check the indices of the points.
    When a facet has a point index that is not below the number of points,
    the method raises [IndexError], but the splitter of [main] returns its
    arrays: the slice of the missing point is empty, so that the array of
    the points is too short for the facets it returns. *)
Theorem main_split_points_out_of_range {F} (m : RenderMesh.mesh (F:=F)) (tags : list nat) :
  length tags = length (RenderMesh.mesh_facets m) →
  ¬ mesh_indices_ok m →
  RenderMesh.split_points m (Some <$> tags) = Raise IndexError ∧
  ∃ point_list uvmap facet_list,
    main_split_points (flat3 (RenderMesh.mesh_points m)) (flat2 (RenderMesh.mesh_uvmap m))
      (RenderMesh.mesh_facets m) tags = Ok (point_list, uvmap, facet_list) ∧
    ∃ c, c ∈ facet_list ∧ length point_list < 3 * c + 3.
Proof.
  intros Hlen Hbad.
  set (keys := first_occurrences (corner_pairs (RenderMesh.mesh_facets m) (Some <$> tags))).
  assert (∃ key, key ∈ keys ∧ length (RenderMesh.mesh_points m) ≤ key.1)
    as (bad & Hin & Hout).
  { unfold mesh_indices_ok in Hbad.
    apply not_Forall_Exists in Hbad; [|apply _].
    apply Exists_exists in Hbad as (f & Hf & Hbad).
    apply not_Forall_Exists in Hbad; [|apply _].
    apply Exists_exists in Hbad as (p & Hp & Hbad).
    apply list_elem_of_lookup in Hf as [i Hi].
    destruct (lookup_lt_is_Some_2 tags i) as [t Ht].
    { rewrite Hlen. by eapply lookup_lt_Some. }
    exists (p, Some t). split; [|cbn in *; lia].
    apply elem_of_first_occurrences, elem_of_corner_pairs.
    exists i, f. split_and!; [done| |done]. by rewrite list_lookup_fmap, Ht. }
  split.
  { unfold RenderMesh.split_points. rewrite newpoints_number_keys.
    rewrite (rebuild_out_of_range (RenderMesh.mesh_points m)); [reflexivity|]. by exists bad. }
  unfold main_split_points. rewrite newpoints_number_keys.
  fold (corner_pairs (RenderMesh.mesh_facets m) (Some <$> tags)). fold keys.
  destruct (main_facet_list (RenderMesh.mesh_facets m) (Some <$> tags))
    as (facet_list & Hfl & Hlenfl & Hkeys); [by rewrite length_fmap|].
  rewrite Hfl. cbn [mbind result_bind]. rewrite decide_True by done.
  eexists _, _, facet_list. split; [reflexivity|].
  assert (0 < length keys) as Hpos.
  { apply list_elem_of_lookup in Hin as [j Hj]. apply lookup_lt_Some in Hj. lia. }
  destruct (lookup_lt_is_Some_2 keys (length keys - 1)) as [last Hlast]; [lia|].
  assert (last ∈ corner_pairs (RenderMesh.mesh_facets m) (Some <$> tags)) as Hcorner.
  { apply elem_of_first_occurrences. by eapply list_elem_of_lookup_2. }
  apply list_elem_of_lookup in Hcorner as [j Hj].
  destruct (Forall2_lookup_l _ _ _ _ _ Hkeys Hj) as (c & Hc & Hpos').
  assert (c = length keys - 1) as ->.
  { eapply NoDup_lookup; [|exact Hpos'|exact Hlast]. apply NoDup_first_occurrences. }
  exists (length keys - 1). split; [by eapply list_elem_of_lookup_2|].
  pose proof (length_bind_short
    (λ key : nat * option nat,
       slice (3 * key.1) (3 * key.1 + 3) (flat3 (RenderMesh.mesh_points m))) keys) as Hshort.
  cbn beta in Hshort. 
  assert (length (keys ≫= λ key : nat * option nat,
     slice (3 * key.1) (3 * key.1 + 3) (flat3 (RenderMesh.mesh_points m))) + 3
          ≤ 3 * length keys) as Hle; [|lia].
  apply Hshort.
  - intros key. unfold slice. rewrite length_take. lia.
  - exists bad. split; [done|]. rewrite slice_flat3.
    by rewrite (lookup_ge_None_2 (RenderMesh.mesh_points m) bad.1).
Qed.

(** A strip whose last facet has a corner that is not a point. *)
Definition strip_dangling : RenderMesh.mesh (F:=Z) :=
  RenderMesh.Mesh
    [(0, 0, 0); (1, 0, 0); (0, 1, 0); (1, 1, 0)]%Z
    [(0, 1, 2); (1, 3, 7)]
    (replicate 2 (0, 0, 1)%Z) (replicate 2 1%Z) [] [].

Lemma main_split_points_out_of_range_witness :
  RenderMesh.split_points strip_dangling [Some 0; Some 0] = Raise IndexError ∧
  ∃ point_list uvmap facet_list,
    main_split_points (flat3 (RenderMesh.mesh_points strip_dangling))
      (flat2 (RenderMesh.mesh_uvmap strip_dangling))
      (RenderMesh.mesh_facets strip_dangling) [0; 0] = Ok (point_list, uvmap, facet_list) ∧
    ∃ c, c ∈ facet_list ∧ length point_list < 3 * c + 3.
Proof.
  apply (main_split_points_out_of_range strip_dangling [0; 0]).
  - reflexivity.
  - unfold mesh_indices_ok. intros Hok.
    apply Forall_cons in Hok as [_ Hok]. apply Forall_cons in Hok as [Hok _].
    cbn in Hok. apply Forall_cons in Hok as [_ Hok]. apply Forall_cons in Hok as [_ Hok].
    apply Forall_cons in Hok as [Hok _]. lia.
Defined.
